(** * Scene pipeline of the consistent-character image tool

    A shallow embedding of the core of [src/App.tsx] (the scene batch
    orchestrator [handleGenerateScenes] with its character reference
    resolver, and the animation handler [handleAnimateScene]) and of the
    remote wrappers of [src/services/gemini.ts] ([generateSceneImage],
    [analyzeScript], [animateImage]).

    JavaScript strings are sequences of UTF-16 code units and are embedded
    as [list N]; the string built-ins the code calls ([trim], [split],
    [match] on the tag pattern, [slice], [substring], [toString]) are
    written out on code units.  React state is an explicit record threaded
    through a small state-and-trace monad; every state setter call and every
    remote call is recorded as an event, in program order.

    Part III covers the rest of the code: the character store of
    [src/services/storage.ts], the character handlers of [App],
    [generateCharacterImage], the file upload of
    [src/components/CharacterSetup.tsx] and the prompt box of the scene
    panel. *)

From Stdlib Require Import NArith List String Ascii Lia DecimalN Sorted.
From stdpp Require Import base list gmap sets.

Set Warnings "-register-all,-abstract-large-number".

Local Open Scope N_scope.
Local Open Scope list_scope.

(* ===================================================================== *)
(** * Part I: definitions                                                 *)
(* ===================================================================== *)

(** ** JavaScript strings as UTF-16 code units *)

Abbreviation jsstring := (list N).

(** An ASCII literal as a JavaScript string. *)
Definition js (s : string) : jsstring :=
  List.map N_of_ascii (list_ascii_of_string s).

(** The double quote character, U+0022. *)
Definition dquote : jsstring := [34].

(** Truthiness of a string: every string but the empty one. *)
Definition truthy (s : jsstring) : bool :=
  match s with
  | [] => false
  | _ :: _ => true
  end.

(** Truthiness of [string | null] and of [string | undefined]. *)
Definition truthy_opt (o : option jsstring) : bool :=
  match o with
  | Some s => truthy s
  | None => false
  end.

(** ECMAScript WhiteSpace and LineTerminator code points, the characters
    [String.prototype.trim] strips. *)
Definition isWhiteSpace (c : N) : bool :=
  (c =? 9) || (c =? 10) || (c =? 11) || (c =? 12) || (c =? 13) ||
  (c =? 32) || (c =? 160) || (c =? 5760) ||
  ((8192 <=? c) && (c <=? 8202)) ||
  (c =? 8232) || (c =? 8233) || (c =? 8239) || (c =? 8287) ||
  (c =? 12288) || (c =? 65279).

(** LineTerminator code points, the characters [.] does not match. *)
Definition isLineTerminator (c : N) : bool :=
  (c =? 10) || (c =? 13) || (c =? 8232) || (c =? 8233).

Fixpoint trimStart (s : jsstring) : jsstring :=
  match s with
  | [] => []
  | c :: s' => if isWhiteSpace c then trimStart s' else s
  end.

Definition trimEnd (s : jsstring) : jsstring := rev (trimStart (rev s)).

(** [s.trim()] *)
Definition trim (s : jsstring) : jsstring := trimEnd (trimStart s).

(** [!prompt.trim()]: the entry is empty or whitespace only. *)
Definition isBlank (s : jsstring) : bool := negb (truthy (trim s)).

(** [s.split(',')]: always at least one piece. *)
Fixpoint split_comma (s : jsstring) : list jsstring :=
  match s with
  | [] => [[]]
  | c :: s' =>
      if c =? 44 then [] :: split_comma s'
      else match split_comma s' with
           | piece :: pieces => (c :: piece) :: pieces
           | [] => [[c]]
           end
  end.

(** [s.split('\n')] *)
Fixpoint split_newline (s : jsstring) : list jsstring :=
  match s with
  | [] => [[]]
  | c :: s' =>
      if c =? 10 then [] :: split_newline s'
      else match split_newline s' with
           | piece :: pieces => (c :: piece) :: pieces
           | [] => [[c]]
           end
  end.

(** [s.slice(0, n)], [s.substring(0, n)] and [s.slice(n)] for [n >= 0]. *)
Definition slice_to (n : nat) (s : jsstring) : jsstring := take n s.
Definition slice_from (n : nat) (s : jsstring) : jsstring := drop n s.

(** The lazy group [(.*?)] followed by [\]]: the shortest run of characters
    other than line terminators that is followed by a closing bracket. *)
Fixpoint lazy_until_close (s : jsstring) : option jsstring :=
  match s with
  | [] => None
  | c :: s' =>
      if c =? 93 then Some []
      else if isLineTerminator c then None
      else option_map (cons c) (lazy_until_close s')
  end.

(** [prompt.match(/^\[(.*?)\]/)], returning capture group 1. *)
Definition tagMatch (prompt : jsstring) : option jsstring :=
  match prompt with
  | c :: s' => if c =? 91 then lazy_until_close s' else None
  | [] => None
  end.

(** Decimal digits of a number, most significant first. *)
Fixpoint uint_digits (u : Decimal.uint) : jsstring :=
  match u with
  | Decimal.Nil => []
  | Decimal.D0 u' => 48 :: uint_digits u'
  | Decimal.D1 u' => 49 :: uint_digits u'
  | Decimal.D2 u' => 50 :: uint_digits u'
  | Decimal.D3 u' => 51 :: uint_digits u'
  | Decimal.D4 u' => 52 :: uint_digits u'
  | Decimal.D5 u' => 53 :: uint_digits u'
  | Decimal.D6 u' => 54 :: uint_digits u'
  | Decimal.D7 u' => 55 :: uint_digits u'
  | Decimal.D8 u' => 56 :: uint_digits u'
  | Decimal.D9 u' => 57 :: uint_digits u'
  end.

(** [n.toString()] for a non-negative integer below 10^21. *)
Definition N_toString (n : N) : jsstring := uint_digits (N.to_uint n).

(** [toLowerCase] restricted to Basic Latin: on a string of ASCII
    characters it is what [String.prototype.toLowerCase] computes. *)
Definition ascii_toLowerCase (s : jsstring) : jsstring :=
  List.map (fun c => if (65 <=? c) && (c <=? 90) then c + 32 else c) s.

(** Thrown [Error]s, by message. *)
Inductive Result (A : Type) : Type :=
| Ok (a : A)
| Throw (message : jsstring).
Arguments Ok {A} a.
Arguments Throw {A} message.

(** [error.message || fallback] for a caught value whose message may be
    missing. *)
Definition message_or (message : option jsstring) (fallback : jsstring) : jsstring :=
  match message with
  | Some m => if truthy m then m else fallback
  | None => fallback
  end.

(** [a === b] on strings. *)
Fixpoint str_eqb (a b : jsstring) : bool :=
  match a, b with
  | [], [] => true
  | x :: a', y :: b' => (x =? y) && str_eqb a' b'
  | _, _ => false
  end.

(** [s.replace(/^prefix/, '')] for a literal prefix: the rest of [s] when
    it starts with [prefix]. *)
Fixpoint strip_prefix (prefix s : jsstring) : option jsstring :=
  match prefix, s with
  | [], _ => Some s
  | x :: prefix', y :: s' => if x =? y then strip_prefix prefix' s' else None
  | _ :: _, [] => None
  end.

(** [base64.replace(/^data:image\/(png|jpeg|jpg);base64,/, '')] *)
Definition cleanBase64 (base64 : jsstring) : jsstring :=
  match strip_prefix (js "data:image/png;base64,") base64 with
  | Some rest => rest
  | None =>
      match strip_prefix (js "data:image/jpeg;base64,") base64 with
      | Some rest => rest
      | None =>
          match strip_prefix (js "data:image/jpg;base64,") base64 with
          | Some rest => rest
          | None => base64
          end
      end
  end.

(** ** Data model ([src/types.ts]) *)

Module Character.
Record t : Type := mk {
    id : jsstring;
    name : jsstring;
    description : jsstring;
    baseImage : option jsstring
  }.
End Character.

Module GeneratedScene.
Record t : Type := mk {
    id : jsstring;
    prompt : jsstring;
    imageData : jsstring;
    timestamp : N;
    videoUrl : option jsstring
  }.
End GeneratedScene.

Inductive GeneratorState : Type :=
| IDLE
| GENERATING_CHARACTER
| GENERATING_SCENE
| GENERATING_ANIMATION
| ERROR.

Module GenerationProgress.
Record t : Type := mk {
    current : nat;
    total : nat;
    currentPrompt : option jsstring
  }.
End GenerationProgress.

(** The [{ name, base64 }] pairs handed to scene generation. *)
Module Reference.
Record t : Type := mk {
    name : jsstring;
    base64 : jsstring
  }.
End Reference.

(** The [useState] cells of [App]. *)
Module State.
Record t : Type := mk {
    character : Character.t;
    scenes : list GeneratedScene.t;
    status : GeneratorState;
    error : option jsstring;
    progress : option GenerationProgress.t;
    savedCharacters : list Character.t;
    animatingSceneIds : gset jsstring
  }.
End State.

(** ** The remote capability, as seen by [src/services/gemini.ts] *)

(** A part of the [contents] sent to [ai.models.generateContent]. *)
Inductive RequestPart : Type :=
| InlineData (mimeType data : jsstring)
| Text (text : jsstring).

Record ContentRequest : Type := {
  req_model : jsstring;
  req_parts : list RequestPart;
  req_aspectRatio : option jsstring;
  req_systemInstruction : option jsstring;
  req_responseMimeType : option jsstring
}.

(** A part of a response candidate: [part.inlineData?.data]. *)
Record ResponsePart : Type := {
  inlineData_data : option jsstring
}.

(** What [await ai.models.generateContent(...)] does: it throws a value
    whose [message] may be missing, or resolves to a response of which the
    code reads [candidates[0]?.content?.parts] and [text]. *)
Inductive ContentResponse : Type :=
| Rejects (message : option jsstring)
| Resolves (candidate0_parts : option (list ResponsePart)) (text : option jsstring).

(** The environment of a session: the answers of the built-ins and of the
    remote service, indexed by how many times each was asked before.
    [Date_now k] is the [k]-th reading of the clock, an integer number of
    milliseconds (at most 8.64e15, so that it prints in plain decimal);
    [Math_random_toString k] is how the [k]-th random number prints. *)
Record Env : Type := {
  toLowerCase : jsstring -> jsstring;
  Date_now : nat -> N;
  Math_random_toString : nat -> jsstring;
  generateContent : nat -> ContentRequest -> ContentResponse
}.

(** How often each was asked so far. *)
Record World : Type := {
  clock_reads : nat;
  random_draws : nat;
  remote_calls : nat
}.

(** ** Events: state setter calls and remote calls, in program order *)

Inductive Event : Type :=
| SetStatus (s : GeneratorState)
| SetError (e : option jsstring)
| SetProgress (p : option GenerationProgress.t)
| AppendScene (scene : GeneratedScene.t)
| SetVideoUrl (sceneId videoUrl : jsstring)
| AddAnimating (sceneId : jsstring)
| DeleteAnimating (sceneId : jsstring)
| OpenSelectKey
| CalledGenerateSceneImage (references : list Reference.t) (scenePrompt : jsstring)
                           (result : Result jsstring)
| CalledAnimateImage (imageData prompt : jsstring) (result : Result jsstring).

(** ** A state-and-trace monad for the handlers *)

Definition M (A : Type) : Type :=
  State.t -> World -> A * State.t * World * list Event.

Definition ret {A} (a : A) : M A := fun s w => (a, s, w, []).

Definition bind {A B} (m : M A) (k : A -> M B) : M B :=
  fun s w =>
    let '(a, s1, w1, t1) := m s w in
    let '(b, s2, w2, t2) := k a s1 w1 in
    (b, s2, w2, t1 ++ t2).

Notation "x <~ m ;; k" := (bind m (fun x => k))
  (at level 100, m at next level, right associativity).
Notation "m ;;; k" := (bind m (fun _ => k))
  (at level 100, right associativity).

Definition final_state {A} (r : A * State.t * World * list Event) : State.t :=
  let '(_, s, _, _) := r in s.
Definition final_world {A} (r : A * State.t * World * list Event) : World :=
  let '(_, _, w, _) := r in w.
Definition trace_of {A} (r : A * State.t * World * list Event) : list Event :=
  let '(_, _, _, t) := r in t.
Definition value_of {A} (r : A * State.t * World * list Event) : A :=
  let '(a, _, _, _) := r in a.

(** The state setters of [App]; each call is one event. *)
Definition getState : M State.t := fun s w => (s, s, w, []).

Definition emit (e : Event) : M unit := fun s w => (tt, s, w, [e]).

Definition setStatus (v : GeneratorState) : M unit :=
  fun s w =>
    (tt,
     State.mk (State.character s) (State.scenes s) v (State.error s)
              (State.progress s) (State.savedCharacters s) (State.animatingSceneIds s),
     w, [SetStatus v]).

Definition setError (v : option jsstring) : M unit :=
  fun s w =>
    (tt,
     State.mk (State.character s) (State.scenes s) (State.status s) v
              (State.progress s) (State.savedCharacters s) (State.animatingSceneIds s),
     w, [SetError v]).

Definition setProgress (v : option GenerationProgress.t) : M unit :=
  fun s w =>
    (tt,
     State.mk (State.character s) (State.scenes s) (State.status s) (State.error s)
              v (State.savedCharacters s) (State.animatingSceneIds s),
     w, [SetProgress v]).

(** [setScenes(updater)] with the event that describes the updater. *)
Definition setScenes (updater : list GeneratedScene.t -> list GeneratedScene.t)
    (e : Event) : M unit :=
  fun s w =>
    (tt,
     State.mk (State.character s) (updater (State.scenes s)) (State.status s)
              (State.error s) (State.progress s) (State.savedCharacters s)
              (State.animatingSceneIds s),
     w, [e]).

(** [setAnimatingSceneIds(updater)] likewise. *)
Definition setAnimatingSceneIds (updater : gset jsstring -> gset jsstring)
    (e : Event) : M unit :=
  fun s w =>
    (tt,
     State.mk (State.character s) (State.scenes s) (State.status s)
              (State.error s) (State.progress s) (State.savedCharacters s)
              (updater (State.animatingSceneIds s)),
     w, [e]).

Definition nl : jsstring := [10].

(** ** [generateSceneImage] ([src/services/gemini.ts]) *)

(** The request [generateSceneImage] builds: one inline image per reference,
    then the text part. *)
Definition sceneRequest (references : list Reference.t) (scenePrompt : jsstring)
    : ContentRequest :=
  let promptContext0 := js "Generate a scene based on the following description. " in
  let '(parts, promptContext) :=
    if (0 <? length references)%nat then
      let '(parts, ctx) :=
        fold_left
          (fun '(parts, ctx) ref =>
             (parts ++ [InlineData (js "image/png") (cleanBase64 (Reference.base64 ref))],
              ctx ++ js "- Reference for character " ++ dquote ++ Reference.name ref
                  ++ dquote ++ js " is provided above." ++ nl))
          references
          ([], promptContext0
                 ++ js "Use the provided reference images for character consistency:" ++ nl) in
      (parts,
       ctx ++ nl ++ js "SCENE DESCRIPTION: " ++ scenePrompt ++ nl
           ++ js "IMPORTANT: Maintain the facial features and appearance of the characters as depicted in their reference images.")
    else
      ([], promptContext0 ++ nl ++ js "SCENE DESCRIPTION: " ++ scenePrompt) in
  {| req_model := js "gemini-2.5-flash-image";
     req_parts := parts ++ [Text promptContext];
     req_aspectRatio := Some (js "16:9");
     req_systemInstruction := None;
     req_responseMimeType := None |}.

(** The loop over [candidates[0].content.parts]: the first inline payload
    that is present and not empty, or [''] when there is none. *)
Fixpoint first_inline_data (parts : list ResponsePart) : jsstring :=
  match parts with
  | [] => []
  | part :: rest =>
      match inlineData_data part with
      | Some data => if truthy data then data else first_inline_data rest
      | None => first_inline_data rest
      end
  end.

(** What [generateSceneImage] makes of the remote answer. *)
Definition sceneImageOfResponse (response : ContentResponse) : Result jsstring :=
  match response with
  | Rejects message => Throw (message_or message (js "Failed to generate scene"))
  | Resolves candidate0_parts _ =>
      let base64Image :=
        match candidate0_parts with
        | Some parts => first_inline_data parts
        | None => []
        end in
      if truthy base64Image then Ok base64Image
      else Throw (message_or (Some (js "No image data found in scene response"))
                             (js "Failed to generate scene"))
  end.

Section Session.

Variable env : Env.

(** [Date.now()] *)
Definition now : M N :=
  fun s w =>
    (Date_now env (clock_reads w), s,
     {| clock_reads := S (clock_reads w);
        random_draws := random_draws w;
        remote_calls := remote_calls w |}, []).

(** [Math.random().toString()] *)
Definition randomString : M jsstring :=
  fun s w =>
    (Math_random_toString env (random_draws w), s,
     {| clock_reads := clock_reads w;
        random_draws := S (random_draws w);
        remote_calls := remote_calls w |}, []).

(** [await ai.models.generateContent(request)] *)
Definition callGenerateContent (request : ContentRequest) : M ContentResponse :=
  fun s w =>
    (generateContent env (remote_calls w) request, s,
     {| clock_reads := clock_reads w;
        random_draws := random_draws w;
        remote_calls := S (remote_calls w) |}, []).

Definition generateSceneImage (references : list Reference.t) (scenePrompt : jsstring)
    : M (Result jsstring) :=
  response <~ callGenerateContent (sceneRequest references scenePrompt) ;;
  let result := sceneImageOfResponse response in
  emit (CalledGenerateSceneImage references scenePrompt result) ;;;
  ret result.

(** ** The character reference resolver ([handleGenerateScenes], lines 122-166) *)

(** [character.baseImage && character.name] *)
Definition activeUsable (character : Character.t) : bool :=
  truthy_opt (Character.baseImage character) && truthy (Character.name character).

(** [references.push({ name: c.name, base64: c.baseImage })] under the guard
    [c.baseImage] (for a found character) . *)
Definition pushIfImage (c : Character.t) (references : list Reference.t)
    : list Reference.t :=
  match Character.baseImage c with
  | Some image =>
      if truthy image
      then references ++ [Reference.mk (Character.name c) image]
      else references
  | None => references
  end.

(** The same push under the guard [character.baseImage && character.name]. *)
Definition pushIfUsable (character : Character.t) (references : list Reference.t)
    : list Reference.t :=
  if activeUsable character then pushIfImage character references else references.

(** [allAvailable.find(c => c.name.toLowerCase() === name.toLowerCase())] *)
Definition findByName (allAvailable : list Character.t) (name : jsstring)
    : option Character.t :=
  List.find
    (fun c => str_eqb (toLowerCase env (Character.name c)) (toLowerCase env name))
    allAvailable.

(** [tagMatch[1].split(',').map(n => n.trim())] *)
Definition tagNames (inner : jsstring) : list jsstring :=
  List.map trim (split_comma inner).

(** [[...savedCharacters]] followed by the conditional push of the active
    character. *)
Definition allAvailable (character : Character.t) (savedCharacters : list Character.t)
    : list Character.t :=
  if activeUsable character then savedCharacters ++ [character] else savedCharacters.

(** The body of [names.forEach]. *)
Definition pushFound (pool : list Character.t) (references : list Reference.t)
    (name : jsstring) : list Reference.t :=
  match findByName pool name with
  | Some found => pushIfImage found references
  | None => references
  end.

(** The references after the [if (tagMatch) ... else ...] statement. *)
Definition taggedReferences (character : Character.t)
    (savedCharacters : list Character.t) (prompt : jsstring) : list Reference.t :=
  match tagMatch prompt with
  | Some inner =>
      fold_left (pushFound (allAvailable character savedCharacters)) (tagNames inner) []
  | None => pushIfUsable character []
  end.

(** ... and after the last-resort fallback. *)
Definition resolvedReferences (character : Character.t)
    (savedCharacters : list Character.t) (prompt : jsstring) : list Reference.t :=
  let references := taggedReferences character savedCharacters prompt in
  if (length references =? 0)%nat then pushIfUsable character references
  else references.

Definition noReferenceMessage : jsstring :=
  js "No character reference found for this scene.".

(** The resolver: the references, or the thrown [Error]. *)
Definition resolveReferences (character : Character.t)
    (savedCharacters : list Character.t) (prompt : jsstring)
    : Result (list Reference.t) :=
  let references := resolvedReferences character savedCharacters prompt in
  if (length references =? 0)%nat then Throw noReferenceMessage
  else Ok references.

(** ** The scene batch orchestrator ([handleGenerateScenes]) *)

(** [Date.now().toString() + Math.random().toString().slice(2)] *)
Definition mintId (clock : N) (random : jsstring) : jsstring :=
  N_toString clock ++ slice_from 2 random.

(** The body of the [try] block. *)
Definition tryGenerate (character : Character.t) (savedCharacters : list Character.t)
    (prompt : jsstring) : M (Result unit) :=
  match resolveReferences character savedCharacters prompt with
  | Throw message => ret (Throw message)
  | Ok references =>
      generated <~ generateSceneImage references prompt ;;
      match generated with
      | Throw message => ret (Throw message)
      | Ok sceneImageBase64 =>
          clock <~ now ;;
          random <~ randomString ;;
          timestamp <~ now ;;
          let newScene :=
            GeneratedScene.mk (mintId clock random) prompt sceneImageBase64
                              timestamp None in
          setScenes (fun prev => prev ++ [newScene]) (AppendScene newScene) ;;;
          ret (Ok tt)
      end
  end.

(** The message of [setError] in the [catch] block. *)
Definition sceneErrorMessage (prompt message : jsstring) : jsstring :=
  js "Failed to generate " ++ dquote ++ slice_to 20 prompt ++ js "..." ++ dquote
     ++ js ": " ++ message.

(** One iteration of the loop for a prompt that is not blank. *)
Definition processPrompt (character : Character.t) (savedCharacters : list Character.t)
    (total : nat) (completedCount : nat) (prompt : jsstring) : M unit :=
  setProgress (Some (GenerationProgress.mk (completedCount + 1) total (Some prompt))) ;;;
  outcome <~ tryGenerate character savedCharacters prompt ;;
  match outcome with
  | Ok _ => ret tt
  | Throw message => setError (Some (sceneErrorMessage prompt message))
  end.

(** [for (const prompt of prompts)], with [completedCount]. *)
Fixpoint forPrompts (character : Character.t) (savedCharacters : list Character.t)
    (total : nat) (prompts : list jsstring) (completedCount : nat) : M unit :=
  match prompts with
  | [] => ret tt
  | prompt :: rest =>
      if isBlank prompt
      then forPrompts character savedCharacters total rest completedCount
      else
        processPrompt character savedCharacters total completedCount prompt ;;;
        forPrompts character savedCharacters total rest (completedCount + 1)
  end.

(** [handleGenerateScenes]: [character] and [savedCharacters] are the values
    the handler closed over when it was called. *)
Definition handleGenerateScenes (prompts : list jsstring) : M unit :=
  if (length prompts =? 0)%nat then ret tt
  else
    snapshot <~ getState ;;
    setStatus GENERATING_SCENE ;;;
    setError None ;;;
    setProgress (Some (GenerationProgress.mk 0 (length prompts) None)) ;;;
    forPrompts (State.character snapshot) (State.savedCharacters snapshot)
               (length prompts) prompts 0 ;;;
    setStatus IDLE ;;;
    setProgress None.

End Session.

(** ** [animateImage] ([src/services/gemini.ts]) *)

(** The outcome of an [await]: the value, or a thrown value whose [message]
    may be missing. *)
Inductive Awaited (A : Type) : Type :=
| Fulfilled (a : A)
| Rejected (message : option jsstring).
Arguments Fulfilled {A} a.
Arguments Rejected {A} message.

(** What the code reads of a video operation: [done], [error] and
    [response?.generatedVideos?.[0]?.video?.uri].  [operation_error] is
    [None] when [operation.error] is absent, and [Some message] when it is an
    error object, [message] being the [message] property of that object
    ([None] when the object has none). *)
Record Operation : Type := {
  done : bool;
  operation_error : option (option jsstring);
  video_uri : option jsstring
}.

Record VideoRequest : Type := {
  video_model : jsstring;
  video_prompt : jsstring;
  video_imageBytes : jsstring;
  video_mimeType : jsstring
}.

(** What the code reads of a [fetch] response: [ok], and what
    [await response.blob()] comes to: the object URL made of the blob, or
    the rejection of the read. *)
Record FetchResponse : Type := {
  ok : bool;
  objectURL : Awaited jsstring
}.

(** The remote side of one animation job: the answer to [generateVideos],
    the successive answers to [getVideosOperation] (one per poll), the
    download, and the API key as it prints in a template string. *)
Record VideoRemote : Type := {
  generateVideos : VideoRequest -> Awaited Operation;
  getVideosOperation : list (Awaited Operation);
  fetch : jsstring -> Awaited FetchResponse;
  API_KEY : jsstring
}.

(** [while (!operation.done) { await sleep(5000); operation = await
    getVideosOperation(...) }]: [None] while the remote has not yet said
    [done], that is, the loop is still polling. *)
Fixpoint pollUntilDone (operation : Operation) (answers : list (Awaited Operation))
    {struct answers} : option (Awaited Operation) :=
  if done operation then Some (Fulfilled operation)
  else
    match answers with
    | [] => None
    | Rejected message :: _ => Some (Rejected message)
    | Fulfilled operation' :: rest => pollUntilDone operation' rest
    end.

(** The [catch] wrapper of [animateImage]. *)
Definition animateRethrow (message : option jsstring) : Result jsstring :=
  Throw (message_or message (js "Failed to animate scene")).

(** A property read inside a template string: a missing one prints as
    [undefined]. *)
Definition templateString (value : option jsstring) : jsstring :=
  match value with
  | Some printed => printed
  | None => js "undefined"
  end.

(** [`Video generation failed: ${operation.error.message}`] *)
Definition animationFailedMessage (message : option jsstring) : jsstring :=
  js "Video generation failed: " ++ templateString message.
Definition noVideoUriMessage : jsstring := js "No video URI received from API.".
Definition videoDownloadFailedMessage : jsstring :=
  js "Failed to download generated video.".

(** The code after the polling loop. *)
Definition animateCompleted (remote : VideoRemote) (operation : Operation)
    : Result jsstring :=
  match operation_error operation with
  | Some message => animateRethrow (Some (animationFailedMessage message))
  | None =>
      match video_uri operation with
      | Some downloadLink =>
          if truthy downloadLink then
            match fetch remote (downloadLink ++ js "&key=" ++ API_KEY remote) with
            | Rejected message => animateRethrow message
            | Fulfilled response =>
                if ok response then
                  match objectURL response with
                  | Fulfilled videoUrl => Ok videoUrl
                  | Rejected message => animateRethrow message
                  end
                else animateRethrow (Some videoDownloadFailedMessage)
            end
          else animateRethrow (Some noVideoUriMessage)
      | None => animateRethrow (Some noVideoUriMessage)
      end
  end.

(** [animateImage]: [None] while the job is pending. *)
Definition animateImage (remote : VideoRemote) (base64Image prompt : jsstring)
    : option (Result jsstring) :=
  let request :=
    {| video_model := js "veo-3.1-fast-generate-preview";
       video_prompt := prompt;
       video_imageBytes := cleanBase64 base64Image;
       video_mimeType := js "image/png" |} in
  match generateVideos remote request with
  | Rejected message => Some (animateRethrow message)
  | Fulfilled operation =>
      match pollUntilDone operation (getVideosOperation remote) with
      | None => None
      | Some (Rejected message) => Some (animateRethrow message)
      | Some (Fulfilled finished) => Some (animateCompleted remote finished)
      end
  end.

(** ** The animation job tracker ([handleAnimateScene]) *)

(** [window.aistudio]: the answer of [hasSelectedApiKey] when the method
    exists, and whether [openSelectKey] exists. *)
Record Aistudio : Type := {
  hasSelectedApiKey : option bool;
  openSelectKey : bool
}.

Definition capabilityCheck (aistudio : option Aistudio) : M unit :=
  match aistudio with
  | Some studio =>
      match hasSelectedApiKey studio with
      | Some hasKey =>
          if negb hasKey
          then (if openSelectKey studio then emit OpenSelectKey else ret tt)
          else ret tt
      | None => ret tt
      end
  | None => ret tt
  end.

(** [prev.map(s => s.id === sceneId ? { ...s, videoUrl } : s)] *)
Definition withVideoUrl (sceneId videoUrl : jsstring) (prev : list GeneratedScene.t)
    : list GeneratedScene.t :=
  List.map
    (fun s =>
       if str_eqb (GeneratedScene.id s) sceneId
       then GeneratedScene.mk (GeneratedScene.id s) (GeneratedScene.prompt s)
                              (GeneratedScene.imageData s) (GeneratedScene.timestamp s)
                              (Some videoUrl)
       else s)
    prev.

(** [handleAnimateScene] up to the [await animateImage(...)]: the scene the
    job was started for, if it was started. *)
Definition animateStart (aistudio : option Aistudio) (sceneId : jsstring)
    : M (option GeneratedScene.t) :=
  snapshot <~ getState ;;
  match List.find (fun s => str_eqb (GeneratedScene.id s) sceneId)
                  (State.scenes snapshot) with
  | None => ret None
  | Some scene =>
      capabilityCheck aistudio ;;;
      setAnimatingSceneIds (fun prev => prev ∪ {[sceneId]}) (AddAnimating sceneId) ;;;
      ret (Some scene)
  end.

(** [handleAnimateScene] from the moment [animateImage] settles: the rest of
    the [try], the [catch] and the [finally]. *)
Definition animateSettle (sceneId : jsstring) (scene : GeneratedScene.t)
    (result : Result jsstring) : M unit :=
  emit (CalledAnimateImage (GeneratedScene.imageData scene) (GeneratedScene.prompt scene)
                           result) ;;;
  match result with
  | Ok videoUrl => setScenes (withVideoUrl sceneId videoUrl) (SetVideoUrl sceneId videoUrl)
  | Throw message => setError (Some (js "Animation failed: " ++ message))
  end ;;;
  setAnimatingSceneIds (fun prev => prev ∖ {[sceneId]}) (DeleteAnimating sceneId).

(** The two halves of [animateStart], on either side of the [await]s of the
    capability check: the scene lookup that runs in the click itself, and
    what runs once the check has been answered. *)
Definition animateLookup (sceneId : jsstring) : M (option GeneratedScene.t) :=
  snapshot <~ getState ;;
  ret (List.find (fun s => str_eqb (GeneratedScene.id s) sceneId) (State.scenes snapshot)).

Definition animateEnter (aistudio : option Aistudio) (sceneId : jsstring) : M unit :=
  capabilityCheck aistudio ;;;
  setAnimatingSceneIds (fun prev => prev ∪ {[sceneId]}) (AddAnimating sceneId).

(** Whether the capability check suspends the handler: it awaits
    [hasSelectedApiKey()] when [window.aistudio] has that method. *)
Definition capabilityCheckAwaits (aistudio : option Aistudio) : bool :=
  match aistudio with
  | Some studio =>
      match hasSelectedApiKey studio with
      | Some _ => true
      | None => false
      end
  | None => false
  end.

(** The [Animate] button of a scene card ([src/types.ts], lines 261-264):
    rendered for a scene without video, and disabled while the id of the
    scene is in the animating set. *)
Definition animateButtonEnabled (s : State.t) (scene : GeneratedScene.t) : bool :=
  match GeneratedScene.videoUrl scene with
  | Some videoUrl => negb (truthy videoUrl)
  | None => true
  end
  && negb (bool_decide (GeneratedScene.id scene ∈ State.animatingSceneIds s)).

Inductive JobStatus : Type :=
| NotStarted
| Pending
| Settled.

(** [handleAnimateScene], run without interleaving. *)
Definition handleAnimateScene (aistudio : option Aistudio) (remote : VideoRemote)
    (sceneId : jsstring) : M JobStatus :=
  started <~ animateStart aistudio sceneId ;;
  match started with
  | None => ret NotStarted
  | Some scene =>
      match animateImage remote (GeneratedScene.imageData scene)
                         (GeneratedScene.prompt scene) with
      | None => ret Pending
      | Some result => animateSettle sceneId scene result ;;; ret Settled
      end
  end.

(** What other handlers may do to the state while a job is pending: start
    jobs (of any scene), settle jobs of other scenes, and run scene
    batches. *)
Inductive OtherStep (env : Env) (sceneId : jsstring) : State.t -> World -> State.t -> World -> Prop :=
| OtherStart aistudio other s w :
    OtherStep env sceneId s w
      (final_state (animateStart aistudio other s w))
      (final_world (animateStart aistudio other s w))
| OtherSettle other scene result s w :
    other ≠ sceneId ->
    OtherStep env sceneId s w
      (final_state (animateSettle other scene result s w))
      (final_world (animateSettle other scene result s w))
| OtherBatch prompts s w :
    OtherStep env sceneId s w
      (final_state (handleGenerateScenes env prompts s w))
      (final_world (handleGenerateScenes env prompts s w)).

Inductive OtherSteps (env : Env) (sceneId : jsstring) : State.t -> World -> State.t -> World -> Prop :=
| OtherSteps_refl s w : OtherSteps env sceneId s w s w
| OtherSteps_step s w s1 w1 s2 w2 :
    OtherStep env sceneId s w s1 w1 ->
    OtherSteps env sceneId s1 w1 s2 w2 ->
    OtherSteps env sceneId s w s2 w2.

(** ** [JSON.parse] *)

(** JSON values; a number is kept as the text that denotes it. *)
Inductive JsonValue : Type :=
| JNull
| JBool (b : bool)
| JNumber (lexeme : jsstring)
| JString (s : jsstring)
| JArray (items : list JsonValue)
| JObject (members : list (jsstring * JsonValue)).

Definition isJsonSpace (c : N) : bool :=
  (c =? 32) || (c =? 9) || (c =? 10) || (c =? 13).

Fixpoint skipJsonSpace (s : jsstring) : jsstring :=
  match s with
  | [] => []
  | c :: s' => if isJsonSpace c then skipJsonSpace s' else s
  end.

Definition isDigit (c : N) : bool := (48 <=? c) && (c <=? 57).

Definition hexValue (c : N) : option N :=
  if isDigit c then Some (c - 48)
  else if (97 <=? c) && (c <=? 102) then Some (c - 87)
  else if (65 <=? c) && (c <=? 70) then Some (c - 55)
  else None.

(** The character a two-character escape stands for. *)
Definition simpleEscape (e : N) : option N :=
  if e =? 34 then Some 34
  else if e =? 92 then Some 92
  else if e =? 47 then Some 47
  else if e =? 98 then Some 8
  else if e =? 102 then Some 12
  else if e =? 110 then Some 10
  else if e =? 114 then Some 13
  else if e =? 116 then Some 9
  else None.

(** A string after its opening quote: the characters and the rest. *)
Fixpoint jsonStringBody (s : jsstring) : option (jsstring * jsstring) :=
  match s with
  | [] => None
  | c :: s' =>
      if c =? 34 then Some ([], s')
      else if c =? 92 then
        match s' with
        | [] => None
        | e :: s'' =>
            if e =? 117 then
              match s'' with
              | h1 :: h2 :: h3 :: h4 :: rest =>
                  match hexValue h1, hexValue h2, hexValue h3, hexValue h4 with
                  | Some a, Some b, Some c', Some d =>
                      match jsonStringBody rest with
                      | Some (str, r) => Some ((((a * 16 + b) * 16 + c') * 16 + d) :: str, r)
                      | None => None
                      end
                  | _, _, _, _ => None
                  end
              | _ => None
              end
            else
              match simpleEscape e with
              | Some ch =>
                  match jsonStringBody s'' with
                  | Some (str, r) => Some (ch :: str, r)
                  | None => None
                  end
              | None => None
              end
        end
      else if c <? 32 then None
      else
        match jsonStringBody s' with
        | Some (str, r) => Some (c :: str, r)
        | None => None
        end
  end.

Fixpoint spanDigits (s : jsstring) : jsstring * jsstring :=
  match s with
  | [] => ([], [])
  | c :: s' =>
      if isDigit c then let '(ds, r) := spanDigits s' in (c :: ds, r)
      else ([], s)
  end.

Definition jsonFraction (s : jsstring) : option (jsstring * jsstring) :=
  match s with
  | c :: r =>
      if c =? 46 then
        match spanDigits r with
        | ([], _) => None
        | (ds, r') => Some (46 :: ds, r')
        end
      else Some ([], s)
  | [] => Some ([], s)
  end.

Definition jsonExponent (s : jsstring) : option (jsstring * jsstring) :=
  match s with
  | c :: r =>
      if (c =? 101) || (c =? 69) then
        let '(sign, r1) :=
          match r with
          | x :: r' => if (x =? 43) || (x =? 45) then ([x], r') else ([], r)
          | [] => ([], r)
          end in
        match spanDigits r1 with
        | ([], _) => None
        | (ds, r') => Some (c :: sign ++ ds, r')
        end
      else Some ([], s)
  | [] => Some ([], s)
  end.

Definition jsonNumber (s : jsstring) : option (jsstring * jsstring) :=
  let '(sign, s1) :=
    match s with
    | c :: r => if c =? 45 then ([45], r) else ([], s)
    | [] => ([], s)
    end in
  match s1 with
  | c :: r =>
      if isDigit c then
        let '(int, s2) := if c =? 48 then ([48], r) else spanDigits s1 in
        match jsonFraction s2 with
        | Some (frac, s3) =>
            match jsonExponent s3 with
            | Some (exp, s4) => Some (sign ++ int ++ frac ++ exp, s4)
            | None => None
            end
        | None => None
        end
      else None
  | [] => None
  end.

(** A value, the elements of an array after its first bracket, and the
    members of an object after its first brace; [fuel] bounds the nesting
    and the number of items. *)
Fixpoint jsonValue (fuel : nat) (s : jsstring) : option (JsonValue * jsstring) :=
  match fuel with
  | O => None
  | S fuel' =>
      match skipJsonSpace s with
      | [] => None
      | c :: r =>
          if c =? 34 then
            match jsonStringBody r with
            | Some (str, r') => Some (JString str, r')
            | None => None
            end
          else if c =? 91 then
            match skipJsonSpace r with
            | 93 :: r' => Some (JArray [], r')
            | _ =>
                match jsonElements fuel' r with
                | Some (items, r') => Some (JArray items, r')
                | None => None
                end
            end
          else if c =? 123 then
            match skipJsonSpace r with
            | 125 :: r' => Some (JObject [], r')
            | _ =>
                match jsonMembers fuel' r with
                | Some (members, r') => Some (JObject members, r')
                | None => None
                end
            end
          else
            match strip_prefix (js "null") (c :: r) with
            | Some r' => Some (JNull, r')
            | None =>
                match strip_prefix (js "true") (c :: r) with
                | Some r' => Some (JBool true, r')
                | None =>
                    match strip_prefix (js "false") (c :: r) with
                    | Some r' => Some (JBool false, r')
                    | None =>
                        match jsonNumber (c :: r) with
                        | Some (lexeme, r') => Some (JNumber lexeme, r')
                        | None => None
                        end
                    end
                end
            end
      end
  end
with jsonElements (fuel : nat) (s : jsstring) : option (list JsonValue * jsstring) :=
  match fuel with
  | O => None
  | S fuel' =>
      match jsonValue fuel' s with
      | Some (v, r) =>
          match skipJsonSpace r with
          | c :: r' =>
              if c =? 93 then Some ([v], r')
              else if c =? 44 then
                match jsonElements fuel' r' with
                | Some (vs, r'') => Some (v :: vs, r'')
                | None => None
                end
              else None
          | [] => None
          end
      | None => None
      end
  end
with jsonMembers (fuel : nat) (s : jsstring)
    : option (list (jsstring * JsonValue) * jsstring) :=
  match fuel with
  | O => None
  | S fuel' =>
      match skipJsonSpace s with
      | 34 :: r =>
          match jsonStringBody r with
          | Some (key, r1) =>
              match skipJsonSpace r1 with
              | 58 :: r2 =>
                  match jsonValue fuel' r2 with
                  | Some (v, r3) =>
                      match skipJsonSpace r3 with
                      | c :: r4 =>
                          if c =? 125 then Some ([(key, v)], r4)
                          else if c =? 44 then
                            match jsonMembers fuel' r4 with
                            | Some (ms, r5) => Some ((key, v) :: ms, r5)
                            | None => None
                            end
                          else None
                      | [] => None
                      end
                  | None => None
                  end
              | _ => None
              end
          | None => None
          end
      | _ => None
      end
  end.

(** [JSON.parse(text)]: the value, or [None] where it throws a
    [SyntaxError]. *)
Definition JSON_parse (text : jsstring) : option JsonValue :=
  match jsonValue (2 * length text + 2) text with
  | Some (v, rest) =>
      match skipJsonSpace rest with
      | [] => Some v
      | _ :: _ => None
      end
  | None => None
  end.

(** ** [analyzeScript] ([src/services/gemini.ts]) *)

(** [names.join(sep)] *)
Fixpoint join (sep : jsstring) (names : list jsstring) : jsstring :=
  match names with
  | [] => []
  | [name] => name
  | name :: rest => name ++ sep ++ join sep rest
  end.

(** The text before the script in [userPrompt]. *)
Definition analyzePreamble (knownCharacters : list jsstring) : jsstring :=
  let charContext :=
    if (0 <? length knownCharacters)%nat
    then nl ++ js "KNOWN CHARACTERS: " ++ join (js ", ") knownCharacters ++ js "."
    else [] in
  js "Analyze the following story/script. Break it down into distinct visual scenes. For each scene, write a detailed, standalone image generation prompt." ++ nl
  ++ js "    " ++ charContext ++ nl
  ++ js "    " ++ nl
  ++ js "    Guidelines:" ++ nl
  ++ js "    1. Each prompt must be descriptive (lighting, angle, action, environment)." ++ nl
  ++ js "    2. If the text contains dialogue, convert the context of that dialogue into a visual action." ++ nl
  ++ js "    3. IMPORTANT: If any of the " ++ dquote ++ js "KNOWN CHARACTERS" ++ dquote
  ++ js " appear in the scene, strictly prefix the prompt with their names in brackets, e.g., "
  ++ dquote ++ js "[John] John enters the dark room" ++ dquote ++ js " or "
  ++ dquote ++ js "[John, Mary] John and Mary talking in the park" ++ dquote ++ js "." ++ nl
  ++ js "    4. If no known characters are present, do not use brackets." ++ nl
  ++ js "    5. Output strictly a JSON list of strings." ++ nl
  ++ js "    "
  ++ nl ++ nl ++ js "Script:" ++ nl.

(** The part of the script that goes into the request. *)
Definition scriptSent (scriptText : jsstring) : jsstring :=
  slice_to 100000 scriptText.

Definition analyzeUserPrompt (scriptText : jsstring) (knownCharacters : list jsstring)
    : jsstring :=
  analyzePreamble knownCharacters ++ scriptSent scriptText.

Definition analyzeRequest (scriptText : jsstring) (knownCharacters : list jsstring)
    : ContentRequest :=
  {| req_model := js "gemini-2.5-flash";
     req_parts := [Text (analyzeUserPrompt scriptText knownCharacters)];
     req_aspectRatio := None;
     req_systemInstruction :=
       Some (js "You are an expert storyboard artist and script visualizer.");
     req_responseMimeType := Some (js "application/json") |}.

(** What [analyzeScript] makes of the remote answer; [syntaxErrorMessage]
    is the message the engine gives the [SyntaxError] of [JSON.parse]. *)
Definition analyzeResult (syntaxErrorMessage : jsstring -> jsstring)
    (response : ContentResponse) : Result JsonValue :=
  let fallback := js "Failed to analyze script" in
  match response with
  | Rejects message => Throw (message_or message fallback)
  | Resolves _ text =>
      match text with
      | None => Ok (JArray [])
      | Some text =>
          if truthy text then
            match JSON_parse text with
            | Some value => Ok value
            | None => Throw (message_or (Some (syntaxErrorMessage text)) fallback)
            end
          else Ok (JArray [])
      end
  end.

(** [analyzeScript]; the unchecked cast [as string[]] keeps whatever value
    [JSON.parse] returned. *)
Definition analyzeScript (remote : ContentRequest -> ContentResponse)
    (syntaxErrorMessage : jsstring -> jsstring)
    (scriptText : jsstring) (knownCharacters : list jsstring) : Result JsonValue :=
  analyzeResult syntaxErrorMessage (remote (analyzeRequest scriptText knownCharacters)).

(** ** The callers of the orchestrator ([SceneGenerator.handleSubmit]) *)

Inductive InputMode : Type :=
| single
| batch
| story.

(** The prompt list [handleSubmit] passes to [onGenerateScenes] when no
    batch is running, if it calls it at all. *)
Definition submittedPrompts (mode : InputMode) (promptInput : jsstring)
    : option (list jsstring) :=
  match mode with
  | single => if truthy (trim promptInput) then Some [promptInput] else None
  | batch =>
      let prompts :=
        List.filter (fun p => (0 <? length p)%nat)
                    (List.map trim (split_newline promptInput)) in
      if (0 <? length prompts)%nat then Some prompts else None
  | story => None
  end.

(** The entries of the prompt box [handleSubmit] starts from: the box
    itself in single mode, its lines in batch mode. *)
Definition enteredPrompts (mode : InputMode) (promptInput : jsstring) : list jsstring :=
  match mode with
  | single => [promptInput]
  | batch => split_newline promptInput
  | story => []
  end.

(** ** Vocabulary of the statements *)

(** The characters the group [(.*?)] of the tag pattern may run over:
    anything but a closing bracket and a line terminator. *)
Definition insideTag (c : N) : Prop := c <> 93 /\ isLineTerminator c = false.

(** The progress values a trace publishes, the calls of
    [generateSceneImage] it makes (prompt and outcome), and the scenes it
    appends. *)
Definition published (tr : list Event) : list GenerationProgress.t :=
  omap (fun e => match e with SetProgress (Some p) => Some p | _ => None end) tr.

Definition attempts (tr : list Event) : list (jsstring * Result jsstring) :=
  omap (fun e =>
          match e with
          | CalledGenerateSceneImage _ scenePrompt result => Some (scenePrompt, result)
          | _ => None
          end) tr.

Definition appended (tr : list Event) : list GeneratedScene.t :=
  omap (fun e => match e with AppendScene scene => Some scene | _ => None end) tr.

(** The successful calls among [attempts]: prompt and returned image. *)
Definition successes (calls : list (jsstring * Result jsstring))
    : list (jsstring * jsstring) :=
  omap (fun call =>
          match snd call with
          | Ok image => Some (fst call, image)
          | Throw _ => None
          end) calls.

(** The outcome of the call of [generateSceneImage] made for [prompt] when
    the world is [w]. *)
Definition remoteOutcome (env : Env) (references : list Reference.t)
    (prompt : jsstring) (w : World) : Result jsstring :=
  sceneImageOfResponse
    (generateContent env (remote_calls w) (sceneRequest references prompt)).

(** The scene minted when that call returned [image] in world [w]. *)
Definition mintedScene (env : Env) (prompt image : jsstring) (w : World)
    : GeneratedScene.t :=
  GeneratedScene.mk
    (mintId (Date_now env (clock_reads w)) (Math_random_toString env (random_draws w)))
    prompt image (Date_now env (S (clock_reads w))) None.

(** The prompts a trace announces in its progress values. *)
Definition announced (tr : list Event) : list jsstring :=
  omap GenerationProgress.currentPrompt (published tr).

(** Prompt and image of a scene. *)
Definition sceneContent (scene : GeneratedScene.t) : jsstring * jsstring :=
  (GeneratedScene.prompt scene, GeneratedScene.imageData scene).

(** The state in which the loop of [handleGenerateScenes] starts, and the
    run of that loop. *)
Definition batchStartState (prompts : list jsstring) (s : State.t) : State.t :=
  State.mk (State.character s) (State.scenes s) GENERATING_SCENE None
           (Some (GenerationProgress.mk 0 (length prompts) None))
           (State.savedCharacters s) (State.animatingSceneIds s).

Definition batchLoop (env : Env) (prompts : list jsstring) (s : State.t) (w : World)
    : unit * State.t * World * list Event :=
  forPrompts env (State.character s) (State.savedCharacters s) (length prompts)
             prompts 0 (batchStartState prompts s) w.

(** The events before and after the loop. *)
Definition batchPrologue (prompts : list jsstring) : list Event :=
  [SetStatus GENERATING_SCENE; SetError None;
   SetProgress (Some (GenerationProgress.mk 0 (length prompts) None))].

Definition batchEpilogue : list Event := [SetStatus IDLE; SetProgress None].

(** An entry that is not blank. *)
Definition notBlank (prompt : jsstring) : bool := negb (isBlank prompt).

(** A prompt the resolver finds at least one reference for. *)
Definition resolvable (env : Env) (character : Character.t)
    (savedCharacters : list Character.t) (prompt : jsstring) : bool :=
  match resolveReferences env character savedCharacters prompt with
  | Ok _ => true
  | Throw _ => false
  end.

(** An event of the work on [prompt]: its remote call, the scene made from
    it, or the error recorded for it. *)
Inductive WorkOn (prompt : jsstring) : Event -> Prop :=
| WorkOn_call references result :
    WorkOn prompt (CalledGenerateSceneImage references prompt result)
| WorkOn_scene scene :
    GeneratedScene.prompt scene = prompt -> WorkOn prompt (AppendScene scene)
| WorkOn_error message :
    WorkOn prompt (SetError (Some (sceneErrorMessage prompt message))).

(** The shape of the trace of the loop over [prompts] started with
    [completedCount = k]: nothing for a blank entry; for any other entry
    the progress announcement, then the work on it. *)
Inductive BatchTrace (total : nat) : nat -> list jsstring -> list Event -> Prop :=
| BatchTrace_nil k : BatchTrace total k [] []
| BatchTrace_blank k prompt rest tr :
    isBlank prompt = true ->
    BatchTrace total k rest tr ->
    BatchTrace total k (prompt :: rest) tr
| BatchTrace_work k prompt rest work tr :
    isBlank prompt = false ->
    Forall (WorkOn prompt) work ->
    BatchTrace total (k + 1) rest tr ->
    BatchTrace total k (prompt :: rest)
      (SetProgress (Some (GenerationProgress.mk (k + 1) total (Some prompt)))
         :: work ++ tr).

(** [name] has a case-insensitive match in [pool], and the first such
    character has an image. *)
Definition hasImageFor (env : Env) (pool : list Character.t) (name : jsstring) : bool :=
  match findByName env pool name with
  | Some found => truthy_opt (Character.baseImage found)
  | None => false
  end.

(** [reference] is the name and image of the first character of [pool]
    whose name matches [name] case-insensitively. *)
Definition RefersTo (env : Env) (pool : list Character.t)
    (reference : Reference.t) (name : jsstring) : Prop :=
  exists found,
    findByName env pool name = Some found /\
    found ∈ pool /\
    toLowerCase env (Character.name found) = toLowerCase env name /\
    Reference.name reference = Character.name found /\
    Character.baseImage found = Some (Reference.base64 reference) /\
    truthy (Reference.base64 reference) = true.

(** The ids of the scene list. *)
Definition sceneIds (s : State.t) : list jsstring :=
  List.map GeneratedScene.id (State.scenes s).

(** Every id of the scene list was minted from a clock reading and from a
    random draw made before now. *)
Definition MintedBefore (env : Env) (w : World) (s : State.t) : Prop :=
  Forall (fun id => exists c r,
            (r < random_draws w)%nat /\
            id = mintId (Date_now env c) (Math_random_toString env r))
         (sceneIds s).

(** All clock readings of the session print with the same number of digits
    (as they do within one millisecond, and between 2001 and 2286). *)
Definition SameWidthClock (env : Env) : Prop :=
  forall a b,
    length (N_toString (Date_now env a)) = length (N_toString (Date_now env b)).

(** No two random draws of the session print the same digits after the
    first two characters. *)
Definition FreshDraws (env : Env) : Prop :=
  forall i j,
    i <> j ->
    slice_from 2 (Math_random_toString env i) <> slice_from 2 (Math_random_toString env j).

(** ** Sample sessions *)

(** [INITIAL_CHARACTER] of [src/App.tsx]. *)
Definition INITIAL_CHARACTER : Character.t :=
  Character.mk (js "1") [] [] None.

Definition alice : Character.t :=
  Character.mk (js "c-alice") (js "Alice") (js "a pilot") (Some (js "QUxJQ0U=")).

Definition bob : Character.t :=
  Character.mk (js "c-bob") (js "Bob") (js "a baker") (Some (js "Qk9C")).

(** A saved character whose image is missing. *)
Definition carol : Character.t :=
  Character.mk (js "c-carol") (js "Carol") (js "a ghost") None.

Definition picture : ContentResponse :=
  Resolves (Some [ {| inlineData_data := Some (js "UElD") |} ]) None.

(** A session whose clock stands still at one millisecond, whose random
    numbers never repeat, and whose remote service fails on its second
    call only. *)
Definition sampleEnv : Env :=
  {| toLowerCase := ascii_toLowerCase;
     Date_now := fun _ => 1700000000000;
     Math_random_toString := fun i => js "0." ++ N_toString (2 * N.of_nat i + 1);
     generateContent := fun i _ =>
       if (i =? 1)%nat then Rejects (Some (js "quota exceeded")) else picture |}.

(** The same session with a random generator that repeats itself. *)
Definition repeatingEnv : Env :=
  {| toLowerCase := ascii_toLowerCase;
     Date_now := fun _ => 1700000000000;
     Math_random_toString := fun _ => js "0.5";
     generateContent := fun _ _ => picture |}.

(** A batch whose first entry names nobody, whose third entry is blank and
    whose fourth entry meets the failing remote call. *)
Definition samplePrompts : list jsstring :=
  [js "Hello world"; js "[Alice] Alice waves"; js "   "; js "[Bob] Bob runs";
   js "[alice, BOB] they meet"].

(** Two tagged prompts that both resolve. *)
Definition twoPrompts : list jsstring := [js "[Alice] one"; js "[Bob] two"].

(** The message some engine gives the [SyntaxError] of [JSON.parse]. *)
Definition sampleSyntaxError (text : jsstring) : jsstring :=
  js "Unexpected token in JSON".

Definition freshWorld : World :=
  {| clock_reads := 0; random_draws := 0; remote_calls := 0 |}.

(** The state of [App] right after the library [alice; bob; carol] was
    loaded, with no active character. *)
Definition libraryState : State.t :=
  State.mk INITIAL_CHARACTER [] IDLE None None [alice; bob; carol] ∅.

(** The same with [alice] as the active character and an empty library. *)
Definition aliceState : State.t :=
  State.mk alice [] IDLE None None [] ∅.

Definition sampleScene : GeneratedScene.t :=
  GeneratedScene.mk (js "17000000000001") (js "[Alice] Alice waves") (js "UElD")
                    1700000000000 None.

Definition otherScene : GeneratedScene.t :=
  GeneratedScene.mk (js "17000000000003") (js "[Bob] Bob runs") (js "UElD")
                    1700000000000 None.

Definition galleryState : State.t :=
  State.mk alice [sampleScene; otherScene] IDLE None None [] ∅.

(** A video service that says [done] on the second poll. *)
Definition sampleVideoRemote (finished : Operation) (download : Awaited FetchResponse)
    : VideoRemote :=
  {| generateVideos := fun _ =>
       Fulfilled {| done := false; operation_error := None; video_uri := None |};
     getVideosOperation :=
       [Fulfilled {| done := false; operation_error := None; video_uri := None |};
        Fulfilled finished];
     fetch := fun _ => download;
     API_KEY := js "k" |}.

(** ** The persistent character store ([src/services/storage.ts]) *)

(** The order of IndexedDB string keys: by code units, as [<] on strings. *)
Fixpoint str_compare (a b : jsstring) : comparison :=
  match a, b with
  | [], [] => Eq
  | [], _ :: _ => Lt
  | _ :: _, [] => Gt
  | x :: a', y :: b' =>
      match x ?= y with
      | Eq => str_compare a' b'
      | Lt => Lt
      | Gt => Gt
      end
  end.

(** The object store [characters] with [keyPath: 'id']: its records, in
    ascending key order, one per key. *)
Abbreviation Store := (list Character.t).

(** [store.put(character)]: insert, or replace the record with that id. *)
Fixpoint storePut (character : Character.t) (store : Store) : Store :=
  match store with
  | [] => [character]
  | record :: rest =>
      match str_compare (Character.id character) (Character.id record) with
      | Lt => character :: store
      | Eq => character :: rest
      | Gt => record :: storePut character rest
      end
  end.

(** [store.delete(id)] *)
Definition storeDelete (id : jsstring) (store : Store) : Store :=
  List.filter (fun record => negb (str_eqb (Character.id record) id)) store.

(** The record stored under [id], if any. *)
Definition storeGet (id : jsstring) (store : Store) : option Character.t :=
  List.find (fun record => str_eqb (Character.id record) id) store.

(** The records of a store are in strictly ascending key order. *)
Definition StoreOk (store : Store) : Prop :=
  StronglySorted
    (fun a b => str_compare (Character.id a) (Character.id b) = Lt) store.

(** A thrown or rejected value: an [Error] with its message, or a bare
    string (which has no [message]). *)
Inductive Thrown : Type :=
| ThrownError (message : jsstring)
| ThrownString (text : jsstring).

(** [e.message] *)
Definition thrownMessage (e : Thrown) : option jsstring :=
  match e with
  | ThrownError message => Some message
  | ThrownString _ => None
  end.

(** How a promise settles. *)
Inductive Settlement (A : Type) : Type :=
| ResolvesTo (a : A)
| RejectsWith (e : Thrown).
Arguments ResolvesTo {A} a.
Arguments RejectsWith {A} e.

(** What the database does during [loadSavedCharacters]: whether [openDB]
    succeeds, and whether the [getAll] request does. *)
Record LoadFaults : Type := {
  load_opens : bool;
  load_reads : bool
}.

(** What it does during a save or a delete: whether [openDB] succeeds,
    whether the transaction completes, and what happens in the reload that
    follows. *)
Record WriteFaults : Type := {
  write_opens : bool;
  write_commits : bool;
  write_reload : LoadFaults
}.

Definition noLoadFaults : LoadFaults := {| load_opens := true; load_reads := true |}.
Definition noWriteFaults : WriteFaults :=
  {| write_opens := true; write_commits := true; write_reload := noLoadFaults |}.

(** [loadSavedCharacters]: the [catch] covers [openDB] only; the promise
    of the request is returned, not awaited, inside the [try]. *)
Definition loadSavedCharacters (faults : LoadFaults) (store : Store)
    : Settlement (list Character.t) :=
  if load_opens faults then
    if load_reads faults then ResolvesTo store
    else RejectsWith (ThrownString (js "Failed to load characters"))
  else ResolvesTo [].

(** [saveCharacterToStorage]: how the returned promise settles ([None] when
    it never does, which is when the reload inside [oncomplete] rejects) and
    the store afterwards. *)
Definition saveCharacterToStorage (faults : WriteFaults) (character : Character.t)
    (store : Store) : option (Settlement (list Character.t)) * Store :=
  if write_opens faults then
    if write_commits faults then
      let store' := storePut character store in
      match loadSavedCharacters (write_reload faults) store' with
      | ResolvesTo all => (Some (ResolvesTo all), store')
      | RejectsWith _ => (None, store')
      end
    else
      (Some (RejectsWith (ThrownString
         (js "Failed to save character. The database might be full or corrupted."))),
       store)
  else (Some (RejectsWith (ThrownError (js "Database connection failed."))), store).

(** [deleteCharacterFromStorage] likewise. *)
Definition deleteCharacterFromStorage (faults : WriteFaults) (id : jsstring)
    (store : Store) : option (Settlement (list Character.t)) * Store :=
  if write_opens faults then
    if write_commits faults then
      let store' := storeDelete id store in
      match loadSavedCharacters (write_reload faults) store' with
      | ResolvesTo all => (Some (ResolvesTo all), store')
      | RejectsWith _ => (None, store')
      end
    else (Some (RejectsWith (ThrownString (js "Failed to delete character"))), store)
  else
    (Some (RejectsWith (ThrownError (js "Database connection failed during delete."))),
     store).

(** ** The other handlers of [App] *)

(** [setError(v)], [setSavedCharacters(v)], [setCharacter(v)] and
    [setScenes([])] as state updates. *)
Definition withError (v : option jsstring) (s : State.t) : State.t :=
  State.mk (State.character s) (State.scenes s) (State.status s) v
           (State.progress s) (State.savedCharacters s) (State.animatingSceneIds s).

Definition withSavedCharacters (v : list Character.t) (s : State.t) : State.t :=
  State.mk (State.character s) (State.scenes s) (State.status s) (State.error s)
           (State.progress s) v (State.animatingSceneIds s).

Definition withCharacter (v : Character.t) (s : State.t) : State.t :=
  State.mk v (State.scenes s) (State.status s) (State.error s)
           (State.progress s) (State.savedCharacters s) (State.animatingSceneIds s).

Definition withStatus (v : GeneratorState) (s : State.t) : State.t :=
  State.mk (State.character s) (State.scenes s) v (State.error s)
           (State.progress s) (State.savedCharacters s) (State.animatingSceneIds s).

Definition withNoScenes (s : State.t) : State.t :=
  State.mk (State.character s) [] (State.status s) (State.error s)
           (State.progress s) (State.savedCharacters s) (State.animatingSceneIds s).

(** [Partial<Character>]: the keys an update object has.  A key that is
    present overrides, also with [null] or [undefined]. *)
Record PartialCharacter : Type := {
  update_id : option jsstring;
  update_name : option jsstring;
  update_description : option jsstring;
  update_baseImage : option (option jsstring)
}.

Definition or_keep {A : Type} (update : option A) (previous : A) : A :=
  match update with
  | Some v => v
  | None => previous
  end.

(** [handleCharacterUpdate]: [{ ...prev, ...updates }] *)
Definition handleCharacterUpdate (updates : PartialCharacter) (s : State.t) : State.t :=
  let prev := State.character s in
  withCharacter
    (Character.mk (or_keep (update_id updates) (Character.id prev))
                  (or_keep (update_name updates) (Character.name prev))
                  (or_keep (update_description updates) (Character.description prev))
                  (or_keep (update_baseImage updates) (Character.baseImage prev)))
    s.

(** [handleFileUpload] ([src/components/CharacterSetup.tsx]):
    [result.split(',')[1]] of the data URL the reader produced. *)
Definition uploadedBase64 (result : jsstring) : option jsstring :=
  split_comma result !! 1%nat.

Definition handleFileUpload (result : jsstring) (s : State.t) : State.t :=
  handleCharacterUpdate
    {| update_id := None; update_name := None; update_description := None;
       update_baseImage := Some (uploadedBase64 result) |} s.

(** The request of [generateCharacterImage]. *)
Definition characterRequest (prompt : jsstring) : ContentRequest :=
  {| req_model := js "gemini-2.5-flash-image";
     req_parts :=
       [Text (js "Create a character sheet or portrait based on this description. The background should be neutral or simple. Character description: "
                 ++ prompt)];
     req_aspectRatio := Some (js "1:1");
     req_systemInstruction := None;
     req_responseMimeType := None |}.

(** What [generateCharacterImage] makes of the remote answer. *)
Definition characterImageOfResponse (response : ContentResponse) : Result jsstring :=
  match response with
  | Rejects message => Throw (message_or message (js "Failed to generate character"))
  | Resolves candidate0_parts _ =>
      let base64Image :=
        match candidate0_parts with
        | Some parts => first_inline_data parts
        | None => []
        end in
      if truthy base64Image then Ok base64Image
      else Throw (message_or (Some (js "No image data found in response"))
                             (js "Failed to generate character"))
  end.

(** [handleGenerateCharacter] *)
Definition handleGenerateCharacter (env : Env) (s : State.t) (w : World)
    : State.t * World :=
  let description := Character.description (State.character s) in
  if isBlank description then (s, w)
  else
    let s1 := withError None (withStatus GENERATING_CHARACTER s) in
    let response := generateContent env (remote_calls w) (characterRequest description) in
    let w1 := {| clock_reads := clock_reads w;
                 random_draws := random_draws w;
                 remote_calls := S (remote_calls w) |} in
    let s2 :=
      match characterImageOfResponse response with
      | Ok base64Image =>
          let prev := State.character s1 in
          withCharacter
            (Character.mk (Character.id prev) (Character.name prev)
                          (Character.description prev) (Some base64Image))
            s1
      | Throw message =>
          withError (Some (message_or (Some message) (js "Failed to generate character.")))
                    s1
      end in
    (withStatus IDLE s2, w1).

(** [handleResetCharacter]; [confirmed] is what the user answers to
    [confirm], if asked. *)
Definition handleResetCharacter (env : Env) (confirmed : bool) (s : State.t) (w : World)
    : State.t * World :=
  if (0 <? length (State.scenes s))%nat && negb confirmed then (s, w)
  else
    (withNoScenes
       (withCharacter
          (Character.mk (N_toString (Date_now env (clock_reads w))) [] [] None) s),
     {| clock_reads := S (clock_reads w);
        random_draws := random_draws w;
        remote_calls := remote_calls w |}).

(** [handleLoadCharacter] *)
Definition handleLoadCharacter (confirmed : bool) (c : Character.t) (s : State.t)
    : State.t :=
  if (0 <? length (State.scenes s))%nat then
    if negb confirmed then s else withNoScenes (withCharacter c s)
  else withNoScenes (withCharacter c s).

(** [handleSaveCharacter]: the state once everything that will happen has
    happened, and the store. *)
Definition handleSaveCharacter (faults : WriteFaults) (s : State.t) (store : Store)
    : State.t * Store :=
  let character := State.character s in
  if negb (truthy_opt (Character.baseImage character))
     || negb (truthy (Character.name character))
  then
    (withError (Some (js "Character must have a name and an image to be saved.")) s,
     store)
  else
    match saveCharacterToStorage faults character store with
    | (Some (ResolvesTo updatedList), store') => (withSavedCharacters updatedList s, store')
    | (Some (RejectsWith e), store') =>
        (withError (Some (message_or (thrownMessage e) (js "Failed to save character"))) s,
         store')
    | (None, store') => (s, store')
    end.

(** [handleDeleteCharacter] *)
Definition handleDeleteCharacter (confirmed : bool) (faults : WriteFaults) (id : jsstring)
    (s : State.t) (store : Store) : State.t * Store :=
  if confirmed then
    match deleteCharacterFromStorage faults id store with
    | (Some (ResolvesTo updatedList), store') => (withSavedCharacters updatedList s, store')
    | (Some (RejectsWith e), store') =>
        (withError (Some (message_or (thrownMessage e) (js "Failed to delete character"))) s,
         store')
    | (None, store') => (s, store')
    end
  else (s, store).

(** ** The scene panel ([SceneGenerator]) *)

(** [toggleCastMember] *)
Definition toggleCastMember (id : jsstring) (selectedCastIds : gset jsstring)
    : gset jsstring :=
  if decide (id ∈ selectedCastIds) then selectedCastIds ∖ {[id]}
  else selectedCastIds ∪ {[id]}.

(** The names [handleAnalyzeStory] passes to [analyzeScript]. *)
Definition selectedNames (character : Character.t) (savedCharacters : list Character.t)
    (selectedCastIds : gset jsstring) : list jsstring :=
  fold_left
    (fun names c =>
       if bool_decide (Character.id c ∈ selectedCastIds)
          && truthy (Character.name c)
          && negb (str_eqb (Character.name c) (Character.name character))
       then names ++ [Character.name c]
       else names)
    savedCharacters
    (if truthy (Character.name character) then [Character.name character] else []).

(** What [handleAnalyzeStory] puts into the prompt box for the list
    [analyzeScript] returned, if anything. *)
Definition promptInputOfAnalysis (prompts : list jsstring) : option jsstring :=
  if (0 <? length prompts)%nat then Some (join nl prompts) else None.

(** [getBatchPrompts]: the queue shown above the batch box. *)
Definition getBatchPrompts (promptInput : jsstring) : list jsstring :=
  List.filter (fun p => (0 <? length (trim p))%nat) (split_newline promptInput).

(** [availableCast]: the library, with the active character in front when
    it has a name and an image and its id is not in the library. *)
Definition availableCast (character : Character.t) (savedCharacters : list Character.t)
    : list Character.t :=
  if activeUsable character
     && negb (existsb (fun c => str_eqb (Character.id c) (Character.id character))
                      savedCharacters)
  then character :: savedCharacters
  else savedCharacters.

(** ** Vocabulary of the further statements *)

(** Every character of a list has a non-empty name and a non-empty image. *)
Definition AllUsable (characters : list Character.t) : Prop :=
  Forall (fun c => activeUsable c = true) characters.

(** Where a reference comes from: a character of the library or the active
    character, with that name and that image. *)
Definition FromCharacter (character : Character.t) (savedCharacters : list Character.t)
    (reference : Reference.t) : Prop :=
  exists c,
    (c = character \/ c ∈ savedCharacters) /\
    Reference.name reference = Character.name c /\
    Character.baseImage c = Some (Reference.base64 reference) /\
    truthy (Reference.base64 reference) = true.

(** The messages of the errors a trace records. *)
Definition failures (tr : list Event) : list jsstring :=
  omap (fun e => match e with SetError (Some message) => Some message | _ => None end) tr.

(** The characters of the base64 alphabet, with padding. *)
Definition isBase64Char (c : N) : bool :=
  ((65 <=? c) && (c <=? 90)) || ((97 <=? c) && (c <=? 122)) ||
  ((48 <=? c) && (c <=? 57)) || (c =? 43) || (c =? 47) || (c =? 61).

(** An answer to a poll that ends the polling loop. *)
Definition endsPolling (answer : Awaited Operation) : bool :=
  match answer with
  | Fulfilled operation => done operation
  | Rejected _ => true
  end.

(** The inline image part made of a reference. *)
Definition inlinePartOf (reference : Reference.t) : RequestPart :=
  InlineData (js "image/png") (cleanBase64 (Reference.base64 reference)).

(* ===================================================================== *)
(** * Part II: properties                                                 *)
(* ===================================================================== *)

(** ** Strings *)

Lemma str_eqb_eq (a b : jsstring) : str_eqb a b = true <-> a = b.
Proof.
  revert b. induction a as [|x a IH]; intros [|y b]; simpl; split; try easy.
  - intros H. apply andb_prop in H as [Hx Hab].
    apply N.eqb_eq in Hx. apply IH in Hab. congruence.
  - intros H. injection H as -> ->.
    rewrite N.eqb_refl. simpl. now apply IH.
Qed.

Lemma str_eqb_refl (a : jsstring) : str_eqb a a = true.
Proof. now apply str_eqb_eq. Qed.

Lemma str_eqb_neq (a b : jsstring) : str_eqb a b = false <-> a <> b.
Proof.
  split.
  - intros H Heq. apply str_eqb_eq in Heq. congruence.
  - intros H. destruct (str_eqb a b) eqn:E; [|reflexivity].
    apply str_eqb_eq in E. contradiction.
Qed.

Lemma lazy_until_close_complete (inner rest : jsstring) :
  Forall insideTag inner -> lazy_until_close (inner ++ 93 :: rest) = Some inner.
Proof.
  induction 1 as [|c inner [Hc Hlt] _ IH]; simpl; [reflexivity|].
  destruct (N.eqb_spec c 93); [contradiction|].
  now rewrite Hlt, IH.
Qed.

Lemma lazy_until_close_sound (s inner : jsstring) :
  lazy_until_close s = Some inner ->
  exists rest, s = inner ++ 93 :: rest /\ Forall insideTag inner.
Proof.
  revert inner. induction s as [|c s IH]; intros inner; simpl; [discriminate|].
  destruct (N.eqb_spec c 93) as [->|Hc].
  - intros [= <-]. exists s. split; [reflexivity|constructor].
  - destruct (isLineTerminator c) eqn:Hlt; [discriminate|].
    destruct (lazy_until_close s) as [body|]; simpl; [|discriminate].
    intros [= <-]. destruct (IH body eq_refl) as (rest & -> & Hall).
    exists rest. split; [reflexivity|]. constructor; [split; assumption|assumption].
Qed.

Lemma lazy_until_close_spec (s inner : jsstring) :
  lazy_until_close s = Some inner <->
  exists rest, s = inner ++ 93 :: rest /\ Forall insideTag inner.
Proof.
  split; [apply lazy_until_close_sound|].
  intros (rest & -> & Hall). now apply lazy_until_close_complete.
Qed.

Lemma tagMatch_spec (prompt inner : jsstring) :
  tagMatch prompt = Some inner <->
  exists rest, prompt = 91 :: inner ++ 93 :: rest /\ Forall insideTag inner.
Proof.
  destruct prompt as [|c s]; simpl.
  - split; [discriminate|]. intros (rest & H & _). discriminate.
  - destruct (N.eqb_spec c 91) as [->|Hc].
    + rewrite lazy_until_close_spec. split.
      * intros (rest & -> & Hall). now exists rest.
      * intros (rest & [= ->] & Hall). now exists rest.
    + split; [discriminate|]. intros (rest & [= -> _] & _). now elim Hc.
Qed.

Lemma tagMatch_whitespace_first (c : N) (rest : jsstring) :
  isWhiteSpace c = true -> tagMatch (c :: rest) = None.
Proof.
  intros Hws. simpl. destruct (N.eqb_spec c 91) as [->|]; [|reflexivity].
  discriminate Hws.
Qed.

Lemma trimStart_fixed (s : jsstring) : trimStart (trimStart s) = trimStart s.
Proof.
  induction s as [|c s IH]; simpl; [reflexivity|].
  destruct (isWhiteSpace c) eqn:E; [assumption|]. simpl. now rewrite E.
Qed.

Lemma trimStart_app_keep (s t : jsstring) :
  trimStart s <> [] -> trimStart (s ++ t) = trimStart s ++ t.
Proof.
  induction s as [|c s IH]; simpl; [easy|].
  destruct (isWhiteSpace c); [assumption|reflexivity].
Qed.

Lemma trimStart_head (s : jsstring) (c : N) (r : jsstring) :
  trimStart s = c :: r -> isWhiteSpace c = false.
Proof.
  induction s as [|d s IH]; simpl; [discriminate|].
  destruct (isWhiteSpace d) eqn:E; [assumption|]. intros [= -> _]. assumption.
Qed.

(** Trimming a trimmed string changes nothing. *)
Lemma trim_fixed (s : jsstring) : trim (trim s) = trim s.
Proof.
  unfold trim, trimEnd.
  remember (trimStart (rev (trimStart s))) as u eqn:Hu.
  destruct u as [|c u]; [reflexivity|].
  assert (Hc : isWhiteSpace c = false) by (eapply trimStart_head; eauto).
  assert (Hfront : trimStart (rev (c :: u)) = rev (c :: u)).
  { (* [rev (c :: u)] is a suffix-trimmed copy of [trimStart s], whose head is
       not white space *)
    assert (Hsplit : exists ws, rev (trimStart s) = ws ++ c :: u /\ Forall (fun x => isWhiteSpace x = true) ws).
    { clear Hc. revert Hu. generalize (rev (trimStart s)) as l.
      induction l as [|d l IH]; simpl; [discriminate|].
      destruct (isWhiteSpace d) eqn:E.
      - intros H. destruct (IH H) as (ws & -> & Hws).
        exists (d :: ws). split; [reflexivity|]. now constructor.
      - intros [= <- <-]. exists []. split; [reflexivity|constructor]. }
    destruct Hsplit as (ws & Hrev & Hws).
    assert (Hs : trimStart s = rev (c :: u) ++ rev ws).
    { rewrite <- (rev_involutive (trimStart s)), Hrev, rev_app_distr. reflexivity. }
    destruct (rev (c :: u)) as [|h t] eqn:Hr.
    - apply (f_equal (@length N)) in Hr. rewrite length_rev in Hr. discriminate.
    - simpl in Hs. apply trimStart_head in Hs as Hh. simpl. now rewrite Hh. }
  rewrite Hfront, rev_involutive. simpl. now rewrite Hc.
Qed.

(** ** The resolver *)

Section Resolver.

Variable env : Env.

Lemma findByName_some (pool : list Character.t) (name : jsstring) (found : Character.t) :
  findByName env pool name = Some found ->
  found ∈ pool /\
  toLowerCase env (Character.name found) = toLowerCase env name.
Proof.
  unfold findByName. intros H. apply find_some in H as [Hin Heq].
  split; [now apply list_elem_of_In|now apply str_eqb_eq].
Qed.

Lemma pushIfImage_app (c : Character.t) (references : list Reference.t) :
  pushIfImage c references = references ++ pushIfImage c [].
Proof.
  unfold pushIfImage. destruct (Character.baseImage c) as [image|].
  - destruct (truthy image); [reflexivity|now rewrite app_nil_r].
  - now rewrite app_nil_r.
Qed.

Lemma pushFound_app (pool : list Character.t) (references : list Reference.t)
    (name : jsstring) :
  pushFound env pool references name = references ++ pushFound env pool [] name.
Proof.
  unfold pushFound. destruct (findByName env pool name).
  - apply pushIfImage_app.
  - now rewrite app_nil_r.
Qed.

Lemma fold_pushFound_app (pool : list Character.t) (names : list jsstring)
    (references : list Reference.t) :
  fold_left (pushFound env pool) names references =
  references ++ fold_left (pushFound env pool) names [].
Proof.
  revert references. induction names as [|name names IH]; intros references; simpl.
  - now rewrite app_nil_r.
  - rewrite IH, (IH (pushFound env pool [] name)), pushFound_app.
    now rewrite <- app_assoc.
Qed.

(** One name of the tag: a single reference to the first character that
    matches it when that character has an image, nothing otherwise. *)
Lemma pushFound_one (pool : list Character.t) (name : jsstring) :
  (hasImageFor env pool name = true /\
   exists reference, pushFound env pool [] name = [reference] /\
                     RefersTo env pool reference name) \/
  (hasImageFor env pool name = false /\ pushFound env pool [] name = []).
Proof.
  unfold hasImageFor, pushFound, pushIfImage.
  destruct (findByName env pool name) as [found|] eqn:Hfind; [|now right].
  destruct (Character.baseImage found) as [image|] eqn:Himage; simpl; [|now right].
  destruct (truthy image) eqn:Htruthy; [|now right].
  left. split; [reflexivity|].
  exists (Reference.mk (Character.name found) image). split; [reflexivity|].
  exists found. apply findByName_some in Hfind as Hfound. destruct Hfound.
  repeat split; assumption.
Qed.

(** The [forEach] over the tag names keeps, in order, exactly the names
    that have an image. *)
Lemma fold_pushFound_refers (pool : list Character.t) (names : list jsstring) :
  Forall2 (RefersTo env pool)
          (fold_left (pushFound env pool) names [])
          (List.filter (hasImageFor env pool) names).
Proof.
  induction names as [|name names IH]; simpl; [constructor|].
  rewrite fold_pushFound_app.
  destruct (pushFound_one pool name) as [(-> & reference & -> & Hrefers)|(-> & ->)].
  - simpl. now constructor.
  - assumption.
Qed.

Lemma filter_fmap_sublist {A B : Type} (f : A -> B) (keep : A -> bool) (l : list A) :
  List.map f (List.filter keep l) `sublist_of` List.map f l.
Proof.
  induction l as [|x l IH]; simpl; [constructor|].
  destruct (keep x); simpl; now constructor.
Qed.

Lemma refers_lower_names (pool : list Character.t) (references : list Reference.t)
    (names : list jsstring) :
  Forall2 (RefersTo env pool) references names ->
  List.map (fun r => toLowerCase env (Reference.name r)) references =
  List.map (toLowerCase env) names.
Proof.
  induction 1 as [|reference name references names (found & _ & _ & Hlow & Hname & _) _ IH];
    simpl; [reflexivity|].
  rewrite Hname, Hlow, IH. reflexivity.
Qed.

Lemma taggedReferences_tagged (character : Character.t)
    (savedCharacters : list Character.t) (prompt inner : jsstring) :
  tagMatch prompt = Some inner ->
  taggedReferences env character savedCharacters prompt =
  fold_left (pushFound env (allAvailable character savedCharacters)) (tagNames inner) [].
Proof. unfold taggedReferences. now intros ->. Qed.

Lemma pushIfUsable_nil (character : Character.t) :
  (activeUsable character = true /\
   exists image, Character.baseImage character = Some image /\
                 truthy image = true /\
                 truthy (Character.name character) = true /\
                 pushIfUsable character [] = [Reference.mk (Character.name character) image]) \/
  (activeUsable character = false /\ pushIfUsable character [] = []).
Proof.
  unfold pushIfUsable, pushIfImage, activeUsable.
  destruct (Character.baseImage character) as [image|]; simpl; [|now right].
  destruct (truthy image) eqn:Himage; simpl; [|now right].
  destruct (truthy (Character.name character)) eqn:Hname; [|now right].
  left. split; [reflexivity|]. exists image. repeat split; assumption.
Qed.

Lemma resolveReferences_of_list (character : Character.t)
    (savedCharacters : list Character.t) (prompt : jsstring) :
  resolveReferences env character savedCharacters prompt =
  match resolvedReferences env character savedCharacters prompt with
  | [] => Throw noReferenceMessage
  | references => Ok references
  end.
Proof.
  unfold resolveReferences.
  now destruct (resolvedReferences env character savedCharacters prompt).
Qed.

Lemma resolvedReferences_cases (character : Character.t)
    (savedCharacters : list Character.t) (prompt : jsstring) :
  resolvedReferences env character savedCharacters prompt =
  match taggedReferences env character savedCharacters prompt with
  | [] => pushIfUsable character []
  | references => references
  end.
Proof.
  unfold resolvedReferences.
  now destruct (taggedReferences env character savedCharacters prompt).
Qed.

End Resolver.

(** ** Runs of the monad *)

Lemma trace_bind {A B} (m : M A) (k : A -> M B) (s : State.t) (w : World) :
  trace_of (bind m k s w) =
  trace_of (m s w)
    ++ trace_of (k (value_of (m s w)) (final_state (m s w)) (final_world (m s w))).
Proof.
  unfold bind. destruct (m s w) as [[[a s1] w1] t1]. simpl.
  now destruct (k a s1 w1) as [[[b s2] w2] t2].
Qed.

Lemma final_state_bind {A B} (m : M A) (k : A -> M B) (s : State.t) (w : World) :
  final_state (bind m k s w) =
  final_state (k (value_of (m s w)) (final_state (m s w)) (final_world (m s w))).
Proof.
  unfold bind. destruct (m s w) as [[[a s1] w1] t1]. simpl.
  now destruct (k a s1 w1) as [[[b s2] w2] t2].
Qed.

Lemma final_world_bind {A B} (m : M A) (k : A -> M B) (s : State.t) (w : World) :
  final_world (bind m k s w) =
  final_world (k (value_of (m s w)) (final_state (m s w)) (final_world (m s w))).
Proof.
  unfold bind. destruct (m s w) as [[[a s1] w1] t1]. simpl.
  now destruct (k a s1 w1) as [[[b s2] w2] t2].
Qed.

Lemma value_bind {A B} (m : M A) (k : A -> M B) (s : State.t) (w : World) :
  value_of (bind m k s w) =
  value_of (k (value_of (m s w)) (final_state (m s w)) (final_world (m s w))).
Proof.
  unfold bind. destruct (m s w) as [[[a s1] w1] t1]. simpl.
  now destruct (k a s1 w1) as [[[b s2] w2] t2].
Qed.

Lemma published_app (t1 t2 : list Event) :
  published (t1 ++ t2) = published t1 ++ published t2.
Proof. apply omap_app. Qed.

Lemma attempts_app (t1 t2 : list Event) :
  attempts (t1 ++ t2) = attempts t1 ++ attempts t2.
Proof. apply omap_app. Qed.

Lemma appended_app (t1 t2 : list Event) :
  appended (t1 ++ t2) = appended t1 ++ appended t2.
Proof. apply omap_app. Qed.

Lemma successes_app (c1 c2 : list (jsstring * Result jsstring)) :
  successes (c1 ++ c2) = successes c1 ++ successes c2.
Proof. apply omap_app. Qed.

Lemma WorkOn_published (prompt : jsstring) (work : list Event) :
  Forall (WorkOn prompt) work -> published work = [].
Proof. induction 1 as [|e work He _ IH]; [reflexivity|]. now destruct He. Qed.

(** ** One iteration of the loop *)

Section Orchestrator.

Variable env : Env.
Variable character : Character.t.
Variable savedCharacters : list Character.t.
Variable total : nat.

Ltac run_step :=
  unfold processPrompt, tryGenerate, generateSceneImage, callGenerateContent,
    now, randomString, setScenes, setProgress, setError, emit, bind, ret,
    remoteOutcome;
  simpl.

(** The resolver threw: progress, then the error; no call, no scene. *)
Lemma processPrompt_unresolved (k : nat) (prompt message : jsstring)
    (s : State.t) (w : World) :
  resolveReferences env character savedCharacters prompt = Throw message ->
  processPrompt env character savedCharacters total k prompt s w =
  (tt,
   State.mk (State.character s) (State.scenes s) (State.status s)
            (Some (sceneErrorMessage prompt message))
            (Some (GenerationProgress.mk (k + 1) total (Some prompt)))
            (State.savedCharacters s) (State.animatingSceneIds s),
   w,
   [SetProgress (Some (GenerationProgress.mk (k + 1) total (Some prompt)));
    SetError (Some (sceneErrorMessage prompt message))]).
Proof. intros H. run_step. rewrite H. reflexivity. Qed.

(** The remote call threw: progress, the call, then the error; no scene. *)
Lemma processPrompt_failed (k : nat) (prompt message : jsstring)
    (references : list Reference.t) (s : State.t) (w : World) :
  resolveReferences env character savedCharacters prompt = Ok references ->
  remoteOutcome env references prompt w = Throw message ->
  processPrompt env character savedCharacters total k prompt s w =
  (tt,
   State.mk (State.character s) (State.scenes s) (State.status s)
            (Some (sceneErrorMessage prompt message))
            (Some (GenerationProgress.mk (k + 1) total (Some prompt)))
            (State.savedCharacters s) (State.animatingSceneIds s),
   {| clock_reads := clock_reads w;
      random_draws := random_draws w;
      remote_calls := S (remote_calls w) |},
   [SetProgress (Some (GenerationProgress.mk (k + 1) total (Some prompt)));
    CalledGenerateSceneImage references prompt (Throw message);
    SetError (Some (sceneErrorMessage prompt message))]).
Proof. intros H1 H2. revert H2. run_step. rewrite H1. intros ->. reflexivity. Qed.

(** The remote call returned an image: progress, the call, then the scene
    appended at the end of the list. *)
Lemma processPrompt_succeeded (k : nat) (prompt image : jsstring)
    (references : list Reference.t) (s : State.t) (w : World) :
  resolveReferences env character savedCharacters prompt = Ok references ->
  remoteOutcome env references prompt w = Ok image ->
  processPrompt env character savedCharacters total k prompt s w =
  (tt,
   State.mk (State.character s) (State.scenes s ++ [mintedScene env prompt image w])
            (State.status s) (State.error s)
            (Some (GenerationProgress.mk (k + 1) total (Some prompt)))
            (State.savedCharacters s) (State.animatingSceneIds s),
   {| clock_reads := S (S (clock_reads w));
      random_draws := S (random_draws w);
      remote_calls := S (remote_calls w) |},
   [SetProgress (Some (GenerationProgress.mk (k + 1) total (Some prompt)));
    CalledGenerateSceneImage references prompt (Ok image);
    AppendScene (mintedScene env prompt image w)]).
Proof. intros H1 H2. revert H2. run_step. rewrite H1. intros ->. reflexivity. Qed.

(** An iteration ends in one of these three ways. *)
Lemma processPrompt_cases (k : nat) (prompt : jsstring) (s : State.t) (w : World) :
  (exists message,
     resolveReferences env character savedCharacters prompt = Throw message) \/
  (exists references message,
     resolveReferences env character savedCharacters prompt = Ok references /\
     remoteOutcome env references prompt w = Throw message) \/
  (exists references image,
     resolveReferences env character savedCharacters prompt = Ok references /\
     remoteOutcome env references prompt w = Ok image).
Proof.
  destruct (resolveReferences env character savedCharacters prompt) as [references|message].
  - right. destruct (remoteOutcome env references prompt w) as [image|message] eqn:Hcall.
    + right. now exists references, image.
    + left. now exists references, message.
  - left. now exists message.
Qed.

Lemma forPrompts_blank (prompt : jsstring) (rest : list jsstring) (k : nat) :
  isBlank prompt = true ->
  forPrompts env character savedCharacters total (prompt :: rest) k =
  forPrompts env character savedCharacters total rest k.
Proof. intros H. simpl. now rewrite H. Qed.

Lemma forPrompts_work (prompt : jsstring) (rest : list jsstring) (k : nat) :
  isBlank prompt = false ->
  forPrompts env character savedCharacters total (prompt :: rest) k =
  bind (processPrompt env character savedCharacters total k prompt)
       (fun _ => forPrompts env character savedCharacters total rest (k + 1)).
Proof. intros H. simpl. now rewrite H. Qed.

(** Case analysis on the iteration at the head of the loop. *)
Ltac loop_head prompt k s w Hblank :=
  rewrite (forPrompts_work prompt _ k Hblank);
  rewrite ?trace_bind, ?final_state_bind, ?final_world_bind;
  destruct (processPrompt_cases k prompt s w)
    as [(?message & ?Hres) | [(?references & ?message & ?Hres & ?Hcall)
                             | (?references & ?image & ?Hres & ?Hcall)]];
  [ rewrite (processPrompt_unresolved k prompt _ s w Hres)
  | rewrite (processPrompt_failed k prompt _ _ s w Hres Hcall)
  | rewrite (processPrompt_succeeded k prompt _ _ s w Hres Hcall) ];
  cbn [trace_of final_state final_world value_of].

(** The trace of the loop has the shape [BatchTrace]. *)
Lemma forPrompts_trace (prompts : list jsstring) (k : nat) (s : State.t) (w : World) :
  BatchTrace total k prompts
    (trace_of (forPrompts env character savedCharacters total prompts k s w)).
Proof.
  revert k s w. induction prompts as [|prompt rest IH]; intros k s w.
  - constructor.
  - destruct (isBlank prompt) eqn:Hblank.
    + rewrite (forPrompts_blank prompt rest k Hblank).
      now apply BatchTrace_blank.
    + loop_head prompt k s w Hblank.
      * apply (BatchTrace_work total k prompt rest [_]); [assumption| |apply IH].
        repeat constructor.
      * apply (BatchTrace_work total k prompt rest [_; _]); [assumption| |apply IH].
        repeat constructor.
      * apply (BatchTrace_work total k prompt rest [_; _]); [assumption| |apply IH].
        repeat constructor.
Qed.

(** The remote calls of the loop are those of the entries that are not blank
    and resolve, in order, whatever the earlier entries came to. *)
Lemma forPrompts_attempts (prompts : list jsstring) (k : nat) (s : State.t) (w : World) :
  List.map fst
    (attempts (trace_of (forPrompts env character savedCharacters total prompts k s w))) =
  List.filter
    (fun p => negb (isBlank p) && resolvable env character savedCharacters p) prompts.
Proof.
  revert k s w. induction prompts as [|prompt rest IH]; intros k s w; [reflexivity|].
  cbn [List.filter]. unfold resolvable at 1.
  destruct (isBlank prompt) eqn:Hblank.
  - rewrite (forPrompts_blank prompt rest k Hblank). apply IH.
  - loop_head prompt k s w Hblank; rewrite Hres; cbn; f_equal; apply IH.
Qed.

(** The loop only appends: the final scene list is the old one followed by
    the scenes of the trace, and these are the successful calls. *)
Lemma forPrompts_scenes (prompts : list jsstring) (k : nat) (s : State.t) (w : World) :
  let r := forPrompts env character savedCharacters total prompts k s w in
  State.scenes (final_state r) = State.scenes s ++ appended (trace_of r) /\
  List.map sceneContent (appended (trace_of r)) = successes (attempts (trace_of r)) /\
  Forall (fun scene => GeneratedScene.videoUrl scene = None) (appended (trace_of r)).
Proof.
  revert k s w. induction prompts as [|prompt rest IH]; intros k s w.
  - cbn. rewrite app_nil_r. repeat split. constructor.
  - destruct (isBlank prompt) eqn:Hblank.
    + rewrite (forPrompts_blank prompt rest k Hblank). apply IH.
    + cbv zeta. loop_head prompt k s w Hblank.
      * match goal with
        | |- context [forPrompts _ _ _ _ _ _ ?s1 ?w1] =>
            destruct (IH (k + 1)%nat s1 w1) as (H1 & H2 & H3)
        end.
        cbn in *. repeat split; assumption.
      * match goal with
        | |- context [forPrompts _ _ _ _ _ _ ?s1 ?w1] =>
            destruct (IH (k + 1)%nat s1 w1) as (H1 & H2 & H3)
        end.
        cbn in *. repeat split; assumption.
      * match goal with
        | |- context [forPrompts _ _ _ _ _ _ ?s1 ?w1] =>
            destruct (IH (k + 1)%nat s1 w1) as (H1 & H2 & H3)
        end.
        cbn in *. rewrite H1, <- app_assoc. repeat split.
        -- now f_equal.
        -- now constructor.
Qed.

(** The loop leaves the character, the library, the status and the set of
    animating scenes alone. *)
Lemma forPrompts_frame (prompts : list jsstring) (k : nat) (s : State.t) (w : World) :
  let s' := final_state (forPrompts env character savedCharacters total prompts k s w) in
  State.character s' = State.character s /\
  State.savedCharacters s' = State.savedCharacters s /\
  State.status s' = State.status s /\
  State.animatingSceneIds s' = State.animatingSceneIds s.
Proof.
  revert k s w. induction prompts as [|prompt rest IH]; intros k s w.
  - cbn. repeat split.
  - destruct (isBlank prompt) eqn:Hblank.
    + rewrite (forPrompts_blank prompt rest k Hblank). apply IH.
    + cbv zeta. loop_head prompt k s w Hblank.
      all: match goal with
           | |- context [forPrompts _ _ _ _ _ _ ?s1 ?w1] =>
               destruct (IH (k + 1)%nat s1 w1) as (H1 & H2 & H3 & H4)
           end; cbn in *; repeat split; assumption.
Qed.

End Orchestrator.

(** ** The whole batch *)

Lemma handleGenerateScenes_unfold (env : Env) (prompts : list jsstring)
    (s : State.t) (w : World) :
  prompts <> [] ->
  handleGenerateScenes env prompts s w =
  let '(_, s1, w1, t1) := batchLoop env prompts s w in
  (tt,
   State.mk (State.character s1) (State.scenes s1) IDLE (State.error s1) None
            (State.savedCharacters s1) (State.animatingSceneIds s1),
   w1, batchPrologue prompts ++ t1 ++ batchEpilogue).
Proof.
  intros Hne. destruct prompts as [|prompt rest]; [contradiction|].
  unfold handleGenerateScenes, batchLoop, batchStartState, batchPrologue, batchEpilogue.
  cbn [length Nat.eqb].
  unfold bind, getState, setStatus, setError, setProgress.
  cbn [State.character State.scenes State.status State.error State.progress
       State.savedCharacters State.animatingSceneIds].
  destruct (forPrompts _ _ _ _ _ _ _ _) as [[[[] s1] w1] t1].
  reflexivity.
Qed.

Lemma handleGenerateScenes_run (env : Env) (prompts : list jsstring)
    (s : State.t) (w : World) :
  prompts <> [] ->
  let r := handleGenerateScenes env prompts s w in
  let loop := batchLoop env prompts s w in
  trace_of r = batchPrologue prompts ++ trace_of loop ++ batchEpilogue /\
  final_state r =
    State.mk (State.character (final_state loop)) (State.scenes (final_state loop))
             IDLE (State.error (final_state loop)) None
             (State.savedCharacters (final_state loop))
             (State.animatingSceneIds (final_state loop)) /\
  final_world r = final_world loop.
Proof.
  intros Hne. cbv zeta. rewrite (handleGenerateScenes_unfold env prompts s w Hne).
  destruct (batchLoop env prompts s w) as [[[[] s1] w1] t1].
  repeat split.
Qed.

Lemma BatchTrace_announced (total k : nat) (prompts : list jsstring) (tr : list Event) :
  BatchTrace total k prompts tr ->
  announced tr = List.filter notBlank prompts /\
  Forall (fun g => GenerationProgress.total g = total) (published tr).
Proof.
  unfold announced, notBlank.
  induction 1 as [k|k prompt rest tr Hblank _ IH|k prompt rest work tr Hblank Hwork _ IH];
    cbn [List.filter].
  - split; [reflexivity|constructor].
  - now rewrite Hblank.
  - rewrite Hblank. cbn. rewrite published_app, (WorkOn_published prompt work Hwork).
    destruct IH as [IH1 IH2]. cbn. split; [now f_equal|now constructor].
Qed.

Lemma successes_sublist (calls : list (jsstring * Result jsstring)) :
  List.map fst (successes calls) `sublist_of` List.map fst calls.
Proof.
  induction calls as [|[p [image|message]] calls IH]; cbn; now constructor.
Qed.

Lemma filter_sublist {A : Type} (keep : A -> bool) (l : list A) :
  List.filter keep l `sublist_of` l.
Proof.
  induction l as [|x l IH]; cbn; [constructor|].
  destruct (keep x); now constructor.
Qed.

Lemma sceneContent_prompt (scenes : list GeneratedScene.t) :
  List.map GeneratedScene.prompt scenes = List.map fst (List.map sceneContent scenes).
Proof. rewrite List.map_map. reflexivity. Qed.

Lemma filter_all_length {A : Type} (keep : A -> bool) (l : list A) :
  length (List.filter keep l) = length l <-> Forall (fun x => keep x = true) l.
Proof.
  induction l as [|x l IH]; cbn.
  - split; [constructor|reflexivity].
  - pose proof (List.filter_length_le keep l) as Hle.
    destruct (keep x) eqn:E; cbn.
    + split.
      * intros [= H]. constructor; [assumption|now apply IH].
      * intros H. inversion H; subst. f_equal. now apply IH.
    + split; [lia|]. intros H. inversion H; subst. congruence.
Qed.

Lemma batch_trace_views (prompts : list jsstring) (tr : list Event) :
  published (batchPrologue prompts ++ tr ++ batchEpilogue) =
    GenerationProgress.mk 0 (length prompts) None :: published tr /\
  announced (batchPrologue prompts ++ tr ++ batchEpilogue) = announced tr /\
  attempts (batchPrologue prompts ++ tr ++ batchEpilogue) = attempts tr /\
  appended (batchPrologue prompts ++ tr ++ batchEpilogue) = appended tr.
Proof.
  unfold announced.
  rewrite !published_app, !attempts_app, !appended_app. cbn.
  rewrite !app_nil_r. repeat split.
Qed.

(** ** Claims about the orchestrator *)

(** C1.  In every batch, each entry that is not blank is announced and
    resolved whatever happened to the entries before it, and each entry that
    resolves gets its remote call: a thrown error, from the resolver or from
    the remote call, only ends the work on its own prompt.  The scene list
    grows by exactly the successful remote calls, at its end, in the order
    of the prompts. *)
Theorem batch_continues_past_failures (env : Env) (prompts : list jsstring)
    (s : State.t) (w : World) :
  let r := handleGenerateScenes env prompts s w in
  announced (trace_of r) = List.filter notBlank prompts /\
  List.map fst (attempts (trace_of r)) =
    List.filter
      (fun p => notBlank p &&
                resolvable env (State.character s) (State.savedCharacters s) p)
      prompts /\
  State.scenes (final_state r) = State.scenes s ++ appended (trace_of r) /\
  List.map sceneContent (appended (trace_of r)) = successes (attempts (trace_of r)) /\
  List.map GeneratedScene.prompt (appended (trace_of r)) `sublist_of` prompts.
Proof.
  cbv zeta. destruct (list_eq_dec prompts []) as [->|Hne].
  - cbn. rewrite app_nil_r. repeat split. constructor.
  - destruct (handleGenerateScenes_run env prompts s w Hne) as (Htrace & Hstate & _).
    rewrite Htrace, Hstate. cbn [State.scenes].
    destruct (batch_trace_views prompts (trace_of (batchLoop env prompts s w)))
      as (_ & -> & -> & ->).
    unfold batchLoop.
    pose proof (forPrompts_trace env (State.character s) (State.savedCharacters s)
                  (length prompts) prompts 0 (batchStartState prompts s) w) as Hshape.
    apply BatchTrace_announced in Hshape as [Hannounced _].
    pose proof (forPrompts_attempts env (State.character s) (State.savedCharacters s)
                  (length prompts) prompts 0 (batchStartState prompts s) w) as Hcalls.
    destruct (forPrompts_scenes env (State.character s) (State.savedCharacters s)
                (length prompts) prompts 0 (batchStartState prompts s) w)
      as (Hscenes & Hcontent & _).
    repeat split; try assumption.
    rewrite sceneContent_prompt, Hcontent.
    etransitivity; [apply successes_sublist|].
    rewrite Hcalls. apply filter_sublist.
Qed.

(** C1 on the sample batch: five entries, of which one is blank, one names
    nobody and one meets a failing remote call. *)
Lemma batch_continues_past_failures_witness :
  let r := handleGenerateScenes sampleEnv samplePrompts libraryState freshWorld in
  announced (trace_of r) = List.filter notBlank samplePrompts /\
  List.map GeneratedScene.prompt (State.scenes (final_state r)) =
    [js "[Alice] Alice waves"; js "[alice, BOB] they meet"].
Proof.
  split.
  - exact (proj1 (batch_continues_past_failures sampleEnv samplePrompts
                    libraryState freshWorld)).
  - vm_compute. reflexivity.
Defined.

(** The handler on its own: the [total] of every progress value published
    is the number of entries it was handed.  Around the loop the trace is
    the prologue and the epilogue; inside, each entry that is not blank has
    its progress value, with [current] one more than the number of such
    entries before it, published before the work on it, and a blank entry
    leaves no event. *)
Lemma batch_progress_shape (env : Env) (prompts : list jsstring)
    (s : State.t) (w : World) :
  prompts <> [] ->
  let r := handleGenerateScenes env prompts s w in
  (exists tr,
     trace_of r = batchPrologue prompts ++ tr ++ batchEpilogue /\
     BatchTrace (length prompts) 0 prompts tr) /\
  published (trace_of r) =
    GenerationProgress.mk 0 (length prompts) None ::
    published (trace_of (batchLoop env prompts s w)).
Proof.
  intros Hne. cbv zeta.
  destruct (handleGenerateScenes_run env prompts s w Hne) as (Htrace & _ & _).
  pose proof (forPrompts_trace env (State.character s) (State.savedCharacters s)
                (length prompts) prompts 0 (batchStartState prompts s) w) as Hshape.
  fold (batchLoop env prompts s w) in Hshape.
  split.
  - exists (trace_of (batchLoop env prompts s w)). split; assumption.
  - rewrite Htrace.
    now destruct (batch_trace_views prompts (trace_of (batchLoop env prompts s w)))
      as (-> & _).
Qed.

(** C10.  With an empty prompt list the handler returns at once: no event,
    and the state (status, progress, error and scene list included) and the
    world are the ones it was called in. *)
Theorem empty_batch_is_noop (env : Env) (s : State.t) (w : World) :
  let r := handleGenerateScenes env [] s w in
  r = (tt, s, w, []) /\
  trace_of r = [] /\
  published (trace_of r) = [] /\
  State.status (final_state r) = State.status s /\
  State.progress (final_state r) = State.progress s /\
  State.error (final_state r) = State.error s /\
  State.scenes (final_state r) = State.scenes s.
Proof.
  cbv zeta. unfold handleGenerateScenes.
  cbn [length Nat.eqb]. unfold ret.
  cbn [trace_of final_state]. repeat split.
Qed.

(** The first scenario of the specification: with Alice in the library and
    nobody active, [Hello world] is skipped with an error and the tagged
    prompt makes the only scene. *)
Example hello_world_then_alice :
  let r := handleGenerateScenes sampleEnv [js "Hello world"; js "[Alice] Alice waves"]
             libraryState freshWorld in
  List.map GeneratedScene.prompt (State.scenes (final_state r)) =
    [js "[Alice] Alice waves"] /\
  State.error (final_state r) =
    Some (js "Failed to generate " ++ dquote ++ js "Hello world..." ++ dquote
             ++ js ": No character reference found for this scene.") /\
  State.status (final_state r) = IDLE /\
  State.progress (final_state r) = None.
Proof. vm_compute. repeat split. Qed.

(** ** Claims about the resolver *)

(** C2 as the specification states it fails: white space before the
    opening bracket hides the tag.  With nobody active, the prompt whose tag
    names a saved character resolves, and the same prompt behind one space
    does not. *)
Lemma leading_whitespace_hides_tag :
  tagMatch (js " [Alice] Alice waves") = None /\
  tagMatch (js "[Alice] Alice waves") = Some (js "Alice") /\
  resolveReferences sampleEnv INITIAL_CHARACTER [alice; bob; carol]
                    (js " [Alice] Alice waves") = Throw noReferenceMessage /\
  resolveReferences sampleEnv INITIAL_CHARACTER [alice; bob; carol]
                    (js "[Alice] Alice waves") =
    Ok [Reference.mk (js "Alice") (js "QUxJQ0U=")].
Proof. vm_compute. repeat split. Qed.

(** C2, amended.  A tag is recognized exactly when the very first character
    of the prompt is the opening bracket and a closing bracket follows it
    before any line terminator; its content is the text up to the first
    closing bracket.  A prompt that begins with a white space character has
    no recognized tag, whatever follows. *)
Theorem tag_recognized_only_at_first_character (prompt : jsstring) :
  (forall inner,
     tagMatch prompt = Some inner <->
     exists rest, prompt = 91 :: inner ++ 93 :: rest /\ Forall insideTag inner) /\
  (forall c rest,
     prompt = c :: rest -> isWhiteSpace c = true -> tagMatch prompt = None).
Proof.
  split.
  - intros inner. apply tagMatch_spec.
  - intros c rest -> Hws. now apply tagMatch_whitespace_first.
Qed.

Lemma tag_recognized_only_at_first_character_witness :
  tagMatch (js " [Alice] Alice waves") = None /\
  tagMatch (js "[Alice] Alice waves") = Some (js "Alice").
Proof.
  split.
  - apply (proj2 (tag_recognized_only_at_first_character (js " [Alice] Alice waves"))
                 32 (js "[Alice] Alice waves")); reflexivity.
  - apply (proj1 (tag_recognized_only_at_first_character (js "[Alice] Alice waves")))
          .
    exists (js " Alice waves"). split; [reflexivity|].
    repeat constructor; discriminate.
Defined.

(** C3 as the specification states it fails: a name written twice in the
    tag gives the same character twice. *)
Lemma repeated_name_repeats_reference :
  resolveReferences sampleEnv INITIAL_CHARACTER [alice; bob; carol]
                    (js "[Alice, alice] twins") =
    Ok [Reference.mk (js "Alice") (js "QUxJQ0U=");
        Reference.mk (js "Alice") (js "QUxJQ0U=")] /\
  ~ NoDup [Reference.mk (js "Alice") (js "QUxJQ0U=");
           Reference.mk (js "Alice") (js "QUxJQ0U=")].
Proof.
  split; [vm_compute; reflexivity|].
  intros H. apply NoDup_cons in H as [Hnotin _]. apply Hnotin. constructor.
Qed.

(** C3, amended.  For a prompt with a leading tag, the references found by
    the tag are, in the order of the tag, one per name that has a
    case-insensitive match whose first matching character (library first,
    then the active character when it has a name and an image) has an
    image; the other names leave nothing.  When that list is not empty it is
    the resolver's result; when it is empty the resolver falls back to the
    active character.  Names are not deduplicated: a character appears
    once per name that matches it, hence no character appears twice when no
    two names of the tag are the same up to case. *)
Theorem tagged_references_follow_tag (env : Env) (character : Character.t)
    (savedCharacters : list Character.t) (prompt inner : jsstring) :
  tagMatch prompt = Some inner ->
  let pool := allAvailable character savedCharacters in
  let names := tagNames inner in
  let references := taggedReferences env character savedCharacters prompt in
  Forall2 (RefersTo env pool) references (List.filter (hasImageFor env pool) names) /\
  (references <> [] ->
   resolveReferences env character savedCharacters prompt = Ok references) /\
  (references = [] ->
   resolveReferences env character savedCharacters prompt =
     match pushIfUsable character [] with
     | [] => Throw noReferenceMessage
     | fallback => Ok fallback
     end) /\
  (NoDup (List.map (toLowerCase env) names) ->
   NoDup (List.map (fun r => toLowerCase env (Reference.name r)) references)).
Proof.
  intros Htag. cbv zeta.
  rewrite (taggedReferences_tagged env character savedCharacters prompt inner Htag).
  pose proof (fold_pushFound_refers env (allAvailable character savedCharacters)
                (tagNames inner)) as Hrefers.
  split; [assumption|split; [|split]].
  - intros Hne.
    rewrite resolveReferences_of_list, resolvedReferences_cases,
      (taggedReferences_tagged env character savedCharacters prompt inner Htag).
    destruct (fold_left _ _ _); [contradiction|reflexivity].
  - intros Hempty.
    rewrite resolveReferences_of_list, resolvedReferences_cases,
      (taggedReferences_tagged env character savedCharacters prompt inner Htag), Hempty.
    reflexivity.
  - intros Hnodup.
    rewrite (refers_lower_names env _ _ _ Hrefers).
    eapply sublist_NoDup; [exact Hnodup|apply filter_fmap_sublist].
Qed.

Lemma tagged_references_follow_tag_witness :
  tagMatch (js "[bob, Zed, Carol, ALICE] a picnic") = Some (js "bob, Zed, Carol, ALICE") /\
  resolveReferences sampleEnv INITIAL_CHARACTER [alice; bob; carol]
                    (js "[bob, Zed, Carol, ALICE] a picnic") =
    Ok [Reference.mk (js "Bob") (js "Qk9C"); Reference.mk (js "Alice") (js "QUxJQ0U=")].
Proof.
  assert (Htag : tagMatch (js "[bob, Zed, Carol, ALICE] a picnic")
                 = Some (js "bob, Zed, Carol, ALICE")) by reflexivity.
  split; [exact Htag|].
  apply (proj1 (proj2 (tagged_references_follow_tag sampleEnv INITIAL_CHARACTER
                         [alice; bob; carol] _ _ Htag))).
  vm_compute. discriminate.
Defined.

(** C4.  For a prompt without a tag the resolver returns the active
    character alone when it has a non-empty name and a non-empty image, and
    throws otherwise.  Whenever the reference list is still empty after tag
    matching and fallback, the resolver throws; the iteration then records
    the error for that prompt and makes no remote call and no scene. *)
Theorem untagged_prompt_uses_active_character (env : Env) (character : Character.t)
    (savedCharacters : list Character.t) (total k : nat) (prompt : jsstring)
    (s : State.t) (w : World) :
  (tagMatch prompt = None ->
   (activeUsable character = true /\
    exists image,
      Character.baseImage character = Some image /\
      truthy image = true /\
      truthy (Character.name character) = true /\
      resolveReferences env character savedCharacters prompt =
        Ok [Reference.mk (Character.name character) image]) \/
   (activeUsable character = false /\
    resolveReferences env character savedCharacters prompt = Throw noReferenceMessage)) /\
  (resolvedReferences env character savedCharacters prompt = [] ->
   resolveReferences env character savedCharacters prompt = Throw noReferenceMessage /\
   processPrompt env character savedCharacters total k prompt s w =
     (tt,
      State.mk (State.character s) (State.scenes s) (State.status s)
               (Some (sceneErrorMessage prompt noReferenceMessage))
               (Some (GenerationProgress.mk (k + 1) total (Some prompt)))
               (State.savedCharacters s) (State.animatingSceneIds s),
      w,
      [SetProgress (Some (GenerationProgress.mk (k + 1) total (Some prompt)));
       SetError (Some (sceneErrorMessage prompt noReferenceMessage))])).
Proof.
  split.
  - intros Htag.
    rewrite resolveReferences_of_list, resolvedReferences_cases.
    unfold taggedReferences. rewrite Htag.
    destruct (pushIfUsable_nil character)
      as [(Husable & image & Himage & Ht1 & Ht2 & ->)|(Husable & ->)].
    + left. split; [assumption|]. exists image. repeat split; assumption.
    + right. split; [assumption|reflexivity].
  - intros Hempty.
    assert (Hthrow : resolveReferences env character savedCharacters prompt
                     = Throw noReferenceMessage).
    { rewrite resolveReferences_of_list. now rewrite Hempty. }
    split; [assumption|].
    now apply processPrompt_unresolved.
Qed.

Lemma untagged_prompt_uses_active_character_witness :
  resolveReferences sampleEnv alice [] (js "Hello world") =
    Ok [Reference.mk (js "Alice") (js "QUxJQ0U=")] /\
  resolveReferences sampleEnv INITIAL_CHARACTER [alice; bob; carol] (js "Hello world") =
    Throw noReferenceMessage.
Proof.
  split.
  - destruct (proj1 (untagged_prompt_uses_active_character sampleEnv alice []
                       1 0 (js "Hello world") aliceState freshWorld) eq_refl)
      as [(_ & image & Himage & _ & _ & Hok)|(Habsurd & _)].
    + injection Himage as <-. exact Hok.
    + discriminate Habsurd.
  - apply (proj2 (untagged_prompt_uses_active_character sampleEnv INITIAL_CHARACTER
                    [alice; bob; carol] 1 0 (js "Hello world") libraryState freshWorld)).
    reflexivity.
Defined.

(** ** Scene ids *)

Lemma uint_digits_inj (u v : Decimal.uint) : uint_digits u = uint_digits v -> u = v.
Proof.
  revert v. induction u as [|u IH|u IH|u IH|u IH|u IH|u IH|u IH|u IH|u IH|u IH];
    intros [|v|v|v|v|v|v|v|v|v|v]; simpl; try discriminate;
    try reflexivity; intros [= H]; f_equal; now apply IH.
Qed.

Lemma N_toString_inj (m n : N) : N_toString m = N_toString n -> m = n.
Proof.
  unfold N_toString. intros H. apply uint_digits_inj in H.
  rewrite <- (DecimalN.Unsigned.of_to m), <- (DecimalN.Unsigned.of_to n).
  now f_equal.
Qed.

(** Two ids minted from clock readings of the same width are equal only if
    the random suffixes are. *)
Lemma mintId_same_width (c1 c2 : N) (r1 r2 : jsstring) :
  length (N_toString c1) = length (N_toString c2) ->
  mintId c1 r1 = mintId c2 r2 ->
  slice_from 2 r1 = slice_from 2 r2.
Proof.
  unfold mintId. intros Hlen Heq.
  now apply (app_inj_1 _ _ _ _ Hlen) in Heq as [_ Heq].
Qed.

(** Within one clock reading, ids are equal exactly when the random
    suffixes are. *)
Lemma mintId_same_tick (c : N) (r1 r2 : jsstring) :
  mintId c r1 = mintId c r2 <-> slice_from 2 r1 = slice_from 2 r2.
Proof.
  split.
  - now apply mintId_same_width.
  - unfold mintId. now intros ->.
Qed.

Lemma MintedBefore_later (env : Env) (w w' : World) (s s' : State.t) :
  sceneIds s' = sceneIds s ->
  (random_draws w <= random_draws w')%nat ->
  MintedBefore env w s -> MintedBefore env w' s'.
Proof.
  unfold MintedBefore. intros -> Hle H.
  eapply Forall_impl; [exact H|]. cbv beta.
  intros id (c & r & Hr & ->). exists c, r. split; [lia|reflexivity].
Qed.

Section Minting.

Variable env : Env.
Hypothesis Hwidth : SameWidthClock env.
Hypothesis Hfresh : FreshDraws env.

(** A scene minted now differs in id from every scene minted before. *)
Lemma minted_now_is_new (w : World) (s : State.t) (prompt image : jsstring) :
  MintedBefore env w s ->
  GeneratedScene.id (mintedScene env prompt image w) ∉ sceneIds s.
Proof.
  unfold MintedBefore. intros Hbefore Hin.
  rewrite Forall_forall in Hbefore.
  destruct (Hbefore _ Hin) as (c & r & Hr & Heq).
  unfold mintedScene in Heq. cbn [GeneratedScene.id] in Heq.
  apply mintId_same_width in Heq; [|apply Hwidth].
  apply (Hfresh (random_draws w) r); [lia|assumption].
Qed.

(** The loop keeps the ids of the scene list pairwise different. *)
Lemma forPrompts_ids (character : Character.t) (savedCharacters : list Character.t)
    (total : nat) (prompts : list jsstring) (k : nat) (s : State.t) (w : World) :
  MintedBefore env w s ->
  NoDup (sceneIds s) ->
  let r := forPrompts env character savedCharacters total prompts k s w in
  MintedBefore env (final_world r) (final_state r) /\
  NoDup (sceneIds (final_state r)).
Proof.
  revert k s w. induction prompts as [|prompt rest IH]; intros k s w Hbefore Hnodup.
  - cbn. split; assumption.
  - cbv zeta. destruct (isBlank prompt) eqn:Hblank.
    + rewrite (forPrompts_blank env character savedCharacters total prompt rest k Hblank).
      now apply IH.
    + rewrite (forPrompts_work env character savedCharacters total prompt rest k Hblank).
      rewrite final_state_bind, final_world_bind.
      destruct (processPrompt_cases env character savedCharacters k prompt s w)
        as [(message & Hres) | [(references & message & Hres & Hcall)
                               | (references & image & Hres & Hcall)]].
      * rewrite (processPrompt_unresolved env character savedCharacters total
                   k prompt message s w Hres).
        cbn [final_state final_world value_of].
        apply IH; [|assumption].
        now apply (MintedBefore_later env w _ s).
      * rewrite (processPrompt_failed env character savedCharacters total
                   k prompt message references s w Hres Hcall).
        cbn [final_state final_world value_of].
        apply IH; [|assumption].
        now apply (MintedBefore_later env w _ s).
      * rewrite (processPrompt_succeeded env character savedCharacters total
                   k prompt image references s w Hres Hcall).
        cbn [final_state final_world value_of].
        apply IH.
        -- unfold MintedBefore, sceneIds. cbn [State.scenes random_draws].
           rewrite List.map_app. apply Forall_app. split.
           ++ eapply Forall_impl; [exact Hbefore|]. cbv beta.
              intros id (c & r & Hr & ->). exists c, r. split; [lia|reflexivity].
           ++ constructor; [|constructor].
              exists (clock_reads w), (random_draws w). split; [lia|reflexivity].
        -- unfold sceneIds. cbn [State.scenes]. rewrite List.map_app.
           apply NoDup_app. split; [assumption|]. split.
           ++ intros id Hin Hnew. apply list_elem_of_singleton in Hnew. subst id.
              now apply (minted_now_is_new w s prompt image Hbefore).
           ++ apply NoDup_singleton.
Qed.

End Minting.

(** C6 as the specification states it fails: when the random generator
    gives the same number twice within one millisecond, two scenes of the
    same batch get the same id. *)
Lemma repeated_draw_repeats_id :
  sceneIds (final_state (handleGenerateScenes repeatingEnv twoPrompts
                           libraryState freshWorld)) =
    [js "17000000000005"; js "17000000000005"] /\
  ~ NoDup (sceneIds (final_state (handleGenerateScenes repeatingEnv twoPrompts
                                    libraryState freshWorld))).
Proof.
  assert (Hids : sceneIds (final_state (handleGenerateScenes repeatingEnv twoPrompts
                                          libraryState freshWorld))
                 = [js "17000000000005"; js "17000000000005"])
    by (vm_compute; reflexivity).
  split; [exact Hids|]. rewrite Hids.
  intros H. apply NoDup_cons in H as [Hnotin _]. apply Hnotin. constructor.
Qed.

(** C6, amended.  An id is the clock reading followed by the digits of a
    random draw; nothing else keeps ids apart.  As long as the clock
    readings print with the same number of digits (in particular within one
    millisecond) and the random draws print different digits, a batch keeps
    the ids of the scene list pairwise different, however many scenes it
    makes; when two draws coincide, the ids may too. *)
Theorem scene_ids_unique_while_draws_differ (env : Env) (prompts : list jsstring)
    (s : State.t) (w : World) :
  SameWidthClock env ->
  FreshDraws env ->
  MintedBefore env w s ->
  NoDup (sceneIds s) ->
  let r := handleGenerateScenes env prompts s w in
  MintedBefore env (final_world r) (final_state r) /\
  NoDup (sceneIds (final_state r)).
Proof.
  intros Hwidth Hfresh Hbefore Hnodup. cbv zeta.
  destruct (list_eq_dec prompts []) as [->|Hne].
  - cbn. split; assumption.
  - destruct (handleGenerateScenes_run env prompts s w Hne) as (_ & Hstate & Hworld).
    rewrite Hstate, Hworld. unfold batchLoop.
    destruct (forPrompts_ids env Hwidth Hfresh (State.character s)
                (State.savedCharacters s) (length prompts) prompts 0
                (batchStartState prompts s) w) as [H1 H2].
    + now apply (MintedBefore_later env w w s).
    + assumption.
    + split.
      * eapply MintedBefore_later; [| |exact H1]; [reflexivity|lia].
      * exact H2.
Qed.

Lemma sampleEnv_same_width : SameWidthClock sampleEnv.
Proof. intros a b. reflexivity. Qed.

Lemma sampleEnv_fresh : FreshDraws sampleEnv.
Proof.
  intros i j Hne Heq. apply Hne.
  change (N_toString (2 * N.of_nat i + 1) = N_toString (2 * N.of_nat j + 1)) in Heq.
  apply N_toString_inj in Heq. lia.
Qed.

Lemma scene_ids_unique_while_draws_differ_witness :
  SameWidthClock sampleEnv /\
  FreshDraws sampleEnv /\
  MintedBefore sampleEnv freshWorld libraryState /\
  NoDup (sceneIds libraryState) /\
  NoDup (sceneIds (final_state (handleGenerateScenes sampleEnv samplePrompts
                                  libraryState freshWorld))).
Proof.
  assert (H3 : MintedBefore sampleEnv freshWorld libraryState) by constructor.
  assert (H4 : NoDup (sceneIds libraryState)) by constructor.
  split; [exact sampleEnv_same_width|].
  split; [exact sampleEnv_fresh|].
  split; [exact H3|]. split; [exact H4|].
  exact (proj2 (scene_ids_unique_while_draws_differ sampleEnv samplePrompts
                  libraryState freshWorld sampleEnv_same_width sampleEnv_fresh H3 H4)).
Defined.

(** ** The animation job tracker *)

Lemma capabilityCheck_run (aistudio : option Aistudio) (s : State.t) (w : World) :
  exists pre,
    capabilityCheck aistudio s w = (tt, s, w, pre) /\
    (pre = [] \/ pre = [OpenSelectKey]).
Proof.
  unfold capabilityCheck, emit, ret.
  destruct aistudio as [[[[|]|] [|]]|]; cbn; eauto.
Qed.

(** A job starts exactly for an id of the scene list the handler closed
    over. *)
Lemma animateStart_value (aistudio : option Aistudio) (sceneId : jsstring)
    (s : State.t) (w : World) :
  value_of (animateStart aistudio sceneId s w) =
  List.find (fun scene => str_eqb (GeneratedScene.id scene) sceneId) (State.scenes s).
Proof.
  unfold animateStart. rewrite value_bind. cbn [getState value_of final_state final_world].
  destruct (List.find _ _) as [scene|]; [|reflexivity].
  rewrite !value_bind. reflexivity.
Qed.

Lemma animateStart_started (aistudio : option Aistudio) (sceneId : jsstring)
    (scene : GeneratedScene.t) (s : State.t) (w : World) :
  value_of (animateStart aistudio sceneId s w) = Some scene ->
  exists pre,
    animateStart aistudio sceneId s w =
      (Some scene,
       State.mk (State.character s) (State.scenes s) (State.status s) (State.error s)
                (State.progress s) (State.savedCharacters s)
                (State.animatingSceneIds s ∪ {[sceneId]}),
       w, pre ++ [AddAnimating sceneId]) /\
    (pre = [] \/ pre = [OpenSelectKey]).
Proof.
  rewrite animateStart_value. intros Hfind.
  unfold animateStart, bind at 1, getState. rewrite Hfind.
  destruct (capabilityCheck_run aistudio s w) as (pre & Hrun & Hpre).
  exists pre. split; [|assumption].
  unfold bind. rewrite Hrun. unfold setAnimatingSceneIds, ret. cbn.
  reflexivity.
Qed.

Lemma animateStart_not_started (aistudio : option Aistudio) (sceneId : jsstring)
    (s : State.t) (w : World) :
  value_of (animateStart aistudio sceneId s w) = None ->
  animateStart aistudio sceneId s w = (None, s, w, []).
Proof.
  rewrite animateStart_value. intros Hfind.
  unfold animateStart, bind, getState. now rewrite Hfind.
Qed.

(** The states a job may pass through while it waits. *)
Lemma animateStart_animating (aistudio : option Aistudio) (sceneId : jsstring)
    (s : State.t) (w : World) :
  State.animatingSceneIds (final_state (animateStart aistudio sceneId s w)) =
    State.animatingSceneIds s \/
  State.animatingSceneIds (final_state (animateStart aistudio sceneId s w)) =
    State.animatingSceneIds s ∪ {[sceneId]}.
Proof.
  destruct (value_of (animateStart aistudio sceneId s w)) as [scene|] eqn:Hvalue.
  - destruct (animateStart_started aistudio sceneId scene s w Hvalue) as (pre & -> & _).
    now right.
  - rewrite (animateStart_not_started aistudio sceneId s w Hvalue). now left.
Qed.

(** Settling a job: the call's outcome, then the scene update or the
    error, then the removal from the animating set. *)
Lemma animateSettle_run (sceneId : jsstring) (scene : GeneratedScene.t)
    (result : Result jsstring) (s : State.t) (w : World) :
  animateSettle sceneId scene result s w =
  match result with
  | Ok videoUrl =>
      (tt,
       State.mk (State.character s) (withVideoUrl sceneId videoUrl (State.scenes s))
                (State.status s) (State.error s) (State.progress s)
                (State.savedCharacters s) (State.animatingSceneIds s ∖ {[sceneId]}),
       w,
       [CalledAnimateImage (GeneratedScene.imageData scene) (GeneratedScene.prompt scene)
                           (Ok videoUrl);
        SetVideoUrl sceneId videoUrl;
        DeleteAnimating sceneId])
  | Throw message =>
      (tt,
       State.mk (State.character s) (State.scenes s) (State.status s)
                (Some (js "Animation failed: " ++ message)) (State.progress s)
                (State.savedCharacters s) (State.animatingSceneIds s ∖ {[sceneId]}),
       w,
       [CalledAnimateImage (GeneratedScene.imageData scene) (GeneratedScene.prompt scene)
                           (Throw message);
        SetError (Some (js "Animation failed: " ++ message));
        DeleteAnimating sceneId])
  end.
Proof. destruct result; reflexivity. Qed.

Lemma animateSettle_last (sceneId : jsstring) (scene : GeneratedScene.t)
    (result : Result jsstring) (s : State.t) (w : World) :
  (sceneId ∉ State.animatingSceneIds
               (final_state (animateSettle sceneId scene result s w))) /\
  last (trace_of (animateSettle sceneId scene result s w)) = Some (DeleteAnimating sceneId).
Proof.
  rewrite animateSettle_run.
  destruct result; cbn; (split; [|reflexivity]);
    intros [_ Hnot]%elem_of_difference; apply Hnot, elem_of_singleton; reflexivity.
Qed.

(** A batch does not touch the animating set. *)
Lemma handleGenerateScenes_animating (env : Env) (prompts : list jsstring)
    (s : State.t) (w : World) :
  State.animatingSceneIds (final_state (handleGenerateScenes env prompts s w)) =
  State.animatingSceneIds s.
Proof.
  destruct (list_eq_dec prompts []) as [->|Hne]; [reflexivity|].
  destruct (handleGenerateScenes_run env prompts s w Hne) as (_ & -> & _).
  cbn [State.animatingSceneIds]. unfold batchLoop.
  now destruct (forPrompts_frame env (State.character s) (State.savedCharacters s)
                  (length prompts) prompts 0 (batchStartState prompts s) w)
    as (_ & _ & _ & ->).
Qed.

(** The steps of other handlers keep a pending job's id in the set. *)
Lemma OtherStep_keeps (env : Env) (sceneId : jsstring) (s : State.t) (w : World)
    (s' : State.t) (w' : World) :
  OtherStep env sceneId s w s' w' ->
  sceneId ∈ State.animatingSceneIds s ->
  sceneId ∈ State.animatingSceneIds s'.
Proof.
  intros Hstep Hin. destruct Hstep as [aistudio other s w|other scene result s w Hne|prompts s w].
  - destruct (animateStart_animating aistudio other s w) as [->| ->]; set_solver.
  - rewrite animateSettle_run. destruct result; cbn; set_solver.
  - now rewrite handleGenerateScenes_animating.
Qed.

Lemma OtherSteps_keep (env : Env) (sceneId : jsstring) (s : State.t) (w : World)
    (s' : State.t) (w' : World) :
  OtherSteps env sceneId s w s' w' ->
  sceneId ∈ State.animatingSceneIds s ->
  sceneId ∈ State.animatingSceneIds s'.
Proof.
  induction 1 as [|s w s1 w1 s2 w2 Hstep _ IH]; [easy|].
  intros Hin. apply IH. now apply (OtherStep_keeps env sceneId s w s1 w1).
Qed.

(** The ways [animateImage] ends once the operation is done. *)
Lemma animateCompleted_exits (remote : VideoRemote) (operation : Operation) :
  (exists message,
     operation_error operation = Some message /\
     animateCompleted remote operation = Throw (animationFailedMessage message)) \/
  (operation_error operation = None /\ truthy_opt (video_uri operation) = false /\
   animateCompleted remote operation = Throw noVideoUriMessage) \/
  (exists downloadLink,
     operation_error operation = None /\ video_uri operation = Some downloadLink /\
     truthy downloadLink = true /\
     match fetch remote (downloadLink ++ js "&key=" ++ API_KEY remote) with
     | Fulfilled response =>
         if ok response
         then match objectURL response with
              | Fulfilled videoUrl => animateCompleted remote operation = Ok videoUrl
              | Rejected message =>
                  animateCompleted remote operation =
                    Throw (message_or message (js "Failed to animate scene"))
              end
         else animateCompleted remote operation = Throw videoDownloadFailedMessage
     | Rejected message =>
         animateCompleted remote operation =
           Throw (message_or message (js "Failed to animate scene"))
     end).
Proof.
  unfold animateCompleted.
  destruct (operation_error operation) as [message|].
  - left. exists message. split; reflexivity.
  - right. destruct (video_uri operation) as [downloadLink|]; cbn.
    + destruct (truthy downloadLink) eqn:Hlink.
      * right. exists downloadLink. repeat split; try assumption.
        destruct (fetch remote _) as [response|message]; [|reflexivity].
        destruct (ok response); [|reflexivity].
        now destruct (objectURL response).
      * left. repeat split.
    + left. repeat split.
Qed.

Lemma pollUntilDone_done (operation : Operation) (answers : list (Awaited Operation)) :
  done operation = true ->
  pollUntilDone operation answers = Some (Fulfilled operation).
Proof. intros H. destruct answers; cbn; now rewrite H. Qed.

(** The polling loop ends as soon as an answer says [done] or throws. *)
Lemma pollUntilDone_settles (operation : Operation) (answers : list (Awaited Operation)) :
  Exists (fun answer =>
            match answer with
            | Fulfilled operation' => done operation' = true
            | Rejected _ => True
            end) answers ->
  exists outcome, pollUntilDone operation answers = Some outcome.
Proof.
  intros Hex. revert operation.
  induction Hex as [answer answers Hdone|answer answers _ IH]; intros operation;
    cbn; destruct (done operation) eqn:E; eauto.
  - destruct answer as [operation'|message]; eauto.
    rewrite pollUntilDone_done; eauto.
  - destruct answer as [operation'|message]; eauto.
Qed.

(** [animateStart] is its two halves, one after the other. *)
Lemma animateStart_halves (aistudio : option Aistudio) (sceneId : jsstring)
    (s : State.t) (w : World) :
  animateStart aistudio sceneId s w =
  (found <~ animateLookup sceneId ;;
   match found with
   | None => ret None
   | Some scene => animateEnter aistudio sceneId ;;; ret (Some scene)
   end) s w.
Proof.
  unfold animateStart, animateLookup, animateEnter, bind at 1 4 5, getState, ret.
  destruct (List.find _ _) as [scene|]; [|reflexivity].
  destruct (capabilityCheck_run aistudio s w) as (pre & Hrun & _).
  unfold bind. rewrite Hrun. unfold setAnimatingSceneIds. cbn [app].
  now rewrite !app_nil_r.
Qed.

(** C7 as the specification states it fails when two jobs on one scene
    overlap.  The button of a scene is disabled only once the id is in the
    set, and the id joins the set only after the capability check was
    awaited.  Here the button of the sample scene is clicked twice while the
    answer to the first check is outstanding: both clicks find the button
    enabled and the scene in the list, and both jobs add the id.  The video
    of the first job arrives and its [finally] removes the id, while the
    second job is still polling: that job is pending and its id is not in
    the set. *)
Lemma overlapping_jobs_drop_id :
  let studio := Some {| hasSelectedApiKey := Some true; openSelectKey := true |} in
  let sceneId := js "17000000000001" in
  let waiting := {| done := false; operation_error := None; video_uri := None |} in
  let ready := {| done := true; operation_error := None;
                  video_uri := Some (js "https://v/1?a=b") |} in
  let firstRemote :=
    sampleVideoRemote ready
      (Fulfilled {| ok := true; objectURL := Fulfilled (js "blob:video") |}) in
  let secondRemote :=
    {| generateVideos := fun _ => Fulfilled waiting;
       getVideosOperation := [Fulfilled waiting];
       fetch := fun _ => Rejected None;
       API_KEY := js "k" |} in
  let click1 := animateLookup sceneId galleryState freshWorld in
  let click2 := animateLookup sceneId (final_state click1) (final_world click1) in
  let enter1 := animateEnter studio sceneId (final_state click2) (final_world click2) in
  let enter2 := animateEnter studio sceneId (final_state enter1) (final_world enter1) in
  let settle1 :=
    animateSettle sceneId sampleScene (Ok (js "blob:video"))
                  (final_state enter2) (final_world enter2) in
  capabilityCheckAwaits studio = true /\
  (animateButtonEnabled galleryState sampleScene = true /\
   value_of click1 = Some sampleScene) /\
  (animateButtonEnabled (final_state click1) sampleScene = true /\
   value_of click2 = Some sampleScene) /\
  sceneId ∈ State.animatingSceneIds (final_state enter2) /\
  animateImage firstRemote (GeneratedScene.imageData sampleScene)
               (GeneratedScene.prompt sampleScene) = Some (Ok (js "blob:video")) /\
  animateImage secondRemote (GeneratedScene.imageData sampleScene)
               (GeneratedScene.prompt sampleScene) = None /\
  sceneId ∉ State.animatingSceneIds (final_state settle1).
Proof.
  cbv zeta.
  assert (Henabled : animateButtonEnabled galleryState sampleScene = true).
  { unfold animateButtonEnabled, galleryState, sampleScene.
    cbn [GeneratedScene.videoUrl GeneratedScene.id State.animatingSceneIds andb].
    rewrite bool_decide_eq_false_2; [reflexivity|apply not_elem_of_empty]. }
  split; [reflexivity|].
  split; [split; [exact Henabled|reflexivity]|].
  split; [split; [exact Henabled|reflexivity]|].
  split.
  { unfold animateEnter at 1.
    rewrite final_state_bind.
    unfold setAnimatingSceneIds. cbn [final_state State.animatingSceneIds].
    apply elem_of_union_r, elem_of_singleton. reflexivity. }
  split; [vm_compute; reflexivity|].
  split; [vm_compute; reflexivity|].
  apply animateSettle_last.
Qed.

(** C7, amended.  When a job starts for a scene id, the id is added to the
    animating set as the last thing before the await; it stays in the set
    while other handlers run, as long as no job on the same scene settles:
    jobs starting for any scene, jobs of other scenes settling, scene
    batches; and however the awaited call ends, with a video or with any
    thrown error, the last event of the handler is the removal of the id,
    after which the id is not in the set.  Run on its own, the handler ends
    settled as soon as [animateImage] returns, and is pending with the id in
    the set as long as the remote has not said [done]. *)
Theorem animating_set_brackets_job (env : Env) (aistudio : option Aistudio)
    (sceneId : jsstring) (scene : GeneratedScene.t) (s : State.t) (w : World) :
  value_of (animateStart aistudio sceneId s w) = Some scene ->
  let started := animateStart aistudio sceneId s w in
  (sceneId ∈ State.animatingSceneIds (final_state started) /\
   last (trace_of started) = Some (AddAnimating sceneId)) /\
  (forall s1 w1,
     OtherSteps env sceneId (final_state started) (final_world started) s1 w1 ->
     sceneId ∈ State.animatingSceneIds s1) /\
  (forall s1 w1 result,
     (sceneId ∉ State.animatingSceneIds
                  (final_state (animateSettle sceneId scene result s1 w1))) /\
     last (trace_of (animateSettle sceneId scene result s1 w1)) =
       Some (DeleteAnimating sceneId)) /\
  (forall remote,
     let r := handleAnimateScene aistudio remote sceneId s w in
     match animateImage remote (GeneratedScene.imageData scene)
                        (GeneratedScene.prompt scene) with
     | None =>
         value_of r = Pending /\ sceneId ∈ State.animatingSceneIds (final_state r)
     | Some result =>
         value_of r = Settled /\
         (sceneId ∉ State.animatingSceneIds (final_state r)) /\
         last (trace_of r) = Some (DeleteAnimating sceneId)
     end).
Proof.
  intros Hstarted. cbv zeta.
  destruct (animateStart_started aistudio sceneId scene s w Hstarted)
    as (pre & Hrun & Hpre).
  assert (Hin : sceneId ∈ State.animatingSceneIds
                           (final_state (animateStart aistudio sceneId s w))).
  { rewrite Hrun. cbn. apply elem_of_union_r, elem_of_singleton. reflexivity. }
  split; [|split; [|split]].
  - split; [assumption|]. rewrite Hrun. cbn. apply last_snoc.
  - intros s1 w1 Hsteps. now apply (OtherSteps_keep env sceneId _ _ s1 w1 Hsteps).
  - intros s1 w1 result. apply animateSettle_last.
  - intros remote. unfold handleAnimateScene.
    rewrite value_bind, final_state_bind, trace_bind, Hstarted.
    destruct (animateImage remote _ _) as [result|].
    + rewrite value_bind, final_state_bind, trace_bind.
      destruct (animateSettle_last sceneId scene result
                  (final_state (animateStart aistudio sceneId s w))
                  (final_world (animateStart aistudio sceneId s w))) as [Hout Hlast].
      split; [reflexivity|]. split; [exact Hout|].
      cbn [ret trace_of]. rewrite app_nil_r, last_app, Hlast. reflexivity.
    + cbn [ret value_of final_state]. split; [reflexivity|assumption].
Qed.

(** C7 on the sample gallery: the remote operation ends with its error
    field set. *)
Lemma animating_set_brackets_job_witness :
  let failed := {| done := true; operation_error := Some (Some (js "blocked"));
                   video_uri := None |} in
  let r := handleAnimateScene None (sampleVideoRemote failed (Rejected None))
             (js "17000000000001") galleryState freshWorld in
  value_of (animateStart None (js "17000000000001") galleryState freshWorld)
    = Some sampleScene /\
  value_of r = Settled /\
  (js "17000000000001" ∉ State.animatingSceneIds (final_state r)) /\
  last (trace_of r) = Some (DeleteAnimating (js "17000000000001")).
Proof.
  cbv zeta.
  assert (Hstarted : value_of (animateStart None (js "17000000000001")
                                 galleryState freshWorld) = Some sampleScene)
    by reflexivity.
  split; [exact Hstarted|].
  exact (proj2 (proj2 (proj2
           (animating_set_brackets_job sampleEnv None (js "17000000000001") sampleScene
              galleryState freshWorld Hstarted)))
           (sampleVideoRemote {| done := true;
                                 operation_error := Some (Some (js "blocked"));
                                 video_uri := None |} (Rejected None))).
Defined.

Lemma withVideoUrl_lookup (sceneId videoUrl : jsstring) (prev : list GeneratedScene.t)
    (i : nat) (scene : GeneratedScene.t) :
  prev !! i = Some scene ->
  withVideoUrl sceneId videoUrl prev !! i =
    Some (if str_eqb (GeneratedScene.id scene) sceneId
          then GeneratedScene.mk (GeneratedScene.id scene) (GeneratedScene.prompt scene)
                                 (GeneratedScene.imageData scene)
                                 (GeneratedScene.timestamp scene) (Some videoUrl)
          else scene).
Proof.
  intros Hlookup. unfold withVideoUrl.
  change (List.map ?f prev) with (f <$> prev).
  now rewrite list_lookup_fmap, Hlookup.
Qed.

(** C8.  When the job of scene id [sceneId] succeeds, the scene list keeps
    its length and its order; every scene keeps its id, prompt, image and
    timestamp; a scene with that id gets the video URL; every other scene is
    the scene it was; and the character, the library, the status, the error
    and the progress are the ones before. *)
Theorem animation_success_sets_only_video_url (sceneId videoUrl : jsstring)
    (scene : GeneratedScene.t) (s : State.t) (w : World) :
  let s' := final_state (animateSettle sceneId scene (Ok videoUrl) s w) in
  length (State.scenes s') = length (State.scenes s) /\
  (forall i before,
     State.scenes s !! i = Some before ->
     exists after,
       State.scenes s' !! i = Some after /\
       GeneratedScene.id after = GeneratedScene.id before /\
       GeneratedScene.prompt after = GeneratedScene.prompt before /\
       GeneratedScene.imageData after = GeneratedScene.imageData before /\
       GeneratedScene.timestamp after = GeneratedScene.timestamp before /\
       (GeneratedScene.id before = sceneId ->
        GeneratedScene.videoUrl after = Some videoUrl) /\
       (GeneratedScene.id before <> sceneId -> after = before)) /\
  State.character s' = State.character s /\
  State.savedCharacters s' = State.savedCharacters s /\
  State.status s' = State.status s /\
  State.error s' = State.error s /\
  State.progress s' = State.progress s.
Proof.
  cbv zeta. rewrite animateSettle_run. cbn [final_state State.scenes State.character
    State.savedCharacters State.status State.error State.progress].
  split; [|split; [|repeat split]].
  - unfold withVideoUrl. apply length_map.
  - intros i before Hlookup.
    rewrite (withVideoUrl_lookup sceneId videoUrl _ i before Hlookup).
    eexists. split; [reflexivity|].
    destruct (str_eqb (GeneratedScene.id before) sceneId) eqn:Heq.
    + apply str_eqb_eq in Heq. cbn. repeat split. intros Hne. contradiction.
    + apply str_eqb_neq in Heq. repeat split. intros Habsurd. contradiction.
Qed.

Lemma animation_success_sets_only_video_url_witness :
  let s' := final_state (animateSettle (js "17000000000001") sampleScene
                           (Ok (js "blob:video")) galleryState freshWorld) in
  State.scenes galleryState !! 1%nat = Some otherScene /\
  State.scenes s' !! 1%nat = Some otherScene /\
  length (State.scenes s') = 2%nat.
Proof.
  cbv zeta.
  assert (Hlookup : State.scenes galleryState !! 1%nat = Some otherScene) by reflexivity.
  split; [exact Hlookup|].
  pose proof (animation_success_sets_only_video_url (js "17000000000001")
                (js "blob:video") sampleScene galleryState freshWorld) as Hthm.
  cbv zeta in Hthm. destruct Hthm as (Hlen & Hscenes & _).
  split; [|exact Hlen].
  destruct (Hscenes 1%nat otherScene Hlookup) as (after & Hafter & _ & _ & _ & _ & _ & Hsame).
  rewrite Hafter. f_equal. apply Hsame. discriminate.
Defined.

(** ** [analyzeScript] *)

Lemma slice_to_length (n : nat) (s : jsstring) : (length (slice_to n s) <= n)%nat.
Proof. unfold slice_to. rewrite length_take. lia. Qed.

Lemma analyzeRequest_slice (scriptText scriptText' : jsstring)
    (knownCharacters : list jsstring) :
  scriptSent scriptText' = scriptSent scriptText ->
  analyzeRequest scriptText' knownCharacters = analyzeRequest scriptText knownCharacters.
Proof. unfold analyzeRequest, analyzeUserPrompt. now intros ->. Qed.

(** C9 as the specification states it fails: an answer that is not JSON
    makes [analyzeScript] throw; it does not return the empty list. *)
Lemma unparseable_answer_throws :
  JSON_parse (js "oops") = None /\
  analyzeScript (fun _ => Resolves None (Some (js "oops"))) sampleSyntaxError
                (js "Once upon a time") [js "Alice"] =
    Throw (js "Unexpected token in JSON") /\
  analyzeScript (fun _ => Resolves None (Some (js "oops"))) sampleSyntaxError
                (js "Once upon a time") [js "Alice"] <> Ok (JArray []).
Proof.
  assert (H : analyzeScript (fun _ => Resolves None (Some (js "oops"))) sampleSyntaxError
                (js "Once upon a time") [js "Alice"] = Throw (js "Unexpected token in JSON"))
    by (vm_compute; reflexivity).
  split; [vm_compute; reflexivity|]. split; [exact H|]. rewrite H. discriminate.
Qed.

(** C9, amended.  The request carries the fixed preamble followed by the
    first 100,000 UTF-16 code units of the script and nothing else of it, so
    that scripts that agree on those have the same result.  When the answer
    has no text or an empty text the result is the empty list; when the text
    is JSON the result is its value; when the text is not JSON, the
    [SyntaxError] of [JSON.parse] is caught and thrown again as an [Error]
    with the same message (or [Failed to analyze script] when that message
    is empty), as is any error of the remote call. *)
Theorem analyze_truncates_and_rethrows (remote : ContentRequest -> ContentResponse)
    (syntaxErrorMessage : jsstring -> jsstring)
    (scriptText : jsstring) (knownCharacters : list jsstring) :
  let request := analyzeRequest scriptText knownCharacters in
  let result := analyzeScript remote syntaxErrorMessage scriptText knownCharacters in
  (req_parts request = [Text (analyzePreamble knownCharacters ++ scriptSent scriptText)] /\
   scriptSent scriptText = take 100000 scriptText /\
   (length (scriptSent scriptText) <= 100000)%nat) /\
  (forall scriptText',
     take 100000 scriptText' = take 100000 scriptText ->
     analyzeScript remote syntaxErrorMessage scriptText' knownCharacters = result) /\
  (forall parts text,
     remote request = Resolves parts text ->
     truthy_opt text = false ->
     result = Ok (JArray [])) /\
  (forall parts text value,
     remote request = Resolves parts (Some text) ->
     truthy text = true ->
     JSON_parse text = Some value ->
     result = Ok value) /\
  (forall parts text,
     remote request = Resolves parts (Some text) ->
     truthy text = true ->
     JSON_parse text = None ->
     result = Throw (message_or (Some (syntaxErrorMessage text))
                                (js "Failed to analyze script"))) /\
  (forall message,
     remote request = Rejects message ->
     result = Throw (message_or message (js "Failed to analyze script"))).
Proof.
  cbv zeta. unfold analyzeScript.
  split; [|split; [|split; [|split; [|split]]]].
  - split; [reflexivity|]. split; [reflexivity|]. apply slice_to_length.
  - intros scriptText' Hsame.
    now rewrite (analyzeRequest_slice scriptText scriptText' knownCharacters Hsame).
  - intros parts text -> Hfalsy. unfold analyzeResult.
    destruct text as [text|]; [|reflexivity].
    cbn in Hfalsy. now rewrite Hfalsy.
  - intros parts text value -> Htruthy Hparse. unfold analyzeResult.
    now rewrite Htruthy, Hparse.
  - intros parts text -> Htruthy Hparse. unfold analyzeResult.
    now rewrite Htruthy, Hparse.
  - intros message ->. reflexivity.
Qed.

Lemma analyze_truncates_and_rethrows_witness :
  let remote := fun _ : ContentRequest => Resolves None (Some (js "oops")) in
  remote (analyzeRequest (js "Once upon a time") [js "Alice"])
    = Resolves None (Some (js "oops")) /\
  truthy (js "oops") = true /\
  JSON_parse (js "oops") = None /\
  analyzeScript remote sampleSyntaxError (js "Once upon a time") [js "Alice"] =
    Throw (message_or (Some (sampleSyntaxError (js "oops")))
                      (js "Failed to analyze script")).
Proof.
  cbv zeta.
  assert (Hparse : JSON_parse (js "oops") = None) by (vm_compute; reflexivity).
  split; [reflexivity|]. split; [reflexivity|]. split; [exact Hparse|].
  exact (proj1 (proj2 (proj2 (proj2 (proj2
           (analyze_truncates_and_rethrows
              (fun _ : ContentRequest => Resolves None (Some (js "oops")))
              sampleSyntaxError (js "Once upon a time") [js "Alice"])))))
           None (js "oops") eq_refl eq_refl Hparse).
Defined.

(** ** The caller of the orchestrator *)

(** [handleSubmit] never hands a blank entry to the orchestrator. *)
Lemma submittedPrompts_not_blank (mode : InputMode) (promptInput : jsstring)
    (prompts : list jsstring) :
  submittedPrompts mode promptInput = Some prompts ->
  prompts <> [] /\ Forall (fun p => isBlank p = false) prompts.
Proof.
  unfold submittedPrompts. destruct mode; [| |discriminate].
  - destruct (truthy (trim promptInput)) eqn:Htrim; [|discriminate].
    intros [= <-]. split; [discriminate|].
    constructor; [|constructor]. unfold isBlank. now rewrite Htrim.
  - destruct (0 <? length _)%nat eqn:Hlen; [|discriminate].
    intros [= <-]. split.
    + intros Hnil. rewrite Hnil in Hlen. discriminate.
    + apply Forall_forall. intros p Hin.
      apply list_elem_of_In, List.filter_In in Hin as [Hin Hlong].
      apply List.in_map_iff in Hin as (line & <- & _).
      unfold isBlank. rewrite trim_fixed.
      destruct (trim line); [discriminate|reflexivity].
Qed.

(** What [handleSubmit] hands over are the entries that are not blank, in
    their order, up to the trimming of batch mode. *)
Lemma filter_long_trimmed (lines : list jsstring) :
  List.filter (fun p => (0 <? length p)%nat) (List.map trim lines) =
  List.map trim (List.filter notBlank lines).
Proof.
  induction lines as [|line lines IH]; [reflexivity|].
  cbn [List.map List.filter]. rewrite IH. unfold notBlank, isBlank.
  destruct (trim line) eqn:Htrim; cbn [truthy negb length Nat.ltb Nat.leb];
    [reflexivity|].
  cbn [List.map]. now rewrite Htrim.
Qed.

Lemma submittedPrompts_entered (mode : InputMode) (promptInput : jsstring)
    (prompts : list jsstring) :
  submittedPrompts mode promptInput = Some prompts ->
  List.map trim prompts =
    List.map trim (List.filter notBlank (enteredPrompts mode promptInput)).
Proof.
  unfold submittedPrompts, enteredPrompts. destruct mode; [| |discriminate].
  - cbn [List.filter]. unfold notBlank, isBlank.
    destruct (truthy (trim promptInput)); [|discriminate].
    now intros [= <-].
  - destruct (0 <? length _)%nat; [|discriminate].
    intros [= <-]. rewrite filter_long_trimmed, List.map_map.
    apply List.map_ext. intros line. apply trim_fixed.
Qed.

(** The progress values of a loop over entries none of which is blank: one
    per entry, numbered from [completedCount + 1]. *)
Lemma BatchTrace_published (total k : nat) (prompts : list jsstring) (tr : list Event) :
  BatchTrace total k prompts tr ->
  Forall (fun p => isBlank p = false) prompts ->
  published tr =
    imap (fun index prompt =>
            GenerationProgress.mk (k + index + 1) total (Some prompt)) prompts.
Proof.
  induction 1 as [k|k prompt rest tr Hblank _ _|k prompt rest work tr Hblank Hwork _ IH];
    intros Hall.
  - reflexivity.
  - inversion Hall; subst. congruence.
  - inversion Hall as [|? ? _ Hrest]; subst.
    rewrite imap_cons, Nat.add_0_r.
    change (published (SetProgress (Some ?g) :: ?rest)) with (g :: published rest).
    rewrite published_app, (WorkOn_published prompt work Hwork), (IH Hrest).
    cbn [app]. f_equal. apply imap_ext. intros index p _. cbn.
    f_equal. lia.
Qed.

(** C5.  A batch may be entered with blank lines; [handleSubmit] drops them
    (and nothing else) before it hands the list to [handleGenerateScenes],
    so for every list the handler is called with, the [total] of every
    progress value published is the number of entries that are not blank.
    The first value published is [{current: 0, total}]; then each prompt,
    at index [index] of the list handed over, has
    [{current: index + 1, total, currentPrompt}] published, and the trace
    has it before all work on that prompt. *)
Theorem progress_total_counts_nonblank_entries (env : Env) (mode : InputMode)
    (promptInput : jsstring) (prompts : list jsstring) (s : State.t) (w : World) :
  submittedPrompts mode promptInput = Some prompts ->
  let r := handleGenerateScenes env prompts s w in
  let total := length (List.filter notBlank (enteredPrompts mode promptInput)) in
  List.map trim prompts =
    List.map trim (List.filter notBlank (enteredPrompts mode promptInput)) /\
  (Forall (fun p => isBlank p = false) prompts /\
   length (List.filter notBlank prompts) = total) /\
  published (trace_of r) =
    GenerationProgress.mk 0 total None ::
    imap (fun index prompt => GenerationProgress.mk (index + 1) total (Some prompt))
         prompts /\
  (exists tr,
     trace_of r = batchPrologue prompts ++ tr ++ batchEpilogue /\
     BatchTrace total 0 prompts tr).
Proof.
  intros Hsubmit. cbv zeta.
  pose proof (submittedPrompts_entered mode promptInput prompts Hsubmit) as Hentered.
  destruct (submittedPrompts_not_blank mode promptInput prompts Hsubmit) as [Hne Hall].
  assert (Htotal : length (List.filter notBlank (enteredPrompts mode promptInput))
                   = length prompts).
  { apply (f_equal (@length jsstring)) in Hentered.
    now rewrite !length_map in Hentered. }
  rewrite Htotal.
  destruct (batch_progress_shape env prompts s w Hne) as ((tr & Htrace & Hshape) & Hpublished).
  split; [exact Hentered|]. split.
  { split; [exact Hall|]. apply filter_all_length.
    eapply Forall_impl; [exact Hall|]. cbv beta. unfold notBlank.
    intros p Hp. now rewrite Hp. }
  split.
  - rewrite Hpublished. f_equal.
    pose proof (forPrompts_trace env (State.character s) (State.savedCharacters s)
                  (length prompts) prompts 0 (batchStartState prompts s) w) as Hloop.
    exact (BatchTrace_published _ _ _ _ Hloop Hall).
  - exists tr. split; assumption.
Qed.

(** C5 on a batch box of three lines, the second of which is blank. *)
Lemma progress_total_counts_nonblank_entries_witness :
  let prompts := [js "Hello world"; js "[Alice] Alice waves"] in
  let r := handleGenerateScenes sampleEnv prompts libraryState freshWorld in
  submittedPrompts batch (js "Hello world" ++ nl ++ js "  " ++ nl ++ js "[Alice] Alice waves")
    = Some prompts /\
  published (trace_of r) =
    [GenerationProgress.mk 0 2 None;
     GenerationProgress.mk 1 2 (Some (js "Hello world"));
     GenerationProgress.mk 2 2 (Some (js "[Alice] Alice waves"))].
Proof.
  cbv zeta.
  assert (Hsubmit : submittedPrompts batch
                      (js "Hello world" ++ nl ++ js "  " ++ nl ++ js "[Alice] Alice waves")
                    = Some [js "Hello world"; js "[Alice] Alice waves"])
    by (vm_compute; reflexivity).
  split; [exact Hsubmit|].
  exact (proj1 (proj2 (proj2
           (progress_total_counts_nonblank_entries sampleEnv batch _ _
              libraryState freshWorld Hsubmit)))).
Defined.

(* ===================================================================== *)
(** * Part III: the rest of the code                                      *)
(* ===================================================================== *)

(** ** The character store *)

Lemma str_compare_eq (a b : jsstring) : str_compare a b = Eq <-> a = b.
Proof.
  revert b. induction a as [|x a IH]; intros [|y b]; simpl; split; try easy.
  - destruct (N.compare_spec x y) as [->| |]; try discriminate.
    intros H. apply IH in H. now subst.
  - intros [= -> ->]. rewrite N.compare_refl. now apply IH.
Qed.

Lemma str_compare_refl (a : jsstring) : str_compare a a = Eq.
Proof. now apply str_compare_eq. Qed.

Lemma str_compare_trans (a b c : jsstring) :
  str_compare a b = Lt -> str_compare b c = Lt -> str_compare a c = Lt.
Proof.
  revert b c. induction a as [|x a IH]; intros [|y b] [|z c]; simpl; try easy.
  destruct (N.compare_spec x y) as [->| |]; try discriminate.
  - destruct (N.compare_spec y z) as [->| |]; try discriminate; [apply IH|easy].
  - intros _. destruct (N.compare_spec y z) as [->| |]; try discriminate.
    + intros _. destruct (N.compare_spec x z); [lia|reflexivity|lia].
    + intros _. destruct (N.compare_spec x z); [lia|reflexivity|lia].
Qed.

Lemma str_eqb_compare (a b : jsstring) :
  str_eqb a b = match str_compare a b with Eq => true | _ => false end.
Proof.
  destruct (str_compare a b) eqn:E.
  - apply str_compare_eq in E. subst. apply str_eqb_refl.
  - apply str_eqb_neq. intros ->. rewrite str_compare_refl in E. discriminate.
  - apply str_eqb_neq. intros ->. rewrite str_compare_refl in E. discriminate.
Qed.

Lemma StoreOk_inv (record : Character.t) (store : Store) :
  StoreOk (record :: store) ->
  StoreOk store /\
  Forall (fun r => str_compare (Character.id record) (Character.id r) = Lt) store.
Proof. intros H. now apply StronglySorted_inv in H. Qed.

(** The keys of a store are pairwise different. *)
Lemma StoreOk_NoDup (store : Store) :
  StoreOk store -> NoDup (List.map Character.id store).
Proof.
  induction store as [|record store IH]; intros Hok; [constructor|].
  apply StoreOk_inv in Hok as [Hok Hlt]. cbn. constructor; [|now apply IH].
  intros Hin. apply list_elem_of_In, List.in_map_iff in Hin as (r & Hid & Hr).
  rewrite Forall_forall in Hlt. apply list_elem_of_In in Hr.
  specialize (Hlt r Hr). rewrite Hid, str_compare_refl in Hlt. discriminate.
Qed.

Lemma storePut_Forall (P : Character.t -> Prop) (character : Character.t) (store : Store) :
  P character -> Forall P store -> Forall P (storePut character store).
Proof.
  intros Hc. induction 1 as [|record store Hr Hall IH]; cbn.
  - now repeat constructor.
  - destruct (str_compare _ _); repeat constructor; assumption.
Qed.

Lemma storePut_ok (character : Character.t) (store : Store) :
  StoreOk store -> StoreOk (storePut character store).
Proof.
  induction store as [|record store IH]; intros Hok; cbn.
  - repeat constructor.
  - apply StoreOk_inv in Hok as Hinv. destruct Hinv as [Hrest Hlt].
    destruct (str_compare (Character.id character) (Character.id record)) eqn:E.
    + apply str_compare_eq in E. constructor; [assumption|]. now rewrite E.
    + constructor; [assumption|]. constructor; [assumption|].
      eapply Forall_impl; [exact Hlt|]. cbv beta. intros r Hr.
      now apply (str_compare_trans _ (Character.id record)).
    + constructor; [now apply IH|].
      apply storePut_Forall; [|assumption].
      destruct (str_compare (Character.id record) (Character.id character)) eqn:E'.
      * apply str_compare_eq in E'. rewrite E', str_compare_refl in E. discriminate.
      * reflexivity.
      * exfalso. clear -E E'.
        revert E E'. generalize (Character.id character) (Character.id record).
        intros a. induction a as [|x a IHa]; intros [|y b]; simpl; try easy.
        destruct (N.compare_spec x y) as [->| |]; try discriminate.
        -- rewrite N.compare_refl. apply IHa.
        -- intros _. destruct (N.compare_spec y x); [lia|discriminate|lia].
Qed.

(** After a put the store holds the new record and the records of the other
    keys, and nothing else. *)
Lemma storePut_members (character : Character.t) (store : Store) (r : Character.t) :
  StoreOk store ->
  r ∈ storePut character store <->
  r = character \/ (r ∈ store /\ Character.id r <> Character.id character).
Proof.
  induction store as [|record store IH]; intros Hok; cbn.
  - rewrite list_elem_of_singleton. split; [now left|]. intros [->|[Hin _]]; [easy|].
    inversion Hin.
  - apply StoreOk_inv in Hok as Hinv. destruct Hinv as [Hrest Hlt].
    rewrite Forall_forall in Hlt.
    destruct (str_compare (Character.id character) (Character.id record)) eqn:E.
    + apply str_compare_eq in E. rewrite !elem_of_cons. split.
      * intros [->|Hin]; [now left|]. right. split; [now right|].
        intros Hid. specialize (Hlt r Hin).
        rewrite Hid, E, str_compare_refl in Hlt. discriminate.
      * intros [->|[[->|Hin] Hid]]; [now left|congruence|now right].
    + rewrite !elem_of_cons. split.
      * intros [->|[->|Hin]]; [now left| |].
        -- right. split; [now left|]. intros Hid.
           rewrite Hid, str_compare_refl in E. discriminate.
        -- right. split; [now right|]. intros Hid.
           specialize (Hlt r Hin).
           pose proof (str_compare_trans _ _ _ E Hlt) as Habs.
           rewrite Hid, str_compare_refl in Habs. discriminate.
      * intros [->|[[->|Hin] _]]; [now left|right; now left|right; now right].
    + rewrite !elem_of_cons, (IH Hrest). split.
      * intros [->|[->|[Hin Hid]]]; [|now left|].
        -- right. split; [now left|]. intros Hid.
           rewrite Hid, str_compare_refl in E. discriminate.
        -- right. split; [now right|assumption].
      * intros [->|[[->|Hin] Hid]]; [right; now left|now left|].
        right. right. split; assumption.
Qed.

Lemma storeGet_member (store : Store) (r : Character.t) :
  StoreOk store -> r ∈ store -> storeGet (Character.id r) store = Some r.
Proof.
  induction store as [|record store IH]; intros Hok Hin; [inversion Hin|].
  apply StoreOk_inv in Hok as [Hrest Hlt]. rewrite Forall_forall in Hlt.
  unfold storeGet. cbn. apply elem_of_cons in Hin as [->|Hin].
  - now rewrite str_eqb_refl.
  - specialize (Hlt r Hin). rewrite str_eqb_compare, Hlt. now apply IH.
Qed.

Lemma storeGet_none (id : jsstring) (store : Store) :
  storeGet id store = None <->
  Forall (fun record => Character.id record <> id) store.
Proof.
  unfold storeGet. induction store as [|record store IH]; cbn.
  - split; [constructor|reflexivity].
  - destruct (str_eqb (Character.id record) id) eqn:E.
    + apply str_eqb_eq in E. split; [discriminate|].
      intros H. inversion H; subst. contradiction.
    + apply str_eqb_neq in E. rewrite IH. split.
      * now constructor.
      * intros H. now inversion H.
Qed.

Lemma storeDelete_members (id : jsstring) (store : Store) (r : Character.t) :
  r ∈ storeDelete id store <-> r ∈ store /\ Character.id r <> id.
Proof.
  unfold storeDelete. rewrite !list_elem_of_In, List.filter_In.
  rewrite Bool.negb_true_iff, str_eqb_neq. reflexivity.
Qed.

Lemma storeDelete_ok (id : jsstring) (store : Store) :
  StoreOk store -> StoreOk (storeDelete id store).
Proof.
  induction store as [|record store IH]; intros Hok; [constructor|].
  apply StoreOk_inv in Hok as [Hrest Hlt]. unfold storeDelete. cbn.
  destruct (negb _); [|now apply IH].
  constructor; [now apply IH|].
  rewrite Forall_forall in *. intros r Hin.
  apply Hlt. fold (storeDelete id store) in Hin.
  now apply storeDelete_members in Hin as [Hin _].
Qed.

Lemma storeDelete_absent (id : jsstring) (store : Store) :
  storeGet id store = None -> storeDelete id store = store.
Proof.
  rewrite storeGet_none. unfold storeDelete.
  induction 1 as [|record store Hne _ IH]; cbn; [reflexivity|].
  apply str_eqb_neq in Hne. rewrite Hne. cbn. now f_equal.
Qed.

Lemma storeDelete_put (character : Character.t) (store : Store) :
  storeGet (Character.id character) store = None ->
  storeDelete (Character.id character) (storePut character store) = store.
Proof.
  rewrite storeGet_none.
  induction 1 as [|record store Hne Hall IH]; cbn.
  - unfold storeDelete. cbn. now rewrite str_eqb_refl.
  - destruct (str_compare (Character.id character) (Character.id record)) eqn:E.
    + apply str_compare_eq in E. congruence.
    + unfold storeDelete. cbn. rewrite str_eqb_refl. cbn.
      apply str_eqb_neq in Hne. rewrite Hne. cbn. f_equal.
      apply (storeDelete_absent (Character.id character) store).
      now apply storeGet_none.
    + unfold storeDelete. cbn. apply str_eqb_neq in Hne. rewrite Hne. cbn.
      f_equal. exact IH.
Qed.

Lemma storePut_twice (character : Character.t) (store : Store) :
  storePut character (storePut character store) = storePut character store.
Proof.
  induction store as [|record store IH]; cbn.
  - now rewrite str_compare_refl.
  - destruct (str_compare (Character.id character) (Character.id record)) eqn:E; cbn.
    + now rewrite str_compare_refl.
    + now rewrite str_compare_refl.
    + rewrite E. now f_equal.
Qed.

(** X1.  When the database works, [saveCharacterToStorage] resolves to the
    new content of the store: the saved character under its id, the records
    of all other ids as they were, keys in ascending order and pairwise
    different.  Saving the same character again changes nothing. *)
Theorem save_upserts_by_id (faults : WriteFaults) (character : Character.t)
    (store : Store) :
  StoreOk store ->
  write_opens faults = true ->
  write_commits faults = true ->
  write_reload faults = noLoadFaults ->
  exists all,
    saveCharacterToStorage faults character store = (Some (ResolvesTo all), all) /\
    StoreOk all /\
    NoDup (List.map Character.id all) /\
    (forall r, r ∈ all <->
               r = character \/ (r ∈ store /\ Character.id r <> Character.id character)) /\
    storeGet (Character.id character) all = Some character /\
    saveCharacterToStorage faults character all = (Some (ResolvesTo all), all).
Proof.
  intros Hok Hopens Hcommits Hreload.
  exists (storePut character store).
  pose proof (storePut_ok character store Hok) as Hok'.
  unfold saveCharacterToStorage. rewrite Hopens, Hcommits, Hreload. cbn.
  split; [reflexivity|]. split; [assumption|].
  split; [now apply StoreOk_NoDup|].
  split; [intros r; now apply storePut_members|].
  split.
  - apply storeGet_member; [assumption|].
    apply storePut_members; [assumption|now left].
  - now rewrite storePut_twice.
Qed.

Lemma save_upserts_by_id_witness :
  StoreOk [alice; carol] /\
  saveCharacterToStorage noWriteFaults bob [alice; carol] =
    (Some (ResolvesTo [alice; bob; carol]), [alice; bob; carol]).
Proof.
  assert (Hok : StoreOk [alice; carol]) by (repeat constructor).
  split; [exact Hok|].
  destruct (save_upserts_by_id noWriteFaults bob [alice; carol] Hok eq_refl eq_refl eq_refl)
    as (all & Hsave & _).
  reflexivity.
Defined.

(** X2.  When the database works, [deleteCharacterFromStorage] resolves to
    the store without the record of that id and with every other record; for
    an id that is not stored it resolves to the unchanged list. *)
Theorem delete_removes_only_that_id (faults : WriteFaults) (id : jsstring)
    (store : Store) :
  StoreOk store ->
  write_opens faults = true ->
  write_commits faults = true ->
  write_reload faults = noLoadFaults ->
  exists all,
    deleteCharacterFromStorage faults id store = (Some (ResolvesTo all), all) /\
    StoreOk all /\
    (forall r, r ∈ all <-> r ∈ store /\ Character.id r <> id) /\
    storeGet id all = None /\
    (storeGet id store = None -> all = store).
Proof.
  intros Hok Hopens Hcommits Hreload.
  exists (storeDelete id store).
  unfold deleteCharacterFromStorage. rewrite Hopens, Hcommits, Hreload. cbn.
  split; [reflexivity|]. split; [now apply storeDelete_ok|].
  split; [intros r; apply storeDelete_members|].
  split; [|apply storeDelete_absent].
  apply storeGet_none, Forall_forall. intros r Hin.
  now apply storeDelete_members in Hin as [_ Hne].
Qed.

Lemma delete_removes_only_that_id_witness :
  StoreOk [alice; bob; carol] /\
  deleteCharacterFromStorage noWriteFaults (js "c-bob") [alice; bob; carol] =
    (Some (ResolvesTo [alice; carol]), [alice; carol]).
Proof.
  assert (Hok : StoreOk [alice; bob; carol]) by (repeat constructor).
  split; [exact Hok|].
  destruct (delete_removes_only_that_id noWriteFaults (js "c-bob") [alice; bob; carol]
              Hok eq_refl eq_refl eq_refl) as (all & Hdelete & _).
  reflexivity.
Defined.

(** X3.  Saving a character under an id that is not stored yet and then
    deleting that id gives back the library as it was. *)
Theorem save_then_delete_restores (character : Character.t) (store : Store) :
  storeGet (Character.id character) store = None ->
  deleteCharacterFromStorage noWriteFaults (Character.id character)
    (snd (saveCharacterToStorage noWriteFaults character store)) =
  (Some (ResolvesTo store), store).
Proof.
  intros Hnew.
  unfold saveCharacterToStorage, deleteCharacterFromStorage, loadSavedCharacters.
  cbn -[storePut storeDelete]. now rewrite storeDelete_put.
Qed.

Lemma save_then_delete_restores_witness :
  storeGet (Character.id bob) [alice; carol] = None /\
  deleteCharacterFromStorage noWriteFaults (Character.id bob)
    (snd (saveCharacterToStorage noWriteFaults bob [alice; carol])) =
  (Some (ResolvesTo [alice; carol]), [alice; carol]).
Proof.
  assert (Hnew : storeGet (Character.id bob) [alice; carol] = None) by reflexivity.
  split; [exact Hnew|].
  exact (save_then_delete_restores bob [alice; carol] Hnew).
Defined.

(** ** Saving and deleting from [App] *)

Lemma save_guard (character : Character.t) :
  negb (truthy_opt (Character.baseImage character))
    || negb (truthy (Character.name character)) = negb (activeUsable character).
Proof.
  unfold activeUsable.
  now destruct (truthy_opt _), (truthy _).
Qed.

(** X4.  Whatever the database does, [handleSaveCharacter] leaves the
    active character, the scenes, the status, the progress and the animating
    set alone.  A character without a name or without an image is refused
    before the store is touched.  When the database cannot be opened the
    user is told [Database connection failed.]; when the transaction fails,
    the rejection is a bare string, so the user is told [Failed to save
    character] and not the text of the rejection; in both cases the store
    and the library on screen are unchanged. *)
Theorem save_errors_keep_session (faults : WriteFaults) (s : State.t) (store : Store) :
  let r := handleSaveCharacter faults s store in
  (State.character (fst r) = State.character s /\
   State.scenes (fst r) = State.scenes s /\
   State.status (fst r) = State.status s /\
   State.progress (fst r) = State.progress s /\
   State.animatingSceneIds (fst r) = State.animatingSceneIds s) /\
  (activeUsable (State.character s) = false ->
   r = (withError (Some (js "Character must have a name and an image to be saved.")) s,
        store)) /\
  (activeUsable (State.character s) = true -> write_opens faults = false ->
   r = (withError (Some (js "Database connection failed.")) s, store)) /\
  (activeUsable (State.character s) = true -> write_opens faults = true ->
   write_commits faults = false ->
   r = (withError (Some (js "Failed to save character")) s, store)) /\
  (snd r <> store ->
   activeUsable (State.character s) = true /\ write_opens faults = true /\
   write_commits faults = true /\ snd r = storePut (State.character s) store).
Proof.
  cbv zeta. unfold handleSaveCharacter. rewrite save_guard.
  destruct (activeUsable (State.character s)) eqn:Husable; cbn [negb].
  - unfold saveCharacterToStorage, loadSavedCharacters.
    destruct faults as [[|] [|] [[|] [|]]]; cbn;
      (split; [repeat split|]); repeat split; try discriminate; try reflexivity;
      try (intros; congruence).
  - cbn. split; [repeat split|]. repeat split; try discriminate.
    all: intros; congruence.
Qed.

Lemma save_errors_keep_session_witness :
  let faults := {| write_opens := true; write_commits := false;
                   write_reload := noLoadFaults |} in
  activeUsable (State.character aliceState) = true /\
  handleSaveCharacter faults aliceState [bob] =
    (withError (Some (js "Failed to save character")) aliceState, [bob]).
Proof.
  cbv zeta. split; [reflexivity|].
  exact (proj1 (proj2 (proj2 (proj2
           (save_errors_keep_session
              {| write_opens := true; write_commits := false;
                 write_reload := noLoadFaults |} aliceState [bob]))))
           eq_refl eq_refl eq_refl).
Defined.

Lemma AllUsable_put (character : Character.t) (store : Store) :
  activeUsable character = true -> AllUsable store -> AllUsable (storePut character store).
Proof. intros Hc Hall. now apply storePut_Forall. Qed.

Lemma AllUsable_delete (id : jsstring) (store : Store) :
  AllUsable store -> AllUsable (storeDelete id store).
Proof.
  unfold AllUsable, storeDelete. rewrite !Forall_forall. intros Hall c Hin.
  apply Hall. apply list_elem_of_In, List.filter_In in Hin as [Hin _].
  now apply list_elem_of_In.
Qed.

(** X5.  If every character of the store and of the library on screen has
    a non-empty name and a non-empty image, this is still so after
    [handleSaveCharacter] and after [handleDeleteCharacter], whatever the
    database does and whatever the user answers. *)
Theorem library_stays_usable (faults : WriteFaults) (confirmed : bool) (id : jsstring)
    (s : State.t) (store : Store) :
  AllUsable store ->
  AllUsable (State.savedCharacters s) ->
  (AllUsable (snd (handleSaveCharacter faults s store)) /\
   AllUsable (State.savedCharacters (fst (handleSaveCharacter faults s store)))) /\
  (AllUsable (snd (handleDeleteCharacter confirmed faults id s store)) /\
   AllUsable (State.savedCharacters (fst (handleDeleteCharacter confirmed faults id s store)))).
Proof.
  intros Hstore Hlibrary. split.
  - unfold handleSaveCharacter. rewrite save_guard.
    destruct (activeUsable (State.character s)) eqn:Husable; cbn [negb].
    + pose proof (AllUsable_put _ _ Husable Hstore) as Hput.
      unfold saveCharacterToStorage, loadSavedCharacters.
      destruct faults as [[|] [|] [[|] [|]]]; cbn; split; try assumption; constructor.
    + cbn. split; assumption.
  - unfold handleDeleteCharacter. destruct confirmed; [|split; assumption].
    pose proof (AllUsable_delete id _ Hstore) as Hdel.
    unfold deleteCharacterFromStorage, loadSavedCharacters.
    destruct faults as [[|] [|] [[|] [|]]]; cbn; split; try assumption; constructor.
Qed.

Lemma library_stays_usable_witness :
  AllUsable [alice] /\
  AllUsable (State.savedCharacters aliceState) /\
  AllUsable (snd (handleSaveCharacter noWriteFaults aliceState [alice])).
Proof.
  assert (H1 : AllUsable [alice]) by (repeat constructor).
  assert (H2 : AllUsable (State.savedCharacters aliceState)) by constructor.
  split; [exact H1|]. split; [exact H2|].
  exact (proj1 (proj1 (library_stays_usable noWriteFaults true (js "c-bob")
                         aliceState [alice] H1 H2))).
Defined.

(** ** More on the resolver *)

Lemma split_comma_no_comma (s : jsstring) :
  Forall (fun c => c <> 44) s -> split_comma s = [s].
Proof.
  induction 1 as [|c s Hc _ IH]; cbn; [reflexivity|].
  destruct (N.eqb_spec c 44); [contradiction|]. now rewrite IH.
Qed.

Lemma find_app_some {A : Type} (f : A -> bool) (l1 l2 : list A) (x : A) :
  List.find f l1 = Some x -> List.find f (l1 ++ l2) = Some x.
Proof.
  induction l1 as [|y l1 IH]; cbn; [discriminate|].
  destruct (f y); [easy|apply IH].
Qed.

Lemma find_app_none {A : Type} (f : A -> bool) (l1 l2 : list A) :
  List.find f l1 = None -> List.find f (l1 ++ l2) = List.find f l2.
Proof.
  induction l1 as [|y l1 IH]; cbn; [reflexivity|].
  destruct (f y); [discriminate|apply IH].
Qed.

Lemma findByName_allAvailable (env : Env) (character : Character.t)
    (savedCharacters : list Character.t) (name : jsstring) :
  findByName env (allAvailable character savedCharacters) name =
  match findByName env savedCharacters name with
  | Some found => Some found
  | None =>
      if activeUsable character
         && str_eqb (toLowerCase env (Character.name character)) (toLowerCase env name)
      then Some character
      else None
  end.
Proof.
  unfold allAvailable, findByName.
  destruct (List.find _ savedCharacters) as [found|] eqn:Hfind.
  - destruct (activeUsable character); [|assumption].
    now apply find_app_some.
  - destruct (activeUsable character); cbn [andb]; [|assumption].
    rewrite (find_app_none _ _ _ Hfind). cbn.
    now destruct (str_eqb _ _).
Qed.

(** X6.  On a name collision the library wins: a name that matches a saved
    character resolves to the first such saved character, whoever is
    active; the active character is found only when it has a name and an
    image and no saved character matches. *)
Theorem library_match_wins (env : Env) (character : Character.t)
    (savedCharacters : list Character.t) (name : jsstring) :
  findByName env (allAvailable character savedCharacters) name =
  match findByName env savedCharacters name with
  | Some found => Some found
  | None =>
      if activeUsable character
         && str_eqb (toLowerCase env (Character.name character)) (toLowerCase env name)
      then Some character
      else None
  end.
Proof.
  destruct (findByName env savedCharacters name) as [found|] eqn:Hfind.
  - rewrite findByName_allAvailable. now rewrite Hfind.
  - rewrite findByName_allAvailable. now rewrite Hfind.
Qed.

Lemma findByName_lower (env : Env) (pool : list Character.t) (name1 name2 : jsstring) :
  toLowerCase env name1 = toLowerCase env name2 ->
  findByName env pool name1 = findByName env pool name2.
Proof. unfold findByName. now intros ->. Qed.

Lemma fold_pushFound_lower (env : Env) (pool : list Character.t)
    (names1 names2 : list jsstring) :
  List.map (toLowerCase env) names1 = List.map (toLowerCase env) names2 ->
  fold_left (pushFound env pool) names1 [] = fold_left (pushFound env pool) names2 [].
Proof.
  revert names2. induction names1 as [|n1 names1 IH]; intros [|n2 names2]; cbn;
    try discriminate; [reflexivity|].
  intros [= Hn Hrest].
  rewrite (fold_pushFound_app env pool names1), (fold_pushFound_app env pool names2).
  rewrite (IH names2 Hrest). f_equal.
  unfold pushFound. now rewrite (findByName_lower env pool n1 n2 Hn).
Qed.

(** X7.  The case of the names in a tag does not matter: two tagged prompts
    whose tags list names that are the same after [toLowerCase], in the same
    order, resolve to the same references, whatever else the prompts say. *)
Theorem tag_case_is_ignored (env : Env) (character : Character.t)
    (savedCharacters : list Character.t) (prompt1 prompt2 inner1 inner2 : jsstring) :
  tagMatch prompt1 = Some inner1 ->
  tagMatch prompt2 = Some inner2 ->
  List.map (toLowerCase env) (tagNames inner1) =
    List.map (toLowerCase env) (tagNames inner2) ->
  resolveReferences env character savedCharacters prompt1 =
  resolveReferences env character savedCharacters prompt2.
Proof.
  intros Htag1 Htag2 Hnames.
  rewrite !resolveReferences_of_list, !resolvedReferences_cases.
  rewrite (taggedReferences_tagged env _ _ _ _ Htag1),
          (taggedReferences_tagged env _ _ _ _ Htag2).
  now rewrite (fold_pushFound_lower env _ _ _ Hnames).
Qed.

Lemma tag_case_is_ignored_witness :
  resolveReferences sampleEnv INITIAL_CHARACTER [alice; bob; carol]
                    (js "[ALICE,bob] on the beach") =
  resolveReferences sampleEnv INITIAL_CHARACTER [alice; bob; carol]
                    (js "[alice, BOB] in the city").
Proof.
  apply (tag_case_is_ignored sampleEnv INITIAL_CHARACTER [alice; bob; carol]
           (js "[ALICE,bob] on the beach") (js "[alice, BOB] in the city")
           (js "ALICE,bob") (js "alice, BOB")); reflexivity.
Defined.

Lemma allAvailable_member (character : Character.t) (savedCharacters : list Character.t)
    (c : Character.t) :
  c ∈ allAvailable character savedCharacters -> c = character \/ c ∈ savedCharacters.
Proof.
  unfold allAvailable. destruct (activeUsable character); [|now right].
  rewrite elem_of_app, list_elem_of_singleton. tauto.
Qed.

Lemma pushIfUsable_from (character : Character.t) (savedCharacters : list Character.t) :
  Forall (FromCharacter character savedCharacters) (pushIfUsable character []).
Proof.
  destruct (pushIfUsable_nil character)
    as [(_ & image & Himage & Htruthy & _ & ->)|(_ & ->)]; [|constructor].
  constructor; [|constructor]. exists character. cbn. repeat split; try assumption.
  now left.
Qed.

Lemma taggedReferences_from (env : Env) (character : Character.t)
    (savedCharacters : list Character.t) (prompt : jsstring) :
  Forall (FromCharacter character savedCharacters)
         (taggedReferences env character savedCharacters prompt).
Proof.
  unfold taggedReferences. destruct (tagMatch prompt) as [inner|].
  - pose proof (fold_pushFound_refers env (allAvailable character savedCharacters)
                  (tagNames inner)) as Hrefers.
    induction Hrefers as [|reference name references names Hrefers _ IH]; [constructor|].
    constructor; [|assumption].
    destruct Hrefers as (found & _ & Hin & _ & Hname & Himage & Htruthy).
    exists found. repeat split; try assumption.
    now apply allAvailable_member.
  - apply pushIfUsable_from.
Qed.

Lemma findByName_exists (env : Env) (pool : list Character.t) (c : Character.t) :
  c ∈ pool ->
  exists found,
    findByName env pool (Character.name c) = Some found /\
    found ∈ pool /\
    toLowerCase env (Character.name found) = toLowerCase env (Character.name c).
Proof.
  intros Hin. unfold findByName.
  destruct (List.find _ pool) as [found|] eqn:Hfind.
  - exists found. split; [reflexivity|].
    now apply (findByName_some env pool (Character.name c) found).
  - apply list_elem_of_In in Hin.
    pose proof (List.find_none _ _ Hfind c Hin) as Hno. cbn in Hno.
    now rewrite str_eqb_refl in Hno.
Qed.

(** X9.  A character of the library can always be called by its name: if
    every saved character has a name and an image, and the name of a saved
    character has no white space at its ends and no comma, closing bracket
    or line terminator inside, then the prompt that starts with that name in
    brackets resolves to exactly one reference, a saved character of that
    name up to case, whoever is active. *)
Theorem saved_character_resolves_by_tag (env : Env) (character : Character.t)
    (savedCharacters : list Character.t) (c : Character.t) (rest : jsstring) :
  AllUsable savedCharacters ->
  c ∈ savedCharacters ->
  trim (Character.name c) = Character.name c ->
  Forall insideTag (Character.name c) ->
  Forall (fun x => x <> 44) (Character.name c) ->
  exists found image,
    resolveReferences env character savedCharacters
                      (91 :: Character.name c ++ 93 :: rest) =
      Ok [Reference.mk (Character.name found) image] /\
    found ∈ savedCharacters /\
    toLowerCase env (Character.name found) = toLowerCase env (Character.name c) /\
    Character.baseImage found = Some image.
Proof.
  intros Husable Hin Htrim Hinside Hcomma.
  destruct (findByName_exists env savedCharacters c Hin) as (found & Hfind & Hfound & Hlow).
  unfold AllUsable in Husable. rewrite Forall_forall in Husable.
  pose proof (Husable found Hfound) as Hready.
  unfold activeUsable in Hready. apply andb_prop in Hready as [Himage _].
  destruct (Character.baseImage found) as [image|] eqn:Hbase; [|discriminate].
  exists found, image. split; [|repeat split; assumption].
  assert (Htag : tagMatch (91 :: Character.name c ++ 93 :: rest)
                 = Some (Character.name c)).
  { apply tagMatch_spec. now exists rest. }
  rewrite resolveReferences_of_list, resolvedReferences_cases,
    (taggedReferences_tagged env _ _ _ _ Htag).
  unfold tagNames. rewrite (split_comma_no_comma _ Hcomma). cbn [List.map fold_left].
  rewrite Htrim. unfold pushFound.
  rewrite findByName_allAvailable, Hfind.
  unfold pushIfImage. rewrite Hbase. cbn in Himage. now rewrite Himage.
Qed.

Lemma saved_character_resolves_by_tag_witness :
  AllUsable [alice; bob] /\
  resolveReferences sampleEnv INITIAL_CHARACTER [alice; bob]
                    (js "[Bob] Bob runs") =
    Ok [Reference.mk (js "Bob") (js "Qk9C")].
Proof.
  assert (Husable : AllUsable [alice; bob]) by (repeat constructor).
  split; [exact Husable|].
  destruct (saved_character_resolves_by_tag sampleEnv INITIAL_CHARACTER [alice; bob]
              bob (js " Bob runs") Husable)
    as (found & image & Hresolved & _).
  - apply elem_of_cons. right. apply elem_of_cons. now left.
  - reflexivity.
  - repeat constructor; discriminate.
  - repeat constructor; discriminate.
  - reflexivity.
Defined.

(** ** More on scene generation *)

Lemma sceneRequest_fold (references : list Reference.t)
    (parts : list RequestPart) (context : jsstring) :
  fst (fold_left
         (fun '(parts, ctx) ref =>
            (parts ++ [InlineData (js "image/png") (cleanBase64 (Reference.base64 ref))],
             ctx ++ js "- Reference for character " ++ dquote ++ Reference.name ref
                 ++ dquote ++ js " is provided above." ++ nl))
         references (parts, context)) =
  parts ++ List.map inlinePartOf references.
Proof.
  revert parts context. induction references as [|r references IH]; intros parts context.
  - cbn. now rewrite app_nil_r.
  - cbn [fold_left List.map]. rewrite IH, <- app_assoc. reflexivity.
Qed.

(** X10.  The request [generateSceneImage] sends has one inline image per
    reference, in the order of the references, each labelled [image/png]
    and stripped of a data-URL prefix, followed by exactly one text part;
    the text contains the scene prompt, unchanged (tag included), after
    [SCENE DESCRIPTION: ]. *)
Theorem scene_request_carries_all_references (references : list Reference.t)
    (scenePrompt : jsstring) :
  exists text before after,
    req_parts (sceneRequest references scenePrompt) =
      List.map inlinePartOf references ++ [Text text] /\
    text = before ++ js "SCENE DESCRIPTION: " ++ scenePrompt ++ after /\
    length (req_parts (sceneRequest references scenePrompt)) = S (length references).
Proof.
  unfold sceneRequest.
  destruct references as [|r references].
  - cbn [length Nat.ltb Nat.leb].
    eexists. exists (js "Generate a scene based on the following description. " ++ nl), [].
    cbn [req_parts List.map app length]. split; [reflexivity|]. split; [|reflexivity].
    rewrite app_nil_r, <- !app_assoc. reflexivity.
  - cbn [length Nat.ltb Nat.leb].
    pose proof (sceneRequest_fold (r :: references) []
                  (js "Generate a scene based on the following description. "
                   ++ js "Use the provided reference images for character consistency:"
                   ++ nl)) as Hfold.
    destruct (fold_left _ (r :: references) _) as [parts ctx] eqn:Hrun.
    cbn [fst app] in Hfold. subst parts.
    eexists. exists (ctx ++ nl), (nl ++ js "IMPORTANT: Maintain the facial features and appearance of the characters as depicted in their reference images.").
    cbn [req_parts]. split; [reflexivity|]. split.
    + rewrite <- !app_assoc. reflexivity.
    + rewrite length_app, length_map. cbn. lia.
Qed.

Lemma message_or_truthy (message : option jsstring) (fallback : jsstring) :
  truthy fallback = true -> truthy (message_or message fallback) = true.
Proof.
  intros Hfallback. unfold message_or. destruct message as [m|]; [|assumption].
  destruct (truthy m) eqn:E; assumption.
Qed.

(** What [generateSceneImage] returns is never empty, and the message it
    throws is never empty. *)
Lemma sceneImageOfResponse_nonempty (response : ContentResponse) :
  match sceneImageOfResponse response with
  | Ok image => truthy image = true
  | Throw message => truthy message = true
  end.
Proof.
  unfold sceneImageOfResponse. destruct response as [message|parts text].
  - now apply message_or_truthy.
  - destruct (truthy _) eqn:E; [assumption|reflexivity].
Qed.

Lemma failures_app (t1 t2 : list Event) :
  failures (t1 ++ t2) = failures t1 ++ failures t2.
Proof. apply omap_app. Qed.

Section Accounting.

Variable env : Env.
Variable character : Character.t.
Variable savedCharacters : list Character.t.
Variable total : nat.

Ltac iteration prompt k s w Hblank :=
  rewrite (forPrompts_work env character savedCharacters total prompt _ k Hblank);
  rewrite ?trace_bind, ?final_state_bind, ?final_world_bind;
  destruct (processPrompt_cases env character savedCharacters k prompt s w)
    as [(?message & ?Hres) | [(?references & ?message & ?Hres & ?Hcall)
                             | (?references & ?image & ?Hres & ?Hcall)]];
  [ rewrite (processPrompt_unresolved env character savedCharacters total
               k prompt _ s w Hres)
  | rewrite (processPrompt_failed env character savedCharacters total
               k prompt _ _ s w Hres Hcall)
  | rewrite (processPrompt_succeeded env character savedCharacters total
               k prompt _ _ s w Hres Hcall) ];
  cbn [trace_of final_state final_world value_of].

(** Each entry that is not blank ends in a scene or in a recorded error;
    the error cell holds the last of these errors. *)
Lemma forPrompts_accounting (prompts : list jsstring) (k : nat) (s : State.t) (w : World) :
  let r := forPrompts env character savedCharacters total prompts k s w in
  (length (appended (trace_of r)) + length (failures (trace_of r)) =
     length (List.filter notBlank prompts))%nat /\
  State.error (final_state r) =
    match last (failures (trace_of r)) with
    | Some message => Some message
    | None => State.error s
    end /\
  Forall (fun scene => truthy (GeneratedScene.imageData scene) = true)
         (appended (trace_of r)).
Proof.
  revert k s w. induction prompts as [|prompt rest IH]; intros k s w.
  - cbn. repeat split. constructor.
  - cbv zeta. cbn [List.filter]. unfold notBlank at 1.
    destruct (isBlank prompt) eqn:Hblank; cbn [negb].
    + rewrite (forPrompts_blank env character savedCharacters total prompt rest k Hblank).
      apply IH.
    + iteration prompt k s w Hblank;
        match goal with
        | |- context [forPrompts _ _ _ _ _ _ ?s1 ?w1] =>
            destruct (IH (k + 1)%nat s1 w1) as (Hcount & Herror & Himages)
        end;
        rewrite !appended_app, !failures_app;
        cbn [appended failures omap list_omap app length State.error] in *.
      * split; [lia|]. split; [|assumption].
        rewrite Herror, last_cons. now destruct (last _).
      * split; [lia|]. split; [|assumption].
        rewrite Herror, last_cons. now destruct (last _).
      * split; [lia|]. split; [assumption|].
        constructor; [|assumption]. cbn.
        unfold remoteOutcome in Hcall.
        pose proof (sceneImageOfResponse_nonempty
                      (generateContent env (remote_calls w)
                         (sceneRequest references prompt))) as Hnonempty.
        now rewrite Hcall in Hnonempty.
Qed.

(** The loop asks the remote service once per call of [generateSceneImage],
    and reads the clock twice and draws one random number per scene. *)
Lemma forPrompts_counters (prompts : list jsstring) (k : nat) (s : State.t) (w : World) :
  let r := forPrompts env character savedCharacters total prompts k s w in
  remote_calls (final_world r) = (remote_calls w + length (attempts (trace_of r)))%nat /\
  random_draws (final_world r) = (random_draws w + length (appended (trace_of r)))%nat /\
  clock_reads (final_world r) = (clock_reads w + 2 * length (appended (trace_of r)))%nat.
Proof.
  revert k s w. induction prompts as [|prompt rest IH]; intros k s w.
  - cbn. lia.
  - cbv zeta. destruct (isBlank prompt) eqn:Hblank.
    + rewrite (forPrompts_blank env character savedCharacters total prompt rest k Hblank).
      apply IH.
    + iteration prompt k s w Hblank;
        match goal with
        | |- context [forPrompts _ _ _ _ _ _ ?s1 ?w1] =>
            destruct (IH (k + 1)%nat s1 w1) as (H1 & H2 & H3)
        end;
        rewrite !appended_app, !attempts_app;
        cbn [appended attempts omap list_omap app length remote_calls random_draws
             clock_reads] in *;
        lia.
Qed.

(** Every call of [generateSceneImage] the loop makes is made for an entry
    of the list, with the references the resolver returned for it. *)
Lemma forPrompts_calls (prompts : list jsstring) (k : nat) (s : State.t) (w : World)
    (references : list Reference.t) (scenePrompt : jsstring) (result : Result jsstring) :
  CalledGenerateSceneImage references scenePrompt result
    ∈ trace_of (forPrompts env character savedCharacters total prompts k s w) ->
  scenePrompt ∈ prompts /\
  isBlank scenePrompt = false /\
  resolveReferences env character savedCharacters scenePrompt = Ok references.
Proof.
  revert k s w. induction prompts as [|prompt rest IH]; intros k s w.
  - cbn. intros Hin. inversion Hin.
  - destruct (isBlank prompt) eqn:Hblank.
    + rewrite (forPrompts_blank env character savedCharacters total prompt rest k Hblank).
      intros Hin. destruct (IH _ _ _ Hin) as (Hrest & Hwork & Hres).
      split; [now apply elem_of_cons; right|now split].
    + iteration prompt k s w Hblank; intros Hin;
        apply elem_of_app in Hin as [Hin|Hin];
        try (destruct (IH _ _ _ Hin) as (Hrest & Hwork & Hres');
             split; [now apply elem_of_cons; right|now split]);
        repeat (apply elem_of_cons in Hin as [Hin|Hin]; [try discriminate|]);
        try (inversion Hin; fail);
        injection Hin as -> -> ->;
        (split; [now apply elem_of_cons; left|now split]).
Qed.

End Accounting.


(** X8.  Scene generation is never called without a reference image or
    with an empty one.  Whenever the resolver returns, it returns at least
    one reference, and every reference is the name and the non-empty image
    of a character of the library or of the active character; and every
    call of [generateSceneImage] a batch makes is made for an entry of the
    batch that is not blank, with exactly the references the resolver
    returned for that entry: at least one, each with a non-empty image. *)
Theorem resolved_references_have_images (env : Env) (character : Character.t)
    (savedCharacters : list Character.t) :
  (forall prompt references,
     resolveReferences env character savedCharacters prompt = Ok references ->
     references <> [] /\
     Forall (FromCharacter character savedCharacters) references) /\
  (forall prompts s w references scenePrompt result,
     State.character s = character ->
     State.savedCharacters s = savedCharacters ->
     CalledGenerateSceneImage references scenePrompt result
       ∈ trace_of (handleGenerateScenes env prompts s w) ->
     scenePrompt ∈ prompts /\
     isBlank scenePrompt = false /\
     resolveReferences env character savedCharacters scenePrompt = Ok references /\
     references <> [] /\
     Forall (FromCharacter character savedCharacters) references /\
     Forall (fun reference => truthy (Reference.base64 reference) = true) references).
Proof.
  assert (Hresolver : forall prompt references,
             resolveReferences env character savedCharacters prompt = Ok references ->
             references <> [] /\
             Forall (FromCharacter character savedCharacters) references).
  { intros prompt references.
    rewrite resolveReferences_of_list, resolvedReferences_cases.
    pose proof (taggedReferences_from env character savedCharacters prompt) as Htagged.
    pose proof (pushIfUsable_from character savedCharacters) as Hfallback.
    destruct (taggedReferences env character savedCharacters prompt) as [|r rs].
    - destruct (pushIfUsable character []) as [|r rs]; [discriminate|].
      intros [= <-]. split; [discriminate|assumption].
    - intros [= <-]. split; [discriminate|assumption]. }
  split; [exact Hresolver|].
  intros prompts s w references scenePrompt result <- <- Hin.
  destruct (list_eq_dec prompts []) as [->|Hne]; [inversion Hin|].
  destruct (handleGenerateScenes_run env prompts s w Hne) as (Htrace & _ & _).
  rewrite Htrace in Hin. unfold batchPrologue, batchEpilogue in Hin.
  apply elem_of_app in Hin as [Hin|Hin];
    [repeat (apply elem_of_cons in Hin as [Hin|Hin]; [discriminate|]); inversion Hin|].
  apply elem_of_app in Hin as [Hin|Hin];
    [|repeat (apply elem_of_cons in Hin as [Hin|Hin]; [discriminate|]); inversion Hin].
  unfold batchLoop in Hin.
  apply forPrompts_calls in Hin as (Hentry & Hwork & Hres).
  destruct (Hresolver scenePrompt references Hres) as [Hsome Hfrom].
  repeat split; try assumption.
  eapply Forall_impl; [exact Hfrom|]. intros reference (c & _ & _ & _ & Htruthy).
  exact Htruthy.
Qed.

Lemma resolved_references_have_images_witness :
  let r := handleGenerateScenes sampleEnv [js "[Carol, Bob] tea"]
             (State.mk alice [] IDLE None None [bob; carol] ∅) freshWorld in
  CalledGenerateSceneImage [Reference.mk (js "Bob") (js "Qk9C")] (js "[Carol, Bob] tea")
                           (Ok (js "UElD"))
    ∈ trace_of r /\
  resolveReferences sampleEnv alice [bob; carol] (js "[Carol, Bob] tea") =
    Ok [Reference.mk (js "Bob") (js "Qk9C")].
Proof.
  cbv zeta.
  assert (Hin : CalledGenerateSceneImage [Reference.mk (js "Bob") (js "Qk9C")]
                  (js "[Carol, Bob] tea") (Ok (js "UElD"))
                ∈ trace_of (handleGenerateScenes sampleEnv [js "[Carol, Bob] tea"]
                              (State.mk alice [] IDLE None None [bob; carol] ∅)
                              freshWorld)).
  { assert (Htrace : exists before after,
               trace_of (handleGenerateScenes sampleEnv [js "[Carol, Bob] tea"]
                           (State.mk alice [] IDLE None None [bob; carol] ∅) freshWorld)
               = before ++ CalledGenerateSceneImage [Reference.mk (js "Bob") (js "Qk9C")]
                             (js "[Carol, Bob] tea") (Ok (js "UElD")) :: after).
    { eexists (_ :: _ :: _ :: _ :: nil), _. vm_compute. reflexivity. }
    destruct Htrace as (before & after & ->).
    apply elem_of_app. right. now left. }
  split; [exact Hin|].
  exact (proj1 (proj2 (proj2
           (proj2 (resolved_references_have_images sampleEnv alice [bob; carol])
              [js "[Carol, Bob] tea"] (State.mk alice [] IDLE None None [bob; carol] ∅)
              freshWorld _ _ _ eq_refl eq_refl Hin)))).
Defined.



(** X12.  A batch asks the remote service exactly once for each entry that
    is not blank and resolves, and never for another entry; it reads the
    clock twice and draws one random number per scene it makes; and every
    scene it makes has a non-empty image. *)
Theorem batch_calls_remote_once_per_resolved_prompt (env : Env)
    (prompts : list jsstring) (s : State.t) (w : World) :
  let r := handleGenerateScenes env prompts s w in
  remote_calls (final_world r) =
    (remote_calls w +
     length (List.filter
               (fun p => notBlank p &&
                         resolvable env (State.character s) (State.savedCharacters s) p)
               prompts))%nat /\
  random_draws (final_world r) = (random_draws w + length (appended (trace_of r)))%nat /\
  clock_reads (final_world r) = (clock_reads w + 2 * length (appended (trace_of r)))%nat /\
  Forall (fun scene => truthy (GeneratedScene.imageData scene) = true)
         (appended (trace_of r)).
Proof.
  cbv zeta. destruct (list_eq_dec prompts []) as [->|Hne].
  - cbn. repeat split; try lia. constructor.
  - destruct (handleGenerateScenes_run env prompts s w Hne) as (Htrace & _ & Hworld).
    rewrite Htrace, Hworld.
    destruct (batch_trace_views prompts (trace_of (batchLoop env prompts s w)))
      as (_ & _ & _ & ->).
    unfold batchLoop.
    destruct (forPrompts_counters env (State.character s) (State.savedCharacters s)
                (length prompts) prompts 0 (batchStartState prompts s) w)
      as (Hremote & Hrandom & Hclock).
    destruct (forPrompts_accounting env (State.character s) (State.savedCharacters s)
                (length prompts) prompts 0 (batchStartState prompts s) w)
      as (_ & _ & Himages).
    pose proof (forPrompts_attempts env (State.character s) (State.savedCharacters s)
                  (length prompts) prompts 0 (batchStartState prompts s) w) as Hcalls.
    apply (f_equal (@length jsstring)) in Hcalls. rewrite length_map in Hcalls.
    unfold notBlank. rewrite <- Hcalls.
    repeat split; assumption.
Qed.

(** ** More on animation *)

(** X13.  The polling loop is still running exactly when the first
    operation is not done and no answer so far ended it (an answer ends it
    by saying [done] or by throwing); once it has ended, later answers are
    never looked at; and an operation it returns is one that is done. *)
Theorem polling_stops_at_first_final_answer (operation : Operation)
    (answers : list (Awaited Operation)) :
  (pollUntilDone operation answers = None <->
   done operation = false /\ Forall (fun answer => endsPolling answer = false) answers) /\
  (forall outcome more,
     pollUntilDone operation answers = Some outcome ->
     pollUntilDone operation (answers ++ more) = Some outcome) /\
  (forall finished,
     pollUntilDone operation answers = Some (Fulfilled finished) ->
     done finished = true).
Proof.
  revert operation. induction answers as [|answer answers IH]; intros operation.
  - cbn. destruct (done operation) eqn:Hdone.
    + split; [split; [discriminate|intros [? _]; discriminate]|].
      split.
      * intros outcome more [= <-]. now apply pollUntilDone_done.
      * now intros finished [= <-].
    + split; [split; [now split|reflexivity]|]. split; [discriminate|discriminate].
  - cbn [pollUntilDone app]. destruct (done operation) eqn:Hdone.
    + split; [split; [discriminate|intros [? _]; discriminate]|].
      split; [easy|]. now intros finished [= <-].
    + destruct answer as [next|message].
      * destruct (IH next) as (Hnone & Hmore & Hdone').
        split; [|split; assumption].
        rewrite Hnone. split.
        -- intros [Hnext Hall]. split; [reflexivity|]. now constructor.
        -- intros [_ Hall]. inversion Hall; subst. now split.
      * split; [|split; [easy|discriminate]].
        split; [discriminate|]. intros [_ Hall]. inversion Hall; subst. discriminate.
Qed.

Lemma polling_stops_at_first_final_answer_witness :
  let waiting := {| done := false; operation_error := None; video_uri := None |} in
  let ready := {| done := true; operation_error := None;
                  video_uri := Some (js "https://v/1") |} in
  pollUntilDone waiting [Fulfilled waiting; Fulfilled ready] = Some (Fulfilled ready) /\
  pollUntilDone waiting ([Fulfilled waiting; Fulfilled ready] ++ [Rejected None]) =
    Some (Fulfilled ready).
Proof.
  cbv zeta.
  assert (H : pollUntilDone {| done := false; operation_error := None; video_uri := None |}
                [Fulfilled {| done := false; operation_error := None; video_uri := None |};
                 Fulfilled {| done := true; operation_error := None;
                              video_uri := Some (js "https://v/1") |}]
              = Some (Fulfilled {| done := true; operation_error := None;
                                   video_uri := Some (js "https://v/1") |}))
    by reflexivity.
  split; [exact H|].
  exact (proj1 (proj2 (polling_stops_at_first_final_answer _ _)) _ [Rejected None] H).
Defined.

Lemma animateRethrow_truthy (message : option jsstring) (thrown : jsstring) :
  Some (animateRethrow message) = Some (Throw thrown) -> truthy thrown = true.
Proof.
  unfold animateRethrow. intros [= <-]. now apply message_or_truthy.
Qed.

(** X14.  [animateImage] returns a video URL exactly when the request was
    accepted, the polling ended with an operation that has no [error] (an
    error object counts whether or not it has a [message]) and carries a
    non-empty download link, the download answered [ok] and its blob could
    be read; the URL is then the object URL of that blob.  In every other
    case that ends, it throws an error whose message is not empty; for an
    operation with an [error], that message starts with
    [Video generation failed: ]. *)
Theorem animation_succeeds_only_with_download (remote : VideoRemote)
    (base64Image prompt : jsstring) :
  (forall videoUrl,
     animateImage remote base64Image prompt = Some (Ok videoUrl) <->
     exists started finished downloadLink response,
       generateVideos remote
         {| video_model := js "veo-3.1-fast-generate-preview";
            video_prompt := prompt;
            video_imageBytes := cleanBase64 base64Image;
            video_mimeType := js "image/png" |} = Fulfilled started /\
       pollUntilDone started (getVideosOperation remote) = Some (Fulfilled finished) /\
       operation_error finished = None /\
       video_uri finished = Some downloadLink /\
       truthy downloadLink = true /\
       fetch remote (downloadLink ++ js "&key=" ++ API_KEY remote) = Fulfilled response /\
       ok response = true /\
       objectURL response = Fulfilled videoUrl) /\
  (forall message,
     animateImage remote base64Image prompt = Some (Throw message) ->
     truthy message = true) /\
  (forall started finished error,
     generateVideos remote
       {| video_model := js "veo-3.1-fast-generate-preview";
          video_prompt := prompt;
          video_imageBytes := cleanBase64 base64Image;
          video_mimeType := js "image/png" |} = Fulfilled started ->
     pollUntilDone started (getVideosOperation remote) = Some (Fulfilled finished) ->
     operation_error finished = Some error ->
     animateImage remote base64Image prompt =
       Some (Throw (js "Video generation failed: " ++ templateString error))).
Proof.
  unfold animateImage. split; [|split].
  - intros videoUrl. split.
    + destruct (generateVideos remote _) as [started|message] eqn:Hgen; [|discriminate].
      destruct (pollUntilDone started _) as [[finished|message]|] eqn:Hpoll;
        try discriminate.
      unfold animateCompleted.
      destruct (operation_error finished) as [message|] eqn:Herror; [discriminate|].
      destruct (video_uri finished) as [downloadLink|] eqn:Huri; [|discriminate].
      destruct (truthy downloadLink) eqn:Hlink; [|discriminate].
      destruct (fetch remote _) as [response|message] eqn:Hfetch; [|discriminate].
      destruct (ok response) eqn:Hok; [|discriminate].
      destruct (objectURL response) as [url|message] eqn:Hblob; [|discriminate].
      intros [= <-]. exists started, finished, downloadLink, response.
      repeat split; assumption.
    + intros (started & finished & downloadLink & response
              & -> & -> & Herror & Huri & Hlink & Hfetch & Hok & Hblob).
      unfold animateCompleted. now rewrite Herror, Huri, Hlink, Hfetch, Hok, Hblob.
  - intros message.
    destruct (generateVideos remote _) as [started|thrown].
    + destruct (pollUntilDone started _) as [[finished|thrown]|]; try discriminate.
      * unfold animateCompleted.
        destruct (operation_error finished);
          [intros H; now apply animateRethrow_truthy in H|].
        destruct (video_uri finished) as [downloadLink|];
          [|intros H; now apply animateRethrow_truthy in H].
        destruct (truthy downloadLink);
          [|intros H; now apply animateRethrow_truthy in H].
        destruct (fetch remote _) as [response|thrown];
          [|intros H; now apply animateRethrow_truthy in H].
        destruct (ok response); [|intros H; now apply animateRethrow_truthy in H].
        destruct (objectURL response) as [url|thrown]; [discriminate|].
        intros H; now apply animateRethrow_truthy in H.
      * intros H; now apply animateRethrow_truthy in H.
    + intros H; now apply animateRethrow_truthy in H.
  - intros started finished error -> -> Herror.
    unfold animateCompleted, animateRethrow, animationFailedMessage, message_or.
    rewrite Herror. reflexivity.
Qed.

(** X14 on an operation that ends with an error object without message,
    though it carries a download link. *)
Lemma animation_succeeds_only_with_download_witness :
  let waiting := {| done := false; operation_error := None; video_uri := None |} in
  let failed := {| done := true; operation_error := Some None;
                   video_uri := Some (js "https://v/1?a=b") |} in
  let remote :=
    sampleVideoRemote failed
      (Fulfilled {| ok := true; objectURL := Fulfilled (js "blob:1") |}) in
  pollUntilDone waiting (getVideosOperation remote) = Some (Fulfilled failed) /\
  animateImage remote (js "UElD") (js "waves") =
    Some (Throw (js "Video generation failed: undefined")).
Proof.
  cbv zeta.
  assert (Hpoll : pollUntilDone
                    {| done := false; operation_error := None; video_uri := None |}
                    (getVideosOperation
                       (sampleVideoRemote
                          {| done := true; operation_error := Some None;
                             video_uri := Some (js "https://v/1?a=b") |}
                          (Fulfilled {| ok := true;
                                        objectURL := Fulfilled (js "blob:1") |})))
                  = Some (Fulfilled {| done := true; operation_error := Some None;
                                       video_uri := Some (js "https://v/1?a=b") |}))
    by reflexivity.
  split; [exact Hpoll|].
  exact (proj2 (proj2
           (animation_succeeds_only_with_download
              (sampleVideoRemote
                 {| done := true; operation_error := Some None;
                    video_uri := Some (js "https://v/1?a=b") |}
                 (Fulfilled {| ok := true; objectURL := Fulfilled (js "blob:1") |}))
              (js "UElD") (js "waves")))
           {| done := false; operation_error := None; video_uri := None |}
           {| done := true; operation_error := Some None;
              video_uri := Some (js "https://v/1?a=b") |}
           None eq_refl Hpoll eq_refl).
Defined.

Lemma withVideoUrl_absent (sceneId videoUrl : jsstring) (prev : list GeneratedScene.t) :
  sceneId ∉ List.map GeneratedScene.id prev ->
  withVideoUrl sceneId videoUrl prev = prev.
Proof.
  unfold withVideoUrl. induction prev as [|scene prev IH]; intros Hnotin; [reflexivity|].
  cbn in *. apply not_elem_of_cons in Hnotin as [Hne Hrest].
  destruct (str_eqb (GeneratedScene.id scene) sceneId) eqn:E.
  - apply str_eqb_eq in E. congruence.
  - f_equal. now apply IH.
Qed.

(** X15.  A video that arrives for a scene id that is no longer in the
    scene list (the scenes were cleared by a reset or by loading another
    character while the job was waiting) is dropped: the scene list and the
    error stay as they are, and the id leaves the animating set. *)
Theorem video_for_removed_scene_is_dropped (sceneId videoUrl : jsstring)
    (scene : GeneratedScene.t) (s : State.t) (w : World) :
  sceneId ∉ sceneIds s ->
  let s' := final_state (animateSettle sceneId scene (Ok videoUrl) s w) in
  State.scenes s' = State.scenes s /\
  State.error s' = State.error s /\
  (sceneId ∉ State.animatingSceneIds s').
Proof.
  intros Hnotin. cbv zeta.
  destruct (animateSettle_last sceneId scene (Ok videoUrl) s w) as [Hout _].
  split; [|split; [|exact Hout]].
  - rewrite animateSettle_run. cbn [final_state State.scenes].
    now apply withVideoUrl_absent.
  - rewrite animateSettle_run. reflexivity.
Qed.

Lemma video_for_removed_scene_is_dropped_witness :
  let cleared := handleLoadCharacter true bob galleryState in
  (js "17000000000001" ∉ sceneIds cleared) /\
  State.scenes (final_state (animateSettle (js "17000000000001") sampleScene
                               (Ok (js "blob:video")) cleared freshWorld)) = [].
Proof.
  cbv zeta.
  assert (Hnotin : js "17000000000001" ∉ sceneIds (handleLoadCharacter true bob galleryState))
    by (cbn; apply not_elem_of_nil).
  split; [exact Hnotin|].
  exact (proj1 (video_for_removed_scene_is_dropped (js "17000000000001")
                  (js "blob:video") sampleScene _ freshWorld Hnotin)).
Defined.

(** X16.  Animating an id that is not in the scene list does nothing: no
    capability check, no remote call, no event, no change of state. *)
Theorem animating_unknown_scene_is_noop (aistudio : option Aistudio)
    (remote : VideoRemote) (sceneId : jsstring) (s : State.t) (w : World) :
  sceneId ∉ sceneIds s ->
  handleAnimateScene aistudio remote sceneId s w = (NotStarted, s, w, []).
Proof.
  intros Hnotin.
  assert (Hfind : List.find (fun scene => str_eqb (GeneratedScene.id scene) sceneId)
                            (State.scenes s) = None).
  { destruct (List.find _ _) as [scene|] eqn:Hfind; [|reflexivity].
    apply List.find_some in Hfind as [Hin Heq]. apply str_eqb_eq in Heq.
    exfalso. apply Hnotin. unfold sceneIds.
    apply list_elem_of_In, List.in_map_iff. now exists scene. }
  unfold handleAnimateScene, animateStart, bind, getState.
  now rewrite Hfind.
Qed.

Lemma animating_unknown_scene_is_noop_witness :
  (js "nowhere" ∉ sceneIds galleryState) /\
  handleAnimateScene None (sampleVideoRemote
                             {| done := true; operation_error := None; video_uri := None |}
                             (Rejected None))
                     (js "nowhere") galleryState freshWorld =
    (NotStarted, galleryState, freshWorld, []).
Proof.
  assert (Hnotin : js "nowhere" ∉ sceneIds galleryState).
  { cbn. intros Hin. repeat (apply elem_of_cons in Hin as [Hin|Hin]; [discriminate|]).
    inversion Hin. }
  split; [exact Hnotin|].
  exact (animating_unknown_scene_is_noop None _ (js "nowhere") galleryState freshWorld
           Hnotin).
Defined.

(** ** The character handlers of [App] *)

(** X17.  Loading or resetting the character while scenes exist asks for
    confirmation, and a refusal changes nothing.  Otherwise (no scenes, or
    confirmed) the scene list is emptied and the character replaced: by the
    loaded one, or by a blank one whose id is the clock reading; the
    library, the animating set, the status, the error and the progress stay
    as they are.  After a reset no untagged prompt resolves. *)
Theorem switching_character_clears_scenes (env : Env) (confirmed : bool)
    (c : Character.t) (s : State.t) (w : World) :
  let loaded := handleLoadCharacter confirmed c s in
  let reset := handleResetCharacter env confirmed s w in
  (State.scenes s <> [] -> confirmed = false -> loaded = s /\ reset = (s, w)) /\
  (State.scenes s = [] \/ confirmed = true ->
   (State.character loaded = c /\ State.scenes loaded = [] /\
    State.savedCharacters loaded = State.savedCharacters s /\
    State.animatingSceneIds loaded = State.animatingSceneIds s /\
    State.status loaded = State.status s /\
    State.error loaded = State.error s /\
    State.progress loaded = State.progress s) /\
   (State.character (fst reset) =
      Character.mk (N_toString (Date_now env (clock_reads w))) [] [] None /\
    State.scenes (fst reset) = [] /\
    State.savedCharacters (fst reset) = State.savedCharacters s /\
    State.animatingSceneIds (fst reset) = State.animatingSceneIds s /\
    State.status (fst reset) = State.status s /\
    State.error (fst reset) = State.error s /\
    State.progress (fst reset) = State.progress s) /\
   (forall prompt,
      tagMatch prompt = None ->
      resolveReferences env (State.character (fst reset))
                        (State.savedCharacters (fst reset)) prompt =
        Throw noReferenceMessage)).
Proof.
  cbv zeta. unfold handleLoadCharacter, handleResetCharacter. split.
  - intros Hscenes ->. destruct (State.scenes s); [contradiction|]. cbn. split; reflexivity.
  - intros Hgo.
    assert (Hbranch : (0 <? length (State.scenes s))%nat && negb confirmed = false).
    { destruct Hgo as [-> | ->]; [reflexivity|]. apply Bool.andb_false_r. }
    rewrite Hbranch.
    assert (Hload : (if (0 <? length (State.scenes s))%nat
                     then if negb confirmed then s else withNoScenes (withCharacter c s)
                     else withNoScenes (withCharacter c s))
                    = withNoScenes (withCharacter c s)).
    { destruct (0 <? length (State.scenes s))%nat; [|reflexivity].
      cbn in Hbranch. now rewrite Hbranch. }
    rewrite Hload. cbn. split; [repeat split|]. split; [repeat split|].
    intros prompt Htag.
    rewrite resolveReferences_of_list, resolvedReferences_cases.
    unfold taggedReferences. now rewrite Htag.
Qed.

Lemma switching_character_clears_scenes_witness :
  State.scenes galleryState <> [] /\
  handleLoadCharacter false bob galleryState = galleryState /\
  State.scenes (handleLoadCharacter true bob galleryState) = [].
Proof.
  assert (Hscenes : State.scenes galleryState <> []) by discriminate.
  split; [exact Hscenes|]. split.
  - exact (proj1 (proj1 (switching_character_clears_scenes sampleEnv false bob
                           galleryState freshWorld) Hscenes eq_refl)).
  - destruct (proj2 (switching_character_clears_scenes sampleEnv true bob
                       galleryState freshWorld) (or_intror eq_refl))
      as ((_ & Hcleared & _) & _).
    exact Hcleared.
Defined.

Lemma characterImageOfResponse_nonempty (response : ContentResponse) :
  match characterImageOfResponse response with
  | Ok image => truthy image = true
  | Throw message => truthy message = true
  end.
Proof.
  unfold characterImageOfResponse. destruct response as [message|parts text].
  - now apply message_or_truthy.
  - destruct (truthy _) eqn:E; [assumption|reflexivity].
Qed.

(** X18.  [handleGenerateCharacter] does nothing for a blank description.
    Otherwise it makes one remote call and ends with status [IDLE] whether
    the call succeeded or not; a success sets the image, which is not empty,
    clears the error and keeps id, name and description; a failure keeps the
    character and records a message that is not empty.  Scenes, library,
    progress and animating set are untouched. *)
Theorem character_generation_returns_to_idle (env : Env) (s : State.t) (w : World) :
  let description := Character.description (State.character s) in
  let r := handleGenerateCharacter env s w in
  (isBlank description = true -> r = (s, w)) /\
  (isBlank description = false ->
   State.status (fst r) = IDLE /\
   remote_calls (snd r) = S (remote_calls w) /\
   State.scenes (fst r) = State.scenes s /\
   State.savedCharacters (fst r) = State.savedCharacters s /\
   State.progress (fst r) = State.progress s /\
   State.animatingSceneIds (fst r) = State.animatingSceneIds s /\
   Character.id (State.character (fst r)) = Character.id (State.character s) /\
   Character.name (State.character (fst r)) = Character.name (State.character s) /\
   Character.description (State.character (fst r)) = description /\
   match characterImageOfResponse
           (generateContent env (remote_calls w) (characterRequest description)) with
   | Ok image =>
       Character.baseImage (State.character (fst r)) = Some image /\
       truthy image = true /\
       State.error (fst r) = None
   | Throw message =>
       State.character (fst r) = State.character s /\
       State.error (fst r) = Some message /\
       truthy message = true
   end).
Proof.
  cbv zeta. unfold handleGenerateCharacter. split.
  - now intros ->.
  - intros ->.
    pose proof (characterImageOfResponse_nonempty
                  (generateContent env (remote_calls w)
                     (characterRequest (Character.description (State.character s)))))
      as Hnonempty.
    destruct (characterImageOfResponse _) as [image|message]; cbn.
    + repeat split. assumption.
    + repeat split; try assumption.
      all: try (now rewrite Hnonempty); now destruct (State.character s).
Qed.

Lemma character_generation_returns_to_idle_witness :
  isBlank (Character.description (State.character aliceState)) = false /\
  State.status (fst (handleGenerateCharacter sampleEnv aliceState freshWorld)) = IDLE /\
  remote_calls (snd (handleGenerateCharacter sampleEnv aliceState freshWorld)) = 1%nat.
Proof.
  assert (H : isBlank (Character.description (State.character aliceState)) = false)
    by reflexivity.
  split; [exact H|].
  destruct (proj2 (character_generation_returns_to_idle sampleEnv aliceState freshWorld) H)
    as (Hstatus & Hcalls & _).
  split; [exact Hstatus|exact Hcalls].
Defined.

(** ** Image payloads *)

Lemma strip_prefix_app (prefix s : jsstring) : strip_prefix prefix (prefix ++ s) = Some s.
Proof.
  induction prefix as [|c prefix IH]; cbn; [now destruct s|].
  now rewrite N.eqb_refl.
Qed.

Lemma base64_not_colon (c : N) : isBase64Char c = true -> c <> 58 /\ c <> 44.
Proof. intros H. split; intros ->; discriminate H. Qed.

Lemma strip_prefix_base64 (before after s : jsstring) :
  Forall (fun c => isBase64Char c = true) s ->
  strip_prefix (before ++ 58 :: after) s = None.
Proof.
  revert s. induction before as [|x before IH]; intros s Hs; cbn [app strip_prefix].
  - destruct s as [|y s]; [reflexivity|].
    inversion Hs as [|? ? Hy _]; subst. apply base64_not_colon in Hy as [Hy _].
    destruct (N.eqb_spec 58 y); [congruence|reflexivity].
  - destruct s as [|y s]; [reflexivity|].
    inversion Hs; subst. destruct (x =? y); [now apply IH|reflexivity].
Qed.

Lemma cleanBase64_base64 (payload : jsstring) :
  Forall (fun c => isBase64Char c = true) payload -> cleanBase64 payload = payload.
Proof.
  intros Hpayload. unfold cleanBase64.
  change (js "data:image/png;base64,") with (js "data" ++ 58 :: js "image/png;base64,").
  change (js "data:image/jpeg;base64,") with (js "data" ++ 58 :: js "image/jpeg;base64,").
  change (js "data:image/jpg;base64,") with (js "data" ++ 58 :: js "image/jpg;base64,").
  rewrite (strip_prefix_base64 (js "data") (js "image/png;base64,") payload Hpayload).
  rewrite (strip_prefix_base64 (js "data") (js "image/jpeg;base64,") payload Hpayload).
  now rewrite (strip_prefix_base64 (js "data") (js "image/jpg;base64,") payload Hpayload).
Qed.

Lemma split_comma_at (before after : jsstring) :
  Forall (fun c => c <> 44) before ->
  split_comma (before ++ 44 :: after) = before :: split_comma after.
Proof.
  induction 1 as [|c before Hc _ IH]; cbn; [reflexivity|].
  destruct (N.eqb_spec c 44); [contradiction|]. now rewrite IH.
Qed.

(** X19.  An uploaded file travels unchanged: the reader's data URL, of any
    media type, is cut down to its base64 payload by [handleFileUpload],
    which sets nothing but the image of the active character; and
    [cleanBase64] passes a base64 payload through unchanged, as it passes
    the payload of a PNG, JPEG or JPG data URL. *)
Theorem uploaded_image_keeps_its_payload (mediaType payload : jsstring) (s : State.t) :
  Forall (fun c => c <> 44) mediaType ->
  Forall (fun c => isBase64Char c = true) payload ->
  let result := js "data:" ++ mediaType ++ js ";base64," ++ payload in
  uploadedBase64 result = Some payload /\
  State.character (handleFileUpload result s) =
    Character.mk (Character.id (State.character s)) (Character.name (State.character s))
                 (Character.description (State.character s)) (Some payload) /\
  cleanBase64 payload = payload /\
  cleanBase64 (js "data:image/png;base64," ++ payload) = payload /\
  cleanBase64 (js "data:image/jpeg;base64," ++ payload) = payload /\
  cleanBase64 (js "data:image/jpg;base64," ++ payload) = payload.
Proof.
  intros Hmedia Hpayload. cbv zeta.
  assert (Hupload : uploadedBase64 (js "data:" ++ mediaType ++ js ";base64," ++ payload)
                    = Some payload).
  { unfold uploadedBase64.
    assert (Hshape : js "data:" ++ mediaType ++ js ";base64," ++ payload
                     = (js "data:" ++ mediaType ++ js ";base64") ++ 44 :: payload).
    { change (js ";base64,") with (js ";base64" ++ [44]).
      rewrite <- !app_assoc. reflexivity. }
    rewrite Hshape, split_comma_at.
    - rewrite split_comma_no_comma; [reflexivity|].
      eapply Forall_impl; [exact Hpayload|]. cbv beta.
      intros c Hc. now apply base64_not_colon in Hc.
    - apply Forall_app. split; [repeat constructor; discriminate|].
      apply Forall_app. split; [assumption|repeat constructor; discriminate]. }
  split; [exact Hupload|]. split.
  - unfold handleFileUpload, handleCharacterUpdate. now rewrite Hupload.
  - split; [now apply cleanBase64_base64|].
    repeat split; reflexivity.
Qed.

Lemma uploaded_image_keeps_its_payload_witness :
  uploadedBase64 (js "data:" ++ js "image/webp" ++ js ";base64," ++ js "UklGRg==")
    = Some (js "UklGRg==") /\
  cleanBase64 (js "UklGRg==") = js "UklGRg==".
Proof.
  assert (H1 : Forall (fun c => c <> 44) (js "image/webp"))
    by (repeat constructor; discriminate).
  assert (H2 : Forall (fun c => isBase64Char c = true) (js "UklGRg=="))
    by (repeat constructor).
  destruct (uploaded_image_keeps_its_payload (js "image/webp") (js "UklGRg==")
              aliceState H1 H2) as (Hupload & _ & Hclean & _).
  split; [exact Hupload|exact Hclean].
Defined.

(** ** The scene panel *)

Lemma split_newline_no_newline (s : jsstring) :
  Forall (fun c => c <> 10) s -> split_newline s = [s].
Proof.
  induction 1 as [|c s Hc _ IH]; cbn; [reflexivity|].
  destruct (N.eqb_spec c 10); [contradiction|]. now rewrite IH.
Qed.

Lemma split_newline_at (before after : jsstring) :
  Forall (fun c => c <> 10) before ->
  split_newline (before ++ 10 :: after) = before :: split_newline after.
Proof.
  induction 1 as [|c before Hc _ IH]; cbn; [reflexivity|].
  destruct (N.eqb_spec c 10); [contradiction|]. now rewrite IH.
Qed.

(** Joining with newlines and splitting at newlines gives the list back,
    for a list that is not empty and whose strings contain no newline. *)
Lemma split_newline_join (prompts : list jsstring) :
  prompts <> [] ->
  Forall (Forall (fun c => c <> 10)) prompts ->
  split_newline (join nl prompts) = prompts.
Proof.
  intros Hne Hall. induction Hall as [|p prompts Hp Hrest IH]; [contradiction|].
  destruct prompts as [|q prompts].
  - cbn. now apply split_newline_no_newline.
  - cbn [join]. unfold nl at 1. cbn [app].
    rewrite split_newline_at; [|assumption]. f_equal. now apply IH.
Qed.

Lemma submitted_batch_of_lines (promptInput : jsstring) :
  submittedPrompts batch promptInput =
  match List.filter (fun p => (0 <? length p)%nat)
                    (List.map trim (split_newline promptInput)) with
  | [] => None
  | prompts => Some prompts
  end.
Proof.
  unfold submittedPrompts.
  now destruct (List.filter _ _).
Qed.

Lemma filter_trimmed (lines : list jsstring) :
  List.filter (fun p => (0 <? length p)%nat) (List.map trim lines) =
  List.map trim (List.filter (fun p => (0 <? length (trim p))%nat) lines).
Proof.
  induction lines as [|line lines IH]; cbn [List.filter List.map]; [reflexivity|].
  destruct (0 <? length (trim line))%nat; cbn [List.filter List.map]; now rewrite IH.
Qed.

Lemma submitted_batch_is_queue (promptInput : jsstring) :
  submittedPrompts batch promptInput =
    match getBatchPrompts promptInput with
    | [] => None
    | _ :: _ => Some (List.map trim (getBatchPrompts promptInput))
    end.
Proof.
  rewrite submitted_batch_of_lines, filter_trimmed. unfold getBatchPrompts.
  now destruct (List.filter _ _).
Qed.

(** X20.  The queue shown above the batch box is the batch that is
    submitted: the same lines in the same order, the submitted ones trimmed;
    so the number of [images queued] is the [total] of the batch, and the
    submit does nothing exactly when the queue is empty. *)
Theorem batch_queue_is_what_is_submitted (promptInput : jsstring) :
  submittedPrompts batch promptInput =
    match getBatchPrompts promptInput with
    | [] => None
    | _ :: _ => Some (List.map trim (getBatchPrompts promptInput))
    end /\
  (forall prompts,
     submittedPrompts batch promptInput = Some prompts ->
     length prompts = length (getBatchPrompts promptInput)).
Proof.
  assert (Hsubmit : submittedPrompts batch promptInput =
                    match getBatchPrompts promptInput with
                    | [] => None
                    | _ :: _ => Some (List.map trim (getBatchPrompts promptInput))
                    end).
  { apply submitted_batch_is_queue. }
  split; [exact Hsubmit|].
  intros prompts. rewrite Hsubmit.
  destruct (getBatchPrompts promptInput); [discriminate|].
  intros [= <-]. cbn [length]. f_equal. apply length_map.
Qed.

Lemma join_nonempty_input (prompts : list jsstring) (promptInput : jsstring) :
  promptInputOfAnalysis prompts = Some promptInput ->
  prompts <> [] /\ promptInput = join nl prompts.
Proof.
  unfold promptInputOfAnalysis. destruct prompts; [discriminate|].
  cbn [length Nat.ltb Nat.leb]. intros [= <-]. split; [discriminate|reflexivity].
Qed.

(** X21.  The prompts of a story analysis reach the orchestrator as they
    were returned: when no prompt contains a newline and none is blank, what
    [handleAnalyzeStory] writes into the batch box is queued as the same
    list and submitted as the same list with each prompt trimmed. *)
Theorem analysis_prompts_survive_the_batch_box (prompts : list jsstring)
    (promptInput : jsstring) :
  promptInputOfAnalysis prompts = Some promptInput ->
  Forall (fun p => Forall (fun c => c <> 10) p /\ isBlank p = false) prompts ->
  getBatchPrompts promptInput = prompts /\
  submittedPrompts batch promptInput = Some (List.map trim prompts).
Proof.
  intros Hinput Hall.
  apply join_nonempty_input in Hinput as [Hne ->].
  assert (Hqueue : getBatchPrompts (join nl prompts) = prompts).
  { unfold getBatchPrompts. rewrite split_newline_join; [|assumption|].
    - clear Hne. induction Hall as [|p prompts [_ Hp] _ IH]; cbn; [reflexivity|].
      unfold isBlank in Hp. destruct (trim p); [discriminate|]. cbn. now f_equal.
    - eapply Forall_impl; [exact Hall|]. now intros p [Hp _]. }
  split; [exact Hqueue|].
  rewrite submitted_batch_is_queue, Hqueue.
  destruct prompts; [contradiction|reflexivity].
Qed.

Lemma analysis_prompts_survive_the_batch_box_witness :
  promptInputOfAnalysis [js "[Bob] Bob runs"; js "A sunset"] =
    Some (js "[Bob] Bob runs" ++ nl ++ js "A sunset") /\
  submittedPrompts batch (js "[Bob] Bob runs" ++ nl ++ js "A sunset") =
    Some [js "[Bob] Bob runs"; js "A sunset"].
Proof.
  assert (Hinput : promptInputOfAnalysis [js "[Bob] Bob runs"; js "A sunset"] =
                   Some (js "[Bob] Bob runs" ++ nl ++ js "A sunset")) by reflexivity.
  split; [exact Hinput|].
  apply (analysis_prompts_survive_the_batch_box
           [js "[Bob] Bob runs"; js "A sunset"] _ Hinput).
  repeat constructor; discriminate.
Defined.





(** X23.  Clicking a cast member flips the selection of that character and
    of no other; clicking twice restores the selection. *)
Theorem toggle_cast_member_flips (id : jsstring) (selectedCastIds : gset jsstring) :
  (id ∈ toggleCastMember id selectedCastIds <-> id ∉ selectedCastIds) /\
  (forall other,
     other <> id ->
     (other ∈ toggleCastMember id selectedCastIds <-> other ∈ selectedCastIds)) /\
  toggleCastMember id (toggleCastMember id selectedCastIds) = selectedCastIds.
Proof.
  unfold toggleCastMember.
  destruct (decide (id ∈ selectedCastIds)) as [Hin|Hout].
  - split; [|split].
    + rewrite elem_of_difference, elem_of_singleton. tauto.
    + intros other Hne. rewrite elem_of_difference, elem_of_singleton. tauto.
    + destruct (decide (id ∈ selectedCastIds ∖ {[id]})) as [Habs|_].
      * apply elem_of_difference in Habs as [_ Habs].
        exfalso. apply Habs. now apply elem_of_singleton.
      * apply set_eq. intros x.
        rewrite elem_of_union, elem_of_difference, elem_of_singleton.
        destruct (decide (x = id)) as [->|Hne]; tauto.
  - split; [|split].
    + rewrite elem_of_union, elem_of_singleton. tauto.
    + intros other Hne. rewrite elem_of_union, elem_of_singleton. tauto.
    + destruct (decide (id ∈ selectedCastIds ∪ {[id]})) as [_|Habs].
      * apply set_eq. intros x.
        rewrite elem_of_difference, elem_of_union, elem_of_singleton.
        destruct (decide (x = id)) as [->|Hne]; tauto.
      * exfalso. apply Habs, elem_of_union. right. now apply elem_of_singleton.
Qed.

Lemma toggle_cast_member_flips_witness :
  js "c-bob" ∈ toggleCastMember (js "c-bob") ({[js "c-alice"]} : gset jsstring).
Proof.
  apply (proj1 (toggle_cast_member_flips (js "c-bob") {[js "c-alice"]})).
  intros Hin. apply elem_of_singleton in Hin. discriminate Hin.
Defined.

Lemma selectedNames_fold (character : Character.t) (selectedCastIds : gset jsstring)
    (savedCharacters : list Character.t) (names : list jsstring) :
  fold_left
    (fun names c =>
       if bool_decide (Character.id c ∈ selectedCastIds)
          && truthy (Character.name c)
          && negb (str_eqb (Character.name c) (Character.name character))
       then names ++ [Character.name c]
       else names)
    savedCharacters names =
  names ++
  List.map Character.name
    (List.filter
       (fun c => bool_decide (Character.id c ∈ selectedCastIds)
                 && truthy (Character.name c)
                 && negb (str_eqb (Character.name c) (Character.name character)))
       savedCharacters).
Proof.
  revert names. induction savedCharacters as [|c savedCharacters IH]; intros names.
  - cbn. now rewrite app_nil_r.
  - cbn [fold_left List.filter]. rewrite IH.
    destruct (_ && _ && _); [|reflexivity].
    cbn [List.map]. now rewrite <- app_assoc.
Qed.

(** X24.  The names [handleAnalyzeStory] hands to the analysis: the name of
    the active character first, if it is not empty (whether or not the
    character has an image or is selected), then the names of the chosen
    saved characters in library order.  The chosen ones are the saved
    characters that are selected, have a name, and whose name is not the
    active one, each as often and in the order it occurs in the library.
    No name handed over is empty, and the active name occurs once at
    most. *)
Theorem analysis_names_are_selected_cast (character : Character.t)
    (savedCharacters : list Character.t) (selectedCastIds : gset jsstring) :
  let names := selectedNames character savedCharacters selectedCastIds in
  let chosen :=
    List.filter
      (fun c => bool_decide (Character.id c ∈ selectedCastIds)
                && truthy (Character.name c)
                && negb (str_eqb (Character.name c) (Character.name character)))
      savedCharacters in
  names = (if truthy (Character.name character) then [Character.name character]
           else []) ++ List.map Character.name chosen /\
  chosen `sublist_of` savedCharacters /\
  (forall c,
     c ∈ chosen <->
     c ∈ savedCharacters /\
     Character.id c ∈ selectedCastIds /\
     truthy (Character.name c) = true /\
     Character.name c <> Character.name character) /\
  Forall (fun name => truthy name = true) names /\
  Character.name character ∉ List.map Character.name chosen.
Proof.
  cbv zeta. unfold selectedNames. rewrite selectedNames_fold.
  set (keep := fun c : Character.t =>
                 bool_decide (Character.id c ∈ selectedCastIds)
                 && truthy (Character.name c)
                 && negb (str_eqb (Character.name c) (Character.name character))).
  assert (Hkept : forall c, c ∈ List.filter keep savedCharacters <->
                            c ∈ savedCharacters /\
                            Character.id c ∈ selectedCastIds /\
                            truthy (Character.name c) = true /\
                            Character.name c <> Character.name character).
  { intros c. rewrite !list_elem_of_In, List.filter_In. unfold keep.
    rewrite !Bool.andb_true_iff, bool_decide_eq_true, Bool.negb_true_iff, str_eqb_neq.
    tauto. }
  split; [reflexivity|]. split; [apply filter_sublist|]. split; [exact Hkept|]. split.
  - apply Forall_app. split.
    + destruct (truthy (Character.name character)) eqn:E; repeat constructor. exact E.
    + apply Forall_forall. intros name Hin.
      apply list_elem_of_In, List.in_map_iff in Hin as (c & <- & Hc).
      apply list_elem_of_In, Hkept in Hc. tauto.
  - intros Hin.
    apply list_elem_of_In, List.in_map_iff in Hin as (c & Hname & Hc).
    apply list_elem_of_In, Hkept in Hc as (_ & _ & _ & Hne). contradiction.
Qed.

(** The names for a library in which a selected character occurs twice and
    the active character is saved as well. *)
Example analysis_names_in_library_order :
  selectedNames alice [carol; alice; bob; carol]
                ({[js "c-carol"; js "c-bob"]} : gset jsstring)
    = [js "Alice"; js "Carol"; js "Bob"; js "Carol"].
Proof. vm_compute. reflexivity. Qed.

(** X25.  The cast offered for selection contains every saved character
    and, when the active character has a name and an image, a character
    with the id of the active one; if the ids of the library are pairwise
    different, so are the ids of the cast (the keys of the rendered list). *)
Theorem available_cast_has_unique_ids (character : Character.t)
    (savedCharacters : list Character.t) :
  NoDup (List.map Character.id savedCharacters) ->
  NoDup (List.map Character.id (availableCast character savedCharacters)) /\
  (forall c, c ∈ savedCharacters -> c ∈ availableCast character savedCharacters) /\
  (activeUsable character = true ->
   Character.id character ∈
     List.map Character.id (availableCast character savedCharacters)).
Proof.
  intros Hnodup. unfold availableCast.
  destruct (existsb _ savedCharacters) eqn:Hexists.
  - rewrite Bool.andb_false_r. split; [assumption|]. split; [easy|].
    intros _. apply List.existsb_exists in Hexists as (c & Hin & Heq).
    apply str_eqb_eq in Heq. rewrite <- Heq.
    apply list_elem_of_In, List.in_map. exact Hin.
  - rewrite Bool.andb_true_r. destruct (activeUsable character).
    + split; [|split].
      * cbn. constructor; [|assumption].
        intros Hin. apply list_elem_of_In, List.in_map_iff in Hin as (c & Hid & Hin).
        assert (Hfound : existsb (fun c => str_eqb (Character.id c) (Character.id character))
                                 savedCharacters = true).
        { apply List.existsb_exists. exists c. split; [assumption|now apply str_eqb_eq]. }
        congruence.
      * intros c Hin. now right.
      * intros _. cbn. now left.
    + split; [assumption|]. split; [easy|discriminate].
Qed.

Lemma available_cast_has_unique_ids_witness :
  NoDup (List.map Character.id [bob; carol]) /\
  NoDup (List.map Character.id (availableCast alice [bob; carol])).
Proof.
  assert (H : NoDup (List.map Character.id [bob; carol])).
  { cbn. apply NoDup_cons. split; [|apply NoDup_singleton].
    intros Hin. apply list_elem_of_singleton in Hin. discriminate Hin. }
  split; [exact H|].
  exact (proj1 (available_cast_has_unique_ids alice [bob; carol] H)).
Defined.

(** X26.  A delete the user does not confirm changes nothing.  A confirmed
    delete leaves the active character, the scenes, the status, the progress
    and the animating set alone whatever the database does; when the
    database cannot be opened or the transaction fails, the store and the
    library on screen are unchanged and the user is told [Database
    connection failed during delete.] or [Failed to delete character]. *)
Theorem delete_errors_keep_session (confirmed : bool) (faults : WriteFaults)
    (id : jsstring) (s : State.t) (store : Store) :
  let r := handleDeleteCharacter confirmed faults id s store in
  (confirmed = false -> r = (s, store)) /\
  (State.character (fst r) = State.character s /\
   State.scenes (fst r) = State.scenes s /\
   State.status (fst r) = State.status s /\
   State.progress (fst r) = State.progress s /\
   State.animatingSceneIds (fst r) = State.animatingSceneIds s) /\
  (confirmed = true -> write_opens faults = false ->
   r = (withError (Some (js "Database connection failed during delete.")) s, store)) /\
  (confirmed = true -> write_opens faults = true -> write_commits faults = false ->
   r = (withError (Some (js "Failed to delete character")) s, store)) /\
  (snd r <> store ->
   confirmed = true /\ write_opens faults = true /\ write_commits faults = true /\
   snd r = storeDelete id store).
Proof.
  cbv zeta. unfold handleDeleteCharacter.
  destruct confirmed.
  - unfold deleteCharacterFromStorage, loadSavedCharacters.
    destruct faults as [[|] [|] [[|] [|]]]; cbn -[storeDelete];
      (split; [discriminate|]); (split; [repeat split|]);
      repeat split; try discriminate; try reflexivity; try (intros; congruence).
  - cbn. split; [reflexivity|]. split; [repeat split|].
    repeat split; try discriminate. all: intros; congruence.
Qed.

Lemma delete_errors_keep_session_witness :
  handleDeleteCharacter false noWriteFaults (js "c-bob") aliceState [alice; bob] =
    (aliceState, [alice; bob]).
Proof.
  exact (proj1 (delete_errors_keep_session false noWriteFaults (js "c-bob") aliceState
                  [alice; bob]) eq_refl).
Defined.

Lemma batch_queue_is_what_is_submitted_witness :
  getBatchPrompts (js " one " ++ nl ++ js "   " ++ nl ++ js "two")
    = [js " one "; js "two"] /\
  submittedPrompts batch (js " one " ++ nl ++ js "   " ++ nl ++ js "two")
    = Some [js "one"; js "two"].
Proof.
  split; [reflexivity|].
  rewrite (proj1 (batch_queue_is_what_is_submitted
                    (js " one " ++ nl ++ js "   " ++ nl ++ js "two"))).
  reflexivity.
Defined.
